(** * Code-graph indexer: parser, graph persistence, job loop and query guard

    A shallow embedding of the indexing pipeline of the repository:

    - [agents/indexer/parser.py]   : [EntityInfo], [RelationshipInfo] and
      [PythonASTParser], which walks a Python syntax tree and appends
      entities and relationships;
    - [agents/indexer/tools.py]    : [IndexerTools.index_file] (one batch of
      Cypher statements per file), [IndexerTools.index_repository] (the
      job loop), [parse_python_ast], [extract_entities] and
      [get_index_status];
    - [agents/indexer/repository.py] : [discover_python_files] and
      [get_module_path];
    - [agents/graph_query/queries.py], [agents/graph_query/tools.py] :
      the query builders and [validate_query] of [CypherQueryBuilder],
      [GraphQueryTools.execute_query], [find_entity] and [find_related];
    - [database/neo4j_client.py]   : [execute_batch_write], [count_nodes]
      and [count_relationships];
    - [utils/helpers.py]           : [parse_cypher_result], [truncate_text]
      and [async_retry].

    Python's own [ast] module, the interpreter and the graph database with
    its driver are not part of the repository.  The syntax tree is the
    input of the embedding (what [ast.parse] returns), and the two statement
    shapes which [index_file] builds for the database are given the meaning
    the Cypher manual gives them.  What the program meets of the rest is
    kept where it decides an outcome: [session.begin_transaction] of the
    asynchronous driver is a coroutine function, [str.upper] follows the
    Unicode character database, the interpreter bounds the depth of
    recursion, and a task can be cancelled where it awaits. *)

From Stdlib Require Import ZArith String Ascii List Permutation Lia.
From stdpp Require Import gmap strings list fin_maps pretty.

Set Warnings "-register-all".

(** ** Python values and dictionaries *)

(** The values stored in entity properties and query parameters. *)
Inductive pyval :=
| PyStr (s : string)
| PyInt (n : Z)
| PyBool (b : bool)
| PyNone
| PyList (l : list string).

#[global] Instance pyval_eq_dec : EqDecision pyval.
Proof. solve_decision. Defined.

(** A [dict]: keys are unique and keep the position of their first
    insertion; assigning an existing key overwrites its value in place. *)
Definition pydict := list (string * pyval).

Fixpoint dict_set (k : string) (v : pyval) (d : pydict) : pydict :=
  match d with
  | [] => [(k, v)]
  | (k', v') :: d' =>
      if String.eqb k' k then (k, v) :: d' else (k', v') :: dict_set k v d'
  end.

Fixpoint dict_get (k : string) (d : pydict) : option pyval :=
  match d with
  | [] => None
  | (k', v') :: d' => if String.eqb k' k then Some v' else dict_get k d'
  end.

Fixpoint dict_del (k : string) (d : pydict) : pydict :=
  match d with
  | [] => []
  | (k', v') :: d' => if String.eqb k' k then d' else (k', v') :: dict_del k d'
  end.

(** [d.pop(k)]: the value and the dictionary without the key; [None] stands
    for [KeyError]. *)
Definition dict_pop (k : string) (d : pydict) : option (pyval * pydict) :=
  match dict_get k d with
  | Some v => Some (v, dict_del k d)
  | None => None
  end.

(** [{**d, **extra}]: the pairs of [extra] assigned in order. *)
Definition dict_update (d extra : pydict) : pydict :=
  fold_left (fun acc kv => dict_set (fst kv) (snd kv) acc) extra d.

Definition dict_keys (d : pydict) : list string := map fst d.

(** [sep.join(parts)]. *)
Fixpoint join (sep : string) (parts : list string) : string :=
  match parts with
  | [] => ""
  | [p] => p
  | p :: rest => p +:+ sep +:+ join sep rest
  end.

(** Truth value of a [str]: the empty string is false. *)
Definition truthy (s : string) : bool := negb (String.eqb s "").

(** ** [core/types.py] *)

Inductive EntityType :=
| MODULE | CLASS | FUNCTION | METHOD | PARAMETER | DECORATOR | IMPORT
| DOCSTRING | FILE.

Definition EntityType_value (t : EntityType) : string :=
  match t with
  | MODULE => "Module"
  | CLASS => "Class"
  | FUNCTION => "Function"
  | METHOD => "Method"
  | PARAMETER => "Parameter"
  | DECORATOR => "Decorator"
  | IMPORT => "Import"
  | DOCSTRING => "Docstring"
  | FILE => "File"
  end.

Inductive RelationshipType :=
| CONTAINS | IMPORTS | INHERITS_FROM | CALLS | DECORATED_BY | HAS_PARAMETER
| DOCUMENTED_BY | DEPENDS_ON.

Definition RelationshipType_value (t : RelationshipType) : string :=
  match t with
  | CONTAINS => "CONTAINS"
  | IMPORTS => "IMPORTS"
  | INHERITS_FROM => "INHERITS_FROM"
  | CALLS => "CALLS"
  | DECORATED_BY => "DECORATED_BY"
  | HAS_PARAMETER => "HAS_PARAMETER"
  | DOCUMENTED_BY => "DOCUMENTED_BY"
  | DEPENDS_ON => "DEPENDS_ON"
  end.

Inductive IndexJobStatus := PENDING | IN_PROGRESS | COMPLETED | FAILED.

#[global] Instance EntityType_eq_dec : EqDecision EntityType.
Proof. solve_decision. Defined.

#[global] Instance RelationshipType_eq_dec : EqDecision RelationshipType.
Proof. solve_decision. Defined.

#[global] Instance IndexJobStatus_eq_dec : EqDecision IndexJobStatus.
Proof. solve_decision. Defined.

(** ** The syntax tree read by the parser

    Only what [PythonASTParser] reads of a node is kept.  An expression is a
    [Name], an [Attribute], a [Call], a [Constant] or something else; a
    statement is one of the five kinds the parser dispatches on, an
    expression statement (a docstring is one), or any other node, which
    only matters through the nodes below it. *)

Inductive constant :=
| ConstStr (s : string)
| ConstOther.

Inductive expr :=
| Name (id : string)
| Attribute (value : expr) (attr : string)
| Call (func : expr) (args : list expr)
| Constant (value : constant)
| OtherExpr (tag : nat).

(** [ast.arg]: the parameter name, its annotation and its line. *)
Record arg := mk_arg {
  arg_name : string;
  annotation : option expr;
  arg_lineno : Z
}.

(** [ast.alias]: the imported name of an import clause. *)
Record alias := mk_alias {
  alias_name : string;
  asname : option string
}.

(** [args] is [node.args.args]: the parameters that can be passed by
    position or by keyword.  The parser does not read the positional-only
    parameters ([posonlyargs]), the keyword-only ones ([kwonlyargs]) nor
    the starred ones ([vararg], [kwarg]).
    [OtherNode] is every other node kind that may hold statements (an [if],
    a loop, a [try] and its handlers, a [with], ...) with its child nodes in
    the order [ast.iter_child_nodes] gives them. *)
Inductive stmt :=
| ClassDef (cname : string) (bases : list expr) (body : list stmt)
    (decorator_list : list expr) (lineno : Z)
| FunctionDef (fname : string) (args : list arg) (body : list stmt)
    (decorator_list : list expr) (lineno : Z)
| AsyncFunctionDef (fname : string) (args : list arg) (body : list stmt)
    (decorator_list : list expr) (lineno : Z)
| Import (names : list alias) (lineno : Z)
| ImportFrom (module : option string) (names : list alias) (lineno : Z)
| Expr (value : expr)
| OtherNode (children : list stmt).

(** [ast.Module]. *)
Record Module_ast := mk_Module { mod_body : list stmt }.

(** Object identity of a node of the tree: its position, the list of child
    indices leading from the root to it. *)
Definition node_id := list nat.

Definition located : Type := node_id * stmt.

(** The child statements of a node, in field order. Expression children
    (bases, decorators, arguments) hold no statement and are left out. *)
Definition child_stmts (s : stmt) : list stmt :=
  match s with
  | ClassDef _ _ body _ _ => body
  | FunctionDef _ _ body _ _ => body
  | AsyncFunctionDef _ _ body _ _ => body
  | OtherNode children => children
  | Import _ _ | ImportFrom _ _ _ | Expr _ => []
  end.

Definition locate_children (p : node_id) (l : list stmt) : list located :=
  imap (fun i c => (p ++ [i], c)) l.

Definition iter_child_nodes (n : located) : list located :=
  locate_children (fst n) (child_stmts (snd n)).

Fixpoint stmt_size (s : stmt) : nat :=
  S (match s with
     | ClassDef _ _ body _ _ => list_sum (map stmt_size body)
     | FunctionDef _ _ body _ _ => list_sum (map stmt_size body)
     | AsyncFunctionDef _ _ body _ _ => list_sum (map stmt_size body)
     | OtherNode children => list_sum (map stmt_size children)
     | Import _ _ | ImportFrom _ _ _ | Expr _ => 0
     end).

Definition queue_size (todo : list located) : nat :=
  list_sum (map (fun n => stmt_size (snd n)) todo).

(** [ast.walk]: pop the first node of the queue, push its children at the
    end, yield it.  [fuel] bounds the number of nodes popped. *)
Fixpoint walk_queue (fuel : nat) (todo : list located) : list located :=
  match fuel with
  | O => []
  | S fuel' =>
      match todo with
      | [] => []
      | node :: rest => node :: walk_queue fuel' (rest ++ iter_child_nodes node)
      end
  end.

(** The nodes [ast.walk(tree)] yields after the root [Module] node (which
    matches no branch of the parser's loop), in the order it yields them. *)
Definition walk (tree : Module_ast) : list located :=
  let top := locate_children [] (mod_body tree) in
  walk_queue (queue_size top) top.

(** ** [agents/indexer/parser.py] *)

Record EntityInfo := mk_EntityInfo {
  entity_type : EntityType;
  name : string;
  line_number : Z;
  properties : pydict
}.

Record RelationshipInfo := mk_RelationshipInfo {
  rel_type : RelationshipType;
  source : string;
  target : string;
  rel_properties : pydict
}.

(** [EntityInfo.to_dict]: the three fixed keys first, then the entity's
    properties assigned over them. *)
Definition EntityInfo_to_dict (e : EntityInfo) : pydict :=
  dict_update
    [("entity_type", PyStr (EntityType_value (entity_type e)));
     ("name", PyStr (name e));
     ("line_number", PyInt (line_number e))]
    (properties e).

(** [RelationshipInfo.to_dict]. *)
Definition RelationshipInfo_to_dict (r : RelationshipInfo) : pydict :=
  dict_update
    [("rel_type", PyStr (RelationshipType_value (rel_type r)));
     ("source", PyStr (source r));
     ("target", PyStr (target r))]
    (rel_properties r).

(** [self.entities] and [self.relationships] are only ever appended to.  A
    method of the parser is modelled by the two lists it appends, in order;
    [None] stands for an exception leaving the method. *)
Definition emitted : Type := list EntityInfo * list RelationshipInfo.

Definition parse_step : Type := option emitted.

Definition skip : parse_step := Some ([], []).

Definition raise : parse_step := None.

Definition append_entity (e : EntityInfo) : parse_step := Some ([e], []).

Definition append_relationship (r : RelationshipInfo) : parse_step :=
  Some ([], [r]).

Definition and_then (a b : parse_step) : parse_step :=
  match a with
  | None => None
  | Some (e1, r1) =>
      match b with
      | None => None
      | Some (e2, r2) => Some (e1 ++ e2, r1 ++ r2)
      end
  end.

Declare Scope parse_scope.
Delimit Scope parse_scope with parse.
Bind Scope parse_scope with parse_step.
Notation "a ;; b" := (and_then a b)
  (at level 100, b at level 200, right associativity) : parse_scope.
Open Scope parse_scope.

Fixpoint for_each {A : Type} (l : list A) (f : A -> parse_step) : parse_step :=
  match l with
  | [] => skip
  | x :: l' => f x ;; for_each l' f
  end.

(** [enumerate(l)] from a given start. *)
Fixpoint enumerate_from {A : Type} (i : Z) (l : list A) : list (Z * A) :=
  match l with
  | [] => []
  | x :: l' => (i, x) :: enumerate_from (i + 1) l'
  end.

Definition enumerate {A : Type} (l : list A) : list (Z * A) :=
  enumerate_from 0 l.

Definition is_function_def (s : stmt) : bool :=
  match s with
  | FunctionDef _ _ _ _ _ | AsyncFunctionDef _ _ _ _ _ => true
  | _ => false
  end.

Section PythonASTParser.

(** Two functions of Python's standard library are left open:
    [inspect.cleandoc], which [ast.get_docstring] applies to the text of a
    docstring, and [ast.unparse] ([None] when it raises, for whatever
    reason). *)
Variable cleandoc : string -> string.
Variable unparse : expr -> option string.

(** The interpreter raises [RecursionError] when calls nest deeper than
    its recursion limit.  In the parser one method nests calls with the
    size of the tree: [_get_name_from_node] calls itself once for every
    [Call] around a node.  [recursion_limit] is the number of calls of the
    method that fit inside the call [_parse_function] makes for a method,
    the deepest place the parser calls it from; the calls made by
    [_parse_class], and by [_parse_function] for a function of the module,
    stand one frame higher and leave room for one more. *)
Variable recursion_limit : nat.

(** [self.file_path] and [self.module_path]. *)
Variable file_path : string.
Variable module_path : string.

(** [ast.get_docstring(node)] on the body of a module, class or function:
    the cleaned text when the first statement is a string constant. *)
Definition get_docstring (body : list stmt) : option string :=
  match body with
  | Expr (Constant (ConstStr text)) :: _ => Some (cleandoc text)
  | _ => None
  end.

(** [_get_name_from_node].  [nested] is the number of calls of the method
    that still fit inside the current one; the outer [None] stands for
    [RecursionError].  The bare [except] around [ast.unparse] turns
    whatever it raises into the result [None]. *)
Fixpoint _get_name_from_node (nested : nat) (node : expr) {struct node}
  : option (option string) :=
  match node with
  | Name id => Some (Some id)
  | Attribute _ _ => Some (unparse node)
  | Call func _ =>
      match nested with
      | O => None
      | S nested' => _get_name_from_node nested' func
      end
  | _ => Some None
  end.

(** The frames left to [_get_name_from_node] where it is called for a
    method, and where it is called for a class or a function of the
    module. *)
Definition frames_left (is_method : bool) : nat :=
  if is_method then recursion_limit else S recursion_limit.

Definition _add_parameter (parent : string) (a : arg) (position : Z)
  : parse_step :=
  let param_name := parent +:+ ".param." +:+ arg_name a in
  match
    match annotation a with
    | Some ann => option_map PyStr (unparse ann)
    | None => Some PyNone
    end
  with
  | None => raise
  | Some type_annotation =>
      append_entity
        (mk_EntityInfo PARAMETER param_name (arg_lineno a)
           [("name", PyStr (arg_name a));
            ("type_annotation", type_annotation);
            ("position", PyInt position)]) ;;
      append_relationship
        (mk_RelationshipInfo HAS_PARAMETER parent param_name [])
  end.

Definition _add_decorator (parent decorator_name : string) : parse_step :=
  let dec_name := parent +:+ ".decorator." +:+ decorator_name in
  append_entity
    (mk_EntityInfo DECORATOR dec_name 0 [("name", PyStr decorator_name)]) ;;
  append_relationship
    (mk_RelationshipInfo DECORATED_BY parent decorator_name []).

Definition _add_docstring (parent content : string) (line_number : Z)
  : parse_step :=
  let doc_name := parent +:+ ".docstring" in
  append_entity
    (mk_EntityInfo DOCSTRING doc_name line_number
       [("content", PyStr content)]) ;;
  append_relationship
    (mk_RelationshipInfo DOCUMENTED_BY parent doc_name []).

(** [f"{parent_class}"]: [None] prints as the word None. *)
Definition format_optional (o : option string) : string :=
  match o with
  | Some s => s
  | None => "None"
  end.

(** The loop of [_parse_function] that looks for the two markers among
    the decorators of a method, from the values [is_static] and
    [is_classmethod] have so far; [None] when a lookup raises. *)
Fixpoint method_markers (decorator_list : list expr)
    (is_static is_classmethod : bool) : option (bool * bool) :=
  match decorator_list with
  | [] => Some (is_static, is_classmethod)
  | decorator :: rest =>
      match _get_name_from_node recursion_limit decorator with
      | None => None
      | Some dec_name =>
          if bool_decide (dec_name = Some "staticmethod")
          then method_markers rest true is_classmethod
          else if bool_decide (dec_name = Some "classmethod")
          then method_markers rest is_static true
          else method_markers rest is_static is_classmethod
      end
  end.

Definition _parse_function_def (is_async : bool) (fname : string)
    (args : list arg) (body : list stmt) (decorator_list : list expr)
    (lineno : Z) (is_method : bool) (parent_class : option string)
  : parse_step :=
  let entity_type := if is_method then METHOD else FUNCTION in
  let full_name :=
    if is_method then format_optional parent_class +:+ "." +:+ fname
    else module_path +:+ "." +:+ fname in
  let docstring := default "" (get_docstring body) in
  let signature :=
    fname +:+ "(" +:+ join ", " (map arg_name args) +:+ ")" in
  match
    if is_method then method_markers decorator_list false false
    else Some (false, false)
  with
  | None => raise
  | Some (is_static, is_classmethod) =>
      let properties :=
        [("name", PyStr fname);
         ("module_path", PyStr module_path);
         ("docstring", PyStr docstring);
         ("is_async", PyBool is_async);
         ("signature", PyStr signature)] in
      let properties :=
        if is_method
        then dict_set "is_classmethod" (PyBool is_classmethod)
               (dict_set "is_static" (PyBool is_static) properties)
        else properties in
      append_entity (mk_EntityInfo entity_type full_name lineno properties) ;;
      let parent :=
        if is_method then format_optional parent_class else module_path in
      append_relationship (mk_RelationshipInfo CONTAINS parent full_name []) ;;
      for_each (enumerate args)
        (fun ia => _add_parameter full_name (snd ia) (fst ia)) ;;
      for_each decorator_list
        (fun decorator =>
           match _get_name_from_node (frames_left is_method) decorator with
           | None => raise
           | Some (Some decorator_name) =>
               if truthy decorator_name
                  && negb (String.eqb decorator_name "staticmethod")
                  && negb (String.eqb decorator_name "classmethod")
               then _add_decorator full_name decorator_name
               else skip
           | Some None => skip
           end) ;;
      (if truthy docstring then _add_docstring full_name docstring lineno
       else skip)
  end.

(** [_parse_function]: [is_async] is [isinstance(node, ast.AsyncFunctionDef)].
    A node of another kind has no [name]: reading it raises. *)
Definition _parse_function (node : stmt) (is_method : bool)
    (parent_class : option string) : parse_step :=
  match node with
  | FunctionDef fname args body decorator_list lineno =>
      _parse_function_def false fname args body decorator_list lineno
        is_method parent_class
  | AsyncFunctionDef fname args body decorator_list lineno =>
      _parse_function_def true fname args body decorator_list lineno
        is_method parent_class
  | _ => raise
  end.

Definition is_ABC (d : expr) : bool :=
  match d with
  | Name id => String.eqb id "ABC"
  | _ => false
  end.

Definition _parse_class (node : stmt) : parse_step :=
  match node with
  | ClassDef cname bases body decorator_list lineno =>
      let class_name := module_path +:+ "." +:+ cname in
      let docstring := default "" (get_docstring body) in
      let is_abstract := existsb is_ABC bases in
      append_entity
        (mk_EntityInfo CLASS class_name lineno
           [("name", PyStr cname);
            ("module_path", PyStr module_path);
            ("docstring", PyStr docstring);
            ("is_abstract", PyBool is_abstract)]) ;;
      append_relationship
        (mk_RelationshipInfo CONTAINS module_path class_name []) ;;
      for_each bases
        (fun base =>
           match _get_name_from_node (frames_left false) base with
           | None => raise
           | Some (Some base_name) =>
               if truthy base_name && negb (String.eqb base_name "ABC")
               then append_relationship
                      (mk_RelationshipInfo INHERITS_FROM class_name
                         base_name [])
               else skip
           | Some None => skip
           end) ;;
      for_each decorator_list
        (fun decorator =>
           match _get_name_from_node (frames_left false) decorator with
           | None => raise
           | Some (Some decorator_name) =>
               if truthy decorator_name
               then _add_decorator class_name decorator_name
               else skip
           | Some None => skip
           end) ;;
      for_each body
        (fun item =>
           if is_function_def item
           then _parse_function item true (Some class_name)
           else skip) ;;
      (if truthy docstring then _add_docstring class_name docstring lineno
       else skip)
  | _ => raise
  end.

Definition _parse_import (node : stmt) : parse_step :=
  match node with
  | Import names lineno =>
      for_each names
        (fun a =>
           let import_name := module_path +:+ ".import." +:+ alias_name a in
           append_entity
             (mk_EntityInfo IMPORT import_name lineno
                [("module_name", PyStr (alias_name a));
                 ("imported_names", PyList [alias_name a]);
                 ("is_from_import", PyBool false)]) ;;
           append_relationship
             (mk_RelationshipInfo IMPORTS module_path (alias_name a) []))
  | ImportFrom module names lineno =>
      let module := default "" module in
      let imported_names := map alias_name names in
      let import_name := module_path +:+ ".import." +:+ module in
      append_entity
        (mk_EntityInfo IMPORT import_name lineno
           [("module_name", PyStr module);
            ("imported_names", PyList imported_names);
            ("is_from_import", PyBool true)]) ;;
      (if truthy module
       then append_relationship
              (mk_RelationshipInfo IMPORTS module_path module [])
       else skip)
  | _ => skip
  end.

(** [node in tree.body]: syntax-tree nodes compare by identity. *)
Definition _is_top_level (node : located) (tree : Module_ast) : bool :=
  bool_decide (fst node ∈ map fst (locate_children [] (mod_body tree))).

(** The body of the loop over [ast.walk(tree)]. *)
Definition visit (tree : Module_ast) (node : located) : parse_step :=
  match snd node with
  | ClassDef _ _ _ _ _ => _parse_class (snd node)
  | FunctionDef _ _ _ _ _ | AsyncFunctionDef _ _ _ _ _ =>
      if _is_top_level node tree
      then _parse_function (snd node) false None
      else skip
  | Import _ _ | ImportFrom _ _ _ => _parse_import (snd node)
  | _ => skip
  end.

(** [parse_file].  [tree] is what reading the file and [ast.parse] give;
    [None] when either raises (a missing file, a syntax error).  Every
    exception, [RecursionError] among them, is turned into [ParsingError]:
    the result is [None]. *)
Definition parse_file (tree : option Module_ast) : parse_step :=
  match tree with
  | None => raise
  | Some tree =>
      let module_docstring := get_docstring (mod_body tree) in
      append_entity
        (mk_EntityInfo MODULE module_path 1
           [("path", PyStr module_path);
            ("file_path", PyStr file_path);
            ("docstring", PyStr (default "" module_docstring))]) ;;
      for_each (walk tree) (visit tree)
  end.

End PythonASTParser.

(** The source of the end-to-end example: class Foo with base Base and one
    method bar(self, x) whose body is a docstring and a return. *)
Definition example_tree : Module_ast :=
  mk_Module
    [ClassDef "Foo" [Name "Base"]
       [FunctionDef "bar"
          [mk_arg "self" None 2; mk_arg "x" None 2]
          [Expr (Constant (ConstStr "doc")); OtherNode []]
          [] 2]
       [] 1].

(** ** The graph database

    [index_file] builds two shapes of Cypher statement.  They are kept in
    structured form, [cypher_text] giving the text the code builds, and
    [run_cypher] gives them the meaning of the Cypher manual:

    - MERGE (e:L {name: $name}) binds every node with label L whose name
      property equals the parameter, and creates one such node when there is
      none; SET e += {k: $k, ...} then overwrites the listed properties of
      every bound node, a null value removing the property;
    - MATCH (s {name: $source}), (t {name: $target}) binds every pair of
      nodes with these name properties, whatever their labels, and creates
      nothing; MERGE (s)-[r:T]->(t) then adds, for every bound pair, an edge
      of type T unless one is there already.

    A node is identified by its position in [nodes]; nodes are never
    removed.  Transport failures and schema constraints are not modelled. *)

Record node := mk_node {
  labels : list string;
  props : gmap string pyval
}.

Record edge := mk_edge {
  edge_type : string;
  edge_src : nat;
  edge_dst : nat
}.

#[global] Instance edge_eq_dec : EqDecision edge.
Proof. solve_decision. Defined.

Record graph := mk_graph {
  nodes : list node;
  edges : list edge
}.

Definition empty_graph : graph := mk_graph [] [].

Inductive cypher :=
| MergeSet (label : string) (keys : list string)
| MatchMerge (rtype : string).

Definition cypher_text (c : cypher) : string :=
  match c with
  | MergeSet label keys =>
      "MERGE (e:" +:+ label +:+ " {name: $name}) " +:+
      "SET e += {" +:+ join ", " (map (fun k => k +:+ ": $" +:+ k) keys)
      +:+ "}"
  | MatchMerge rtype =>
      "MATCH (s {name: $source}), (t {name: $target}) " +:+
      "MERGE (s)-[r:" +:+ rtype +:+ "]->(t)"
  end.

(** A statement with its parameters, as [execute_batch_write] receives it. *)
Definition query : Type := cypher * pydict.

(** The pattern {name: v}; a null value matches nothing. *)
Definition has_name (v : pyval) (n : node) : bool :=
  match v with
  | PyNone => false
  | _ => bool_decide (props n !! "name" = Some v)
  end.

(** A statement with its parameters bound: an upsert of the nodes with a
    label and a name, or a link between the nodes with two names. *)
Record upsert := mk_upsert {
  up_label : string;
  up_name : pyval;
  up_props : list (string * pyval)
}.

Record link := mk_link {
  ln_type : string;
  ln_source : pyval;
  ln_target : pyval
}.

Inductive bound :=
| Upsert (u : upsert)
| Link (l : link).

(** The map literal {k: $k, ...} under the parameters; [None] when a
    parameter is missing. *)
Fixpoint bind_keys (keys : list string) (params : pydict)
  : option (list (string * pyval)) :=
  match keys with
  | [] => Some []
  | k :: keys' =>
      match dict_get k params, bind_keys keys' params with
      | Some v, Some kvs => Some ((k, v) :: kvs)
      | _, _ => None
      end
  end.

(** Binding the parameters of a statement; [None] when the database rejects
    it (a missing parameter, MERGE on a null property). *)
Definition bind_parameters (q : query) : option bound :=
  match fst q with
  | MergeSet label keys =>
      match dict_get "name" (snd q), bind_keys keys (snd q) with
      | Some PyNone, _ => None
      | Some v, Some kvs => Some (Upsert (mk_upsert label v kvs))
      | _, _ => None
      end
  | MatchMerge rtype =>
      match dict_get "source" (snd q), dict_get "target" (snd q) with
      | Some s, Some t => Some (Link (mk_link rtype s t))
      | _, _ => None
      end
  end.

(** The pattern (e:L {name: v}). *)
Definition node_matches (u : upsert) (n : node) : bool :=
  bool_decide (up_label u ∈ labels n) && has_name (up_name u) n.

(** SET e += {...}: each pair overwrites the property, null removes it. *)
Definition set_property (m : gmap string pyval) (kv : string * pyval)
  : gmap string pyval :=
  match snd kv with
  | PyNone => delete (fst kv) m
  | v => <[fst kv := v]> m
  end.

Definition set_properties (kvs : list (string * pyval)) (n : node) : node :=
  mk_node (labels n) (fold_left set_property kvs (props n)).

(** MERGE: the nodes as they are when one matches, else with a new node
    holding the label and the name. *)
Definition merge_node (u : upsert) (ns : list node) : list node :=
  if existsb (node_matches u) ns then ns
  else ns ++ [mk_node [up_label u] {[ "name" := up_name u ]}].

(** What the upsert does to one node. *)
Definition touch (u : upsert) (n : node) : node :=
  if node_matches u n then set_properties (up_props u) n else n.

Definition upsert_nodes (u : upsert) (ns : list node) : list node :=
  map (touch u) (merge_node u ns).

Definition matching_ids (v : pyval) (ns : list node) : list nat :=
  map fst (List.filter (fun p => has_name v (snd p)) (imap pair ns)).

(** The pairs bound by MATCH (s {name: ..}), (t {name: ..}), as edges. *)
Definition edge_rows (l : link) (ns : list node) : list edge :=
  i ← matching_ids (ln_source l) ns;
  j ← matching_ids (ln_target l) ns;
  [mk_edge (ln_type l) i j].

Definition merge_edge (es : list edge) (e : edge) : list edge :=
  if bool_decide (e ∈ es) then es else es ++ [e].

Definition link_edges (l : link) (ns : list node) (es : list edge)
  : list edge :=
  fold_left merge_edge (edge_rows l ns) es.

Definition execute (b : bound) (g : graph) : graph :=
  match b with
  | Upsert u => mk_graph (upsert_nodes u (nodes g)) (edges g)
  | Link l => mk_graph (nodes g) (link_edges l (nodes g) (edges g))
  end.

(** One statement; [None] when the database rejects it. *)
Definition run_cypher (q : query) (g : graph) : option graph :=
  match bind_parameters q with
  | Some b => Some (execute b g)
  | None => None
  end.

Fixpoint run_all (queries : list query) (g : graph) : option graph :=
  match queries with
  | [] => Some g
  | q :: queries' =>
      match run_cypher q g with
      | Some g' => run_all queries' g'
      | None => None
      end
  end.

(** ** [database/neo4j_client.py] *)

(** What [execute_batch_write] hands to [async with].
    [session.begin_transaction] of the asynchronous driver is a coroutine
    function: awaited, it gives the transaction; called without [await], as
    [execute_batch_write] calls it, it gives a coroutine object. *)
Inductive context_object :=
| Transaction (g : graph)
| Coroutine (g : graph).

Definition begin_transaction (g : graph) : context_object := Coroutine g.

(** [async with cm as tx: body].  A coroutine object is no asynchronous
    context manager: entering the block raises [TypeError] before the body
    runs.  [None] stands for the exception. *)
Definition async_with {A : Type} (cm : context_object)
    (body : graph -> option A) : option A :=
  match cm with
  | Transaction tx => body tx
  | Coroutine _ => None
  end.

(** [execute_batch_write]: the statements are to run in one transaction and
    to be committed together.  Every exception is turned into
    [Neo4jConnectionError]: [None], the graph being left as it was. *)
Definition execute_batch_write (queries : list query) (g : graph)
  : option nat * graph :=
  match async_with (begin_transaction g) (run_all queries) with
  | Some g' => (Some (length queries), g')
  | None => (None, g)
  end.

(** ** [agents/indexer/repository.py] *)

Definition endswith (suffix s : string) : bool :=
  let n := String.length s in
  let k := String.length suffix in
  (k <=? n)%nat && String.eqb (substring (n - k) k s) suffix.

(** [get_module_path].  [relative_parts] is
    [file_path.relative_to(self.clone_path).parts], [None] when the file is
    not below the clone path; the result is [None] when the method raises. *)
Definition get_module_path (relative_parts : option (list string))
  : option string :=
  match relative_parts with
  | None => None
  | Some parts =>
      match last parts with
      | None => None
      | Some final =>
          let final :=
            if endswith ".py" final
            then substring 0 (String.length final - 3) final
            else final in
          let parts := removelast parts ++ [final] in
          let parts :=
            if String.eqb final "__init__" then removelast parts else parts in
          Some (join "." parts)
      end
  end.

(** ** [agents/indexer/tools.py] *)

(** What leaves an awaited call that does not return: an exception, kept
    by its message, or [asyncio.CancelledError] when the task is cancelled
    while the call waits.  [CancelledError] is a [BaseException]: it passes
    through every [except Exception]. *)
Inductive raised :=
| Error (message : string)
| CancelledError.

(** A discovered file: its path, what the path is relative to the clone
    path, what reading and [ast.parse] give for it, and whether the task is
    cancelled at the first [await] that [index_file] reaches for it. *)
Record py_file := mk_py_file {
  path_of : string;
  relative_parts_of : option (list string);
  tree_of : option Module_ast;
  cancelled_while_indexed : bool
}.

(** [f"{v}"] of a value placed in a query text. *)
Definition py_format (v : pyval) : string :=
  match v with
  | PyStr s => s
  | PyInt n => pretty n
  | PyBool true => "True"
  | PyBool false => "False"
  | PyNone => "None"
  | PyList l => "[" +:+ join ", " (map (fun s => "'" +:+ s +:+ "'") l) +:+ "]"
  end.

(** The statement built for one entity; [None] for [KeyError]. *)
Definition entity_query (entity : EntityInfo) : option query :=
  let entity_dict := EntityInfo_to_dict entity in
  match dict_pop "entity_type" entity_dict with
  | None => None
  | Some (entity_type, entity_dict) =>
      match dict_pop "name" entity_dict with
      | None => None
      | Some (name, entity_dict) =>
          Some (MergeSet (py_format entity_type) (dict_keys entity_dict),
                dict_update [("name", name)] entity_dict)
      end
  end.

(** The statement built for one relationship. *)
Definition relationship_query (rel : RelationshipInfo) : option query :=
  let rel_dict := RelationshipInfo_to_dict rel in
  match dict_pop "rel_type" rel_dict with
  | None => None
  | Some (rel_type, rel_dict) =>
      match dict_pop "source" rel_dict with
      | None => None
      | Some (source, rel_dict) =>
          match dict_pop "target" rel_dict with
          | None => None
          | Some (target, rel_dict) =>
              Some (MatchMerge (py_format rel_type),
                    dict_update [("source", source); ("target", target)]
                      rel_dict)
          end
      end
  end.

Fixpoint collect {A B : Type} (f : A -> option B) (l : list A)
  : option (list B) :=
  match l with
  | [] => Some []
  | x :: l' =>
      match f x, collect f l' with
      | Some y, Some ys => Some (y :: ys)
      | _, _ => None
      end
  end.

(** The list [queries] of [index_file]: entity statements, then
    relationship statements. *)
Definition build_queries (entities : list EntityInfo)
    (relationships : list RelationshipInfo) : option (list query) :=
  match collect entity_query entities,
        collect relationship_query relationships with
  | Some eqs, Some rqs => Some (eqs ++ rqs)
  | _, _ => None
  end.

(** What [index_file] returns on success. *)
Record index_file_result := mk_index_file_result {
  result_file_path : string;
  result_module_path : string;
  entities_count : nat;
  relationships_count : nat
}.

Section IndexerTools.

Variable cleandoc : string -> string.
Variable unparse : expr -> option string.
Variable recursion_limit : nat.

(** The extraction of one file: module path, entities, relationships. *)
Definition extract (file : py_file)
  : option (string * list EntityInfo * list RelationshipInfo) :=
  match get_module_path (relative_parts_of file) with
  | None => None
  | Some module_path =>
      match parse_file cleandoc unparse recursion_limit
              (path_of file) module_path
              (tree_of file) with
      | None => None
      | Some (entities, relationships) =>
          Some (module_path, entities, relationships)
      end
  end.

(** How [index_file] ends when it does not raise [IndexerError]: it
    returns its dictionary, or the cancellation of the task passes through
    it. *)
Inductive index_file_end :=
| Indexed (result : index_file_result)
| Cancelled.

(** [index_file].  [client_ok] tells whether [get_neo4j_client] returns a
    client.  Every exception is turned into [IndexerError]: [None].  The
    module path and the parser are not awaited; the first [await] is that
    of the client. *)
Definition index_file (client_ok : bool) (file : py_file) (g : graph)
  : option index_file_end * graph :=
  match extract file with
  | None => (None, g)
  | Some (module_path, entities, relationships) =>
      if cancelled_while_indexed file then (Some Cancelled, g) else
      if negb client_ok then (None, g) else
      match build_queries entities relationships with
      | None => (None, g)
      | Some queries =>
          let written :=
            match queries with
            | [] => (Some O, g)
            | _ => execute_batch_write queries g
            end in
          match fst written with
          | None => (None, g)
          | Some _ =>
              (Some (Indexed
                       (mk_index_file_result (path_of file) module_path
                          (length entities) (length relationships))),
               snd written)
          end
      end
  end.

Record IndexingJob := mk_IndexingJob {
  job_id : string;
  status : IndexJobStatus;
  started_at : Z;
  completed_at : option Z;
  files_processed : Z;
  total_files : Z;
  error : option string
}.

(** What a run of [index_repository] meets outside the program: the job id
    and the two clock readings, what cloning and discovery give (the files,
    or what is raised) and what [get_neo4j_client] raises, if anything. *)
Record job_env := mk_job_env {
  new_job_id : string;
  start_time : Z;
  end_time : Z;
  discovery : raised + list py_file;
  connect : option raised
}.

Definition set_files_processed (n : Z) (j : IndexingJob) : IndexingJob :=
  mk_IndexingJob (job_id j) (status j) (started_at j) (completed_at j) n
    (total_files j) (error j).

(** The loop over [enumerate(python_files)]: a file whose [index_file]
    raises [IndexerError] is logged and the loop goes on; a cancellation
    leaves the loop where it is.  The boolean tells whether the loop ran to
    its end. *)
Fixpoint index_each (files : list (Z * py_file)) (job : IndexingJob)
    (g : graph) : bool * IndexingJob * graph :=
  match files with
  | [] => (true, job, g)
  | (i, file) :: files' =>
      match index_file true file g with
      | (Some (Indexed _), g') =>
          index_each files' (set_files_processed (i + 1) job) g'
      | (Some Cancelled, g') => (false, job, g')
      | (None, g') => index_each files' job g'
      end
  end.

(** What [index_repository] returns on success. *)
Record index_repository_result := mk_index_repository_result {
  result_job_id : string;
  result_files_processed : Z;
  result_total_files : Z
}.

(** The handler of [index_repository]: the job is marked failed and
    [IndexerError] is raised with the message of the exception. *)
Definition job_failed (env : job_env) (job : IndexingJob) (msg : string)
    (g : graph) : (raised + index_repository_result) * IndexingJob * graph :=
  (inl (Error ("Repository indexing failed: " +:+ msg)),
   mk_IndexingJob (job_id job) FAILED (started_at job)
     (Some (end_time env)) (files_processed job) (total_files job)
     (Some msg),
   g).

(** [index_repository]: the returned dictionary ([inl] what is raised:
    [IndexerError] with its message, or the cancellation),
    [self.current_job] and the graph afterwards.  The handler is an
    [except Exception]: a cancellation at one of the three awaits passes
    through it and leaves the job as it is at that point. *)
Definition index_repository (env : job_env) (g : graph)
  : (raised + index_repository_result) * IndexingJob * graph :=
  let job :=
    mk_IndexingJob (new_job_id env) IN_PROGRESS (start_time env) None 0 0
      None in
  match discovery env with
  | inl (Error msg) => job_failed env job msg g
  | inl CancelledError => (inl CancelledError, job, g)
  | inr python_files =>
      let job :=
        mk_IndexingJob (job_id job) (status job) (started_at job)
          (completed_at job) (files_processed job)
          (Z.of_nat (length python_files)) (error job) in
      match connect env with
      | Some (Error msg) => job_failed env job msg g
      | Some CancelledError => (inl CancelledError, job, g)
      | None =>
          match index_each (enumerate python_files) job g with
          | (false, job, g') => (inl CancelledError, job, g')
          | (true, job, g') =>
              let job :=
                mk_IndexingJob (job_id job) COMPLETED (started_at job)
                  (Some (end_time env)) (files_processed job)
                  (total_files job) (error job) in
              (inr (mk_index_repository_result (job_id job)
                      (files_processed job) (total_files job)),
               job, g')
          end
      end
  end.

End IndexerTools.

(** ** [agents/graph_query/queries.py] *)

(** Elsewhere a string is a sequence of characters.  Here, where the
    characters outside ASCII decide what [validate_query] answers, a query,
    a Python [str], is held by its UTF-8 encoding: a character of ASCII is
    one byte below 128, any other character two to four bytes from 128 on.

    [str.upper] maps every character by itself to its upper case as the
    Unicode character database gives it, which can be several characters.
    [upper_ascii] is that mapping on ASCII: the letters a to z. *)
Definition is_ascii (c : ascii) : bool := (nat_of_ascii c <? 128)%nat.

Definition upper_ascii (c : ascii) : ascii :=
  let n := nat_of_ascii c in
  if (97 <=? n)%nat && (n <=? 122)%nat then ascii_of_nat (n - 32) else c.

Definition encoded (bytes : list nat) : string :=
  fold_right (fun n s => String (ascii_of_nat n) s) EmptyString bytes.

(** The characters outside ASCII whose upper case holds an ASCII
    character, with that upper case: the sharp s, the dotless i, the n with
    apostrophe, the long s, the j with caron, U+1E96 to U+1E9A and the
    ligatures U+FB00 to U+FB06. *)
Definition upper_special : list (string * string) :=
  [(encoded [195; 159], "SS");
   (encoded [196; 177], "I");
   (encoded [197; 137], encoded [202; 188; 78]);
   (encoded [197; 191], "S");
   (encoded [199; 176], encoded [74; 204; 140]);
   (encoded [225; 186; 150], encoded [72; 204; 177]);
   (encoded [225; 186; 151], encoded [84; 204; 136]);
   (encoded [225; 186; 152], encoded [87; 204; 138]);
   (encoded [225; 186; 153], encoded [89; 204; 138]);
   (encoded [225; 186; 154], encoded [65; 202; 190]);
   (encoded [239; 172; 128], "FF");
   (encoded [239; 172; 129], "FI");
   (encoded [239; 172; 130], "FL");
   (encoded [239; 172; 131], "FFI");
   (encoded [239; 172; 132], "FFL");
   (encoded [239; 172; 133], "ST");
   (encoded [239; 172; 134], "ST")].

Definition upper_of_special (character : string) : option string :=
  option_map snd
    (List.find (fun entry => String.eqb (fst entry) character) upper_special).

(** [str.upper] as far as ASCII goes.  An ASCII character is mapped by
    [upper_ascii] and a character of [upper_special] to the upper case
    listed there.  The upper case of every other character holds no ASCII
    character; its bytes are kept as they are, which leaves the places
    where a string of ASCII characters occurs in the result as
    [str.upper] has them. *)
Fixpoint upper (s : string) : string :=
  match s with
  | EmptyString => EmptyString
  | String c1 s1 =>
      if is_ascii c1 then String (upper_ascii c1) (upper s1)
      else
        match s1 with
        | EmptyString => String c1 EmptyString
        | String c2 s2 =>
            match upper_of_special (String c1 (String c2 EmptyString)) with
            | Some up => up +:+ upper s2
            | None =>
                match s2 with
                | EmptyString => String c1 (upper s1)
                | String c3 s3 =>
                    match
                      upper_of_special
                        (String c1 (String c2 (String c3 EmptyString)))
                    with
                    | Some up => up +:+ upper s3
                    | None => String c1 (upper s1)
                    end
                end
            end
        end
  end.

(** [needle in haystack] on strings. *)
Fixpoint contains (needle haystack : string) : bool :=
  String.prefix needle haystack
  || match haystack with
     | EmptyString => false
     | String _ rest => contains needle rest
     end.

Definition dangerous_keywords : list string :=
  ["DELETE"; "DETACH DELETE"; "REMOVE"; "SET"; "CREATE CONSTRAINT"; "DROP"].

(** The loop of [validate_query] returns [False] at the first keyword found
    in the upper-cased query and [True] when there is none. *)
Definition validate_query (query : string) : bool :=
  let query_upper := upper query in
  negb (existsb (fun keyword => contains keyword query_upper)
          dangerous_keywords).

(** ** [agents/graph_query/tools.py] *)

(** The calls [execute_query] makes on the database, in order. *)
Inductive db_call :=
| GetClient
| ExecuteRead (cypher_query : string).

(** The database as [execute_query] meets it: whether a client can be had
    (an error message when not) and what [execute_read] gives for a query
    (an error message when it raises). *)
Record database := mk_database {
  db_connect : option string;
  db_read : string -> string + list pydict
}.

(** [utils.helpers.parse_cypher_result] on records of plain values. *)
Definition parse_cypher_result (result : list pydict) : list pydict :=
  map (fun record => fold_left (fun parsed kv => dict_set (fst kv) (snd kv) parsed)
                       record [])
    result.

Record query_result := mk_query_result {
  result_query : string;
  results : list pydict;
  count : nat
}.

(** [execute_query]: the returned dictionary, [inl] the message of the
    [GraphQueryError] raised, and the database calls made. *)
Definition execute_query (db : database) (cypher_query : string)
  : (string + query_result) * list db_call :=
  if negb (validate_query cypher_query)
  then (inl ("Query execution failed: "
             +:+ "[GraphQuery] Query contains dangerous operations"), [])
  else
    match db_connect db with
    | Some msg => (inl ("Query execution failed: " +:+ msg), [GetClient])
    | None =>
        match db_read db cypher_query with
        | inl msg =>
            (inl ("Query execution failed: " +:+ msg),
             [GetClient; ExecuteRead cypher_query])
        | inr result =>
            (inr (mk_query_result cypher_query (parse_cypher_result result)
                    (length result)),
             [GetClient; ExecuteRead cypher_query])
        end
    end.

(** ** Notions used to state the properties *)

Definition is_entity_type (t : EntityType) (e : EntityInfo) : bool :=
  bool_decide (entity_type e = t).

Definition is_rel_type (t : RelationshipType) (r : RelationshipInfo) : bool :=
  bool_decide (rel_type r = t).

Definition entities_of (t : EntityType) (l : list EntityInfo)
  : list EntityInfo :=
  List.filter (is_entity_type t) l.

Definition relationships_of (t : RelationshipType)
    (l : list RelationshipInfo) : list RelationshipInfo :=
  List.filter (is_rel_type t) l.

(** The endpoints of a relationship as a pair. *)
Definition endpoints (r : RelationshipInfo) : string * string :=
  (source r, target r).

(** *** The shape of what the parser appends

    Parameters, decorators and docstrings are appended as one entity with
    one relationship from their owner. *)
Inductive aux_emission : emitted -> Prop :=
| aux_nil : aux_emission ([], [])
| aux_app e1 r1 e2 r2 :
    aux_emission (e1, r1) -> aux_emission (e2, r2) ->
    aux_emission (e1 ++ e2, r1 ++ r2)
| aux_parameter (owner aname : string) (lineno : Z) (ta : pyval)
    (position : Z) :
    aux_emission
      ([mk_EntityInfo PARAMETER (owner +:+ ".param." +:+ aname) lineno
          [("name", PyStr aname); ("type_annotation", ta);
           ("position", PyInt position)]],
       [mk_RelationshipInfo HAS_PARAMETER owner
          (owner +:+ ".param." +:+ aname) []])
| aux_decorator (owner d : string) :
    aux_emission
      ([mk_EntityInfo DECORATOR (owner +:+ ".decorator." +:+ d) 0
          [("name", PyStr d)]],
       [mk_RelationshipInfo DECORATED_BY owner d []])
| aux_docstring (owner content : string) (lineno : Z) :
    aux_emission
      ([mk_EntityInfo DOCSTRING (owner +:+ ".docstring") lineno
          [("content", PyStr content)]],
       [mk_RelationshipInfo DOCUMENTED_BY owner (owner +:+ ".docstring") []]).

(** A class, function or method entity: its id is [id], and its properties
    carry its local name under the key name. *)
Definition definition_entity (t : EntityType) (id local : string)
    (e : EntityInfo) : Prop :=
  entity_type e = t /\ name e = id /\
  exists rest,
    properties e = ("name", PyStr local) :: rest /\
    ("name" ∉ dict_keys rest) /\ ("entity_type" ∉ dict_keys rest).

(** What one function definition appends: its entity, the CONTAINS edge from
    [parent], then parameters, decorators and docstring. *)
Inductive definition_emission (t : EntityType) (parent local : string)
  : emitted -> Prop :=
| def_emission e aux_e aux_r :
    definition_entity t (parent +:+ "." +:+ local) local e ->
    aux_emission (aux_e, aux_r) ->
    definition_emission t parent local
      (e :: aux_e,
       mk_RelationshipInfo CONTAINS parent (parent +:+ "." +:+ local) []
       :: aux_r).

(** What the function definitions of a class body append, one after the
    other; the list gives their names. *)
Inductive members_emission (class_name : string)
  : list string -> emitted -> Prop :=
| mem_nil : members_emission class_name [] ([], [])
| mem_cons fname fnames e1 r1 e2 r2 :
    definition_emission METHOD class_name fname (e1, r1) ->
    members_emission class_name fnames (e2, r2) ->
    members_emission class_name (fname :: fnames) (e1 ++ e2, r1 ++ r2).

Definition function_name (s : stmt) : option string :=
  match s with
  | FunctionDef fname _ _ _ _ | AsyncFunctionDef fname _ _ _ _ => Some fname
  | _ => None
  end.

(** The names of the function definitions standing directly in a body. *)
Definition method_names (body : list stmt) : list string :=
  omap function_name body.

(** The name [_get_name_from_node] returns for a node when it returns. *)
Fixpoint node_name (unparse : expr -> option string) (node : expr)
  : option string :=
  match node with
  | Name id => Some id
  | Attribute _ _ => unparse node
  | Call func _ => node_name unparse func
  | _ => None
  end.

(** The names of the bases that get an INHERITS_FROM edge: those the parser
    can name, other than the empty name and the sentinel ABC. *)
Definition inherited_names (unparse : expr -> option string)
    (bases : list expr) : list string :=
  List.filter (fun b => truthy b && negb (String.eqb b "ABC"))
    (omap (node_name unparse) bases).

Definition inherits_from (unparse : expr -> option string)
    (class_name : string) (bases : list expr) : list RelationshipInfo :=
  map (fun b => mk_RelationshipInfo INHERITS_FROM class_name b [])
    (inherited_names unparse bases).

(** What [_parse_class] appends for one class definition. *)
Inductive class_emission (unparse : expr -> option string)
    (module_path cname : string) (bases : list expr) (body : list stmt)
  : emitted -> Prop :=
| cls_emission e a1e a1r me mr a2e a2r :
    definition_entity CLASS (module_path +:+ "." +:+ cname) cname e ->
    dict_get "is_abstract" (properties e)
    = Some (PyBool (existsb is_ABC bases)) ->
    aux_emission (a1e, a1r) ->
    members_emission (module_path +:+ "." +:+ cname) (method_names body)
      (me, mr) ->
    aux_emission (a2e, a2r) ->
    class_emission unparse module_path cname bases body
      (e :: a1e ++ me ++ a2e,
       mk_RelationshipInfo CONTAINS module_path
         (module_path +:+ "." +:+ cname) []
       :: inherits_from unparse (module_path +:+ "." +:+ cname) bases
       ++ a1r ++ mr ++ a2r).

(** *** Occurrence of a keyword in any letter case *)

(** [u] is an upper-case letter A to Z and [l] the same letter in lower
    case. *)
Definition letter_pair (u l : ascii) : Prop :=
  (65 <= nat_of_ascii u <= 90)%nat /\
  nat_of_ascii l = (nat_of_ascii u + 32)%nat.

Definition same_letter (c d : ascii) : Prop :=
  c = d \/ letter_pair c d \/ letter_pair d c.

Inductive same_ignoring_case : string -> string -> Prop :=
| sic_empty : same_ignoring_case EmptyString EmptyString
| sic_char c d s t :
    same_letter c d -> same_ignoring_case s t ->
    same_ignoring_case (String c s) (String d t).

(** The query holds the keyword somewhere, each letter in either case. *)
Definition occurs_in_any_case (keyword query : string) : Prop :=
  exists pre v post,
    query = pre +:+ v +:+ post /\ same_ignoring_case v keyword.

(** The mutation keywords of the specification. *)
Definition mutation_keywords : list string :=
  ["DELETE"; "REMOVE"; "SET"; "DROP"; "CREATE CONSTRAINT"].

Definition mentions_mutation (query : string) : Prop :=
  exists keyword,
    keyword ∈ mutation_keywords /\ occurs_in_any_case keyword query.

(** *** A job over five files *)

(** A file holding an empty module, and a file that does not parse. *)
Definition good_file (stem : string) : py_file :=
  mk_py_file ("/repo/" +:+ stem +:+ ".py") (Some [stem +:+ ".py"])
    (Some (mk_Module [])) false.

Definition broken_file (stem : string) : py_file :=
  mk_py_file ("/repo/" +:+ stem +:+ ".py") (Some [stem +:+ ".py"]) None
    false.





(** *** Notions for the persistence proofs *)

(** The value a list of assignments leaves under a key: that of the last
    pair with this key. *)
Fixpoint last_value (k : string) (kvs : list (string * pyval))
  : option pyval :=
  match kvs with
  | [] => None
  | (k', v) :: kvs' =>
      match last_value k kvs' with
      | Some w => Some w
      | None => if String.eqb k' k then Some v else None
      end
  end.

(** A stored property value: null stores nothing. *)
Definition stored (v : pyval) : option pyval :=
  match v with
  | PyNone => None
  | _ => Some v
  end.

(** An upsert as [index_file] builds them: the name it merges on is not
    null, and it does not assign the name property. *)
Definition keyed_upsert (u : upsert) : Prop :=
  up_name u <> PyNone /\ "name" ∉ map fst (up_props u).

Definition run_upserts (us : list upsert) (ns : list node) : list node :=
  fold_left (fun ns u => upsert_nodes u ns) us ns.

Definition touch_all (us : list upsert) (n : node) : node :=
  fold_left (fun n u => touch u n) us n.

Definition run_links (ls : list link) (ns : list node) (es : list edge)
  : list edge :=
  fold_left (fun es l => link_edges l ns es) ls es.

Definition execute_all (bs : list bound) (g : graph) : graph :=
  fold_left (fun g b => execute b g) bs g.

(** Two nodes with the same labels and the same name are matched by the
    same patterns. *)
Definition same_key (n n' : node) : Prop :=
  labels n = labels n' /\ props n !! "name" = props n' !! "name".

(** Everything [parse_file] appends for a module: sequences of the module
    entity, definitions with their CONTAINS edge, INHERITS_FROM edges,
    imports, and the parameters, decorators and docstrings above. *)
Inductive emission (module_path : string) : emitted -> Prop :=
| em_nil : emission module_path ([], [])
| em_app e1 r1 e2 r2 :
    emission module_path (e1, r1) -> emission module_path (e2, r2) ->
    emission module_path (e1 ++ e2, r1 ++ r2)
| em_aux o : aux_emission o -> emission module_path o
| em_module (file_path docstring : string) :
    emission module_path
      ([mk_EntityInfo MODULE module_path 1
          [("path", PyStr module_path); ("file_path", PyStr file_path);
           ("docstring", PyStr docstring)]],
       [])
| em_definition t parent local e :
    definition_entity t (parent +:+ "." +:+ local) local e ->
    (t = CLASS /\ parent = module_path) \/
    (t = FUNCTION /\ parent = module_path) \/
    (t = METHOD /\ exists cname, parent = module_path +:+ "." +:+ cname) ->
    emission module_path
      ([e],
       [mk_RelationshipInfo CONTAINS parent (parent +:+ "." +:+ local) []])
| em_inherits cname base :
    emission module_path
      ([],
       [mk_RelationshipInfo INHERITS_FROM (module_path +:+ "." +:+ cname)
          base []])
| em_import (module : string) (imported : list string) (from : bool)
    (lineno : Z) (linked : bool) :
    emission module_path
      ([mk_EntityInfo IMPORT (module_path +:+ ".import." +:+ module) lineno
          [("module_name", PyStr module);
           ("imported_names", PyList imported);
           ("is_from_import", PyBool from)]],
       if linked
       then [mk_RelationshipInfo IMPORTS module_path module []]
       else []).

(** *** Endpoints of a relationship in the graph *)

(** The nodes whose name property is the given string. *)
Definition named (s : string) (g : graph) : list nat :=
  matching_ids (PyStr s) (nodes g).

(** An edge of the graph for a relationship: same type, between a node
    named like its source and a node named like its target. *)
Definition edge_for (r : RelationshipInfo) (g : graph) (e : edge) : Prop :=
  edge_type e = RelationshipType_value (rel_type r) /\
  edge_src e ∈ named (source r) g /\ edge_dst e ∈ named (target r) g.

(** The statement [index_file] builds for a relationship without
    properties, as the parser makes them all. *)
Definition link_statement (r : RelationshipInfo) : query :=
  (MatchMerge (RelationshipType_value (rel_type r)),
   [("source", PyStr (source r)); ("target", PyStr (target r))]).

(** A module m whose only statement is the import of os. *)
Definition import_os_file : py_file :=
  mk_py_file "/repo/m.py" (Some ["m.py"])
    (Some (mk_Module [Import [mk_alias "os" None] 1])) false.

(** *** Decorators *)

(** A module m that imports a module spelled m.f.decorator.x and defines a
    function f decorated with x. *)
Definition decorator_spelled_import : Module_ast :=
  mk_Module
    [Import [mk_alias "m.f.decorator.x" None] 1;
     FunctionDef "f" [] [OtherNode []] [Name "x"] 4].

(** In what is appended for parameters, decorators and docstrings, every
    DECORATED_BY edge comes with the Decorator entity of its owner and bare
    name, and every DOCUMENTED_BY edge with the Docstring entity it
    targets. *)
Definition decorators_paired (o : emitted) : Prop :=
  (forall r, r ∈ snd o -> rel_type r = DECORATED_BY ->
     exists e, e ∈ fst o /\ entity_type e = DECORATOR /\
               name e = source r +:+ ".decorator." +:+ target r /\
               properties e = [("name", PyStr (target r))]) /\
  (forall e, e ∈ fst o -> entity_type e = DECORATOR ->
     exists r, r ∈ snd o /\ rel_type r = DECORATED_BY /\
               name e = source r +:+ ".decorator." +:+ target r) /\
  (forall r, r ∈ snd o -> rel_type r = DOCUMENTED_BY ->
     target r = source r +:+ ".docstring" /\
     exists e, e ∈ fst o /\ entity_type e = DOCSTRING /\ name e = target r).

(** *** The key an entity is merged under *)

(** The label and the name of the MERGE pattern [index_file] builds for an
    entity. *)
Definition merge_key (e : EntityInfo) : option (string * pyval) :=
  match entity_query e with
  | Some (MergeSet label _, params) =>
      match dict_get "name" params with
      | Some v => Some (label, v)
      | None => None
      end
  | _ => None
  end.

(** The entity kinds whose properties carry no name of their own. *)
Definition id_keyed (t : EntityType) : Prop :=
  t = MODULE \/ t = IMPORT \/ t = DOCSTRING.

(** A module m with two classes A and B that both define a method run, a
    class Foo at module level, and another class Foo inside class Outer. *)
Definition colliding_names : Module_ast :=
  mk_Module
    [ClassDef "A" [] [FunctionDef "run" [] [OtherNode []] [] 2] [] 1;
     ClassDef "B" [] [FunctionDef "run" [] [OtherNode []] [] 4] [] 3;
     ClassDef "Foo" [] [OtherNode []] [] 5;
     ClassDef "Outer" [] [ClassDef "Foo" [] [OtherNode []] [] 8] [] 7].

(** *** All the nodes of a tree, and what contains what *)

(** The nodes below a node, depth first, each with its position. *)
Fixpoint descendants_at (p : node_id) (s : stmt) {struct s} : list located :=
  let below :=
    fix below (i : nat) (l : list stmt) {struct l} : list located :=
      match l with
      | [] => []
      | c :: l' =>
          ((p ++ [i], c) :: descendants_at (p ++ [i]) c) ++ below (S i) l'
      end in
  match s with
  | ClassDef _ _ body _ _ => below 0%nat body
  | FunctionDef _ _ body _ _ => below 0%nat body
  | AsyncFunctionDef _ _ body _ _ => below 0%nat body
  | OtherNode children => below 0%nat children
  | Import _ _ | ImportFrom _ _ _ | Expr _ => []
  end.

Definition closure (n : located) : list located :=
  n :: descendants_at (fst n) (snd n).

(** Every statement node of the module, each once. *)
Definition all_nodes (tree : Module_ast) : list located :=
  flat_map closure (locate_children [] (mod_body tree)).

(** The ids of the functions defined directly in the body of a class
    definition; nothing for a node of another kind. *)
Definition class_method_ids (module_path : string) (n : located)
  : list string :=
  match snd n with
  | ClassDef cname _ body _ _ =>
      map (fun f => (module_path +:+ "." +:+ cname) +:+ "." +:+ f)
        (method_names body)
  | _ => []
  end.

(** The ids of the functions defined directly in the module body. *)
Definition module_function_ids (module_path : string) (tree : Module_ast)
  : list string :=
  map (fun f => module_path +:+ "." +:+ f) (method_names (mod_body tree)).

(** The function ids a visit of the loop appends as Function entities. *)
Definition visited_function_ids (module_path : string) (tree : Module_ast)
    (n : located) : list string :=
  if _is_top_level n tree
  then match function_name (snd n) with
       | Some f => [module_path +:+ "." +:+ f]
       | None => []
       end
  else [].

Definition is_definition (e : EntityInfo) : bool :=
  is_entity_type CLASS e || is_entity_type FUNCTION e
  || is_entity_type METHOD e.

(** The CONTAINS edge [r] is the one of the definition [e]: it targets the
    id of [e], which is the source, a dot and a local name; the source is
    the module for a class or a function and a class id for a method. *)
Definition contains_edge_of (module_path : string) (e : EntityInfo)
    (r : RelationshipInfo) : Prop :=
  target r = name e /\
  (exists local, name e = source r +:+ "." +:+ local) /\
  (entity_type e = METHOD ->
   exists cname, source r = module_path +:+ "." +:+ cname) /\
  (entity_type e <> METHOD -> source r = module_path).

(** A module with an import, a decorated function and nothing else. *)
Definition import_and_decorator : Module_ast :=
  mk_Module
    [Import [mk_alias "os" None] 1;
     FunctionDef "f" [mk_arg "x" None 3] [OtherNode []] [Name "cache"] 3].

(** In an extraction, Module, Import and Docstring entities hold no name
    property, and every Class entity is a definition whose id is the module
    path and its class name. *)
Definition keys_as_designed (module_path : string) (e : EntityInfo) : Prop :=
  (id_keyed (entity_type e) ->
   ("name" ∉ dict_keys (properties e)) /\
   ("entity_type" ∉ dict_keys (properties e))) /\
  (entity_type e = CLASS ->
   exists cname,
     definition_entity CLASS (module_path +:+ "." +:+ cname) cname e).

(** *** Jobs with failing files *)

(** A job over two files that do not parse followed by one that does, and
    a job over two files that do not parse. *)
Definition two_broken_then_good_env : job_env :=
  mk_job_env "idx_2" 100 200
    (inr ([broken_file "a"; broken_file "b"] ++ [good_file "c"])) None.

Definition two_broken_env : job_env :=
  mk_job_env "idx_3" 100 200 (inr [broken_file "a"; broken_file "b"]) None.

(** *** Dictionaries read key by key *)

(** The three keys [EntityInfo.to_dict] writes before the properties. *)
Definition entity_fields (e : EntityInfo) : pydict :=
  [("entity_type", PyStr (EntityType_value (entity_type e)));
   ("name", PyStr (name e));
   ("line_number", PyInt (line_number e))].

Definition relationship_fields (r : RelationshipInfo) : pydict :=
  [("rel_type", PyStr (RelationshipType_value (rel_type r)));
   ("source", PyStr (source r));
   ("target", PyStr (target r))].

(** [d.get(k)] falling back on [base.get(k)]. *)
Definition get_over (k : string) (d base : pydict) : option pyval :=
  match dict_get k d with
  | Some v => Some v
  | None => dict_get k base
  end.

(** A class entity whose properties carry a name of their own. *)
Definition class_entity_example : EntityInfo :=
  mk_EntityInfo CLASS "pkg.mod.Foo" 3
    [("name", PyStr "Foo"); ("module_path", PyStr "pkg.mod")].

(** *** What every appended entity looks like *)

(** Every entity a method of the parser appends satisfies [P]. *)
Definition appends (P : EntityInfo -> Prop) (s : parse_step) : Prop :=
  forall es rs, s = Some (es, rs) -> Forall P es.

(** The property keys the parser writes for each kind of entity, in the
    order of the dictionary literals of [parse_file], [_parse_class],
    [_parse_function], [_add_parameter], [_add_decorator], [_parse_import]
    and [_add_docstring]; no [File] entity is built anywhere. *)
Definition property_keys (t : EntityType) : list string :=
  match t with
  | MODULE => ["path"; "file_path"; "docstring"]
  | CLASS => ["name"; "module_path"; "docstring"; "is_abstract"]
  | FUNCTION => ["name"; "module_path"; "docstring"; "is_async"; "signature"]
  | METHOD =>
      ["name"; "module_path"; "docstring"; "is_async"; "signature";
       "is_static"; "is_classmethod"]
  | PARAMETER => ["name"; "type_annotation"; "position"]
  | DECORATOR => ["name"]
  | IMPORT => ["module_name"; "imported_names"; "is_from_import"]
  | DOCSTRING => ["content"]
  | FILE => []
  end.

Definition keyed_by_type (e : EntityInfo) : Prop :=
  dict_keys (properties e) = property_keys (entity_type e).

(** An entity of the loop over the tree: neither a module nor a file. *)
Definition below_module (e : EntityInfo) : Prop :=
  keyed_by_type e /\ entity_type e <> MODULE /\ entity_type e <> FILE.

(** The value of the name an entity is merged on: its name property when it
    has one, its qualified name otherwise. *)
Definition merge_name (e : EntityInfo) : pyval :=
  default (PyStr (name e)) (dict_get "name" (properties e)).

(** ** More of [agents/indexer/tools.py] and [database/neo4j_client.py] *)

Section IndexerReports.

Variable cleandoc : string -> string.
Variable unparse : expr -> option string.
Variable recursion_limit : nat.

(** [parse_python_ast].  The code is written to a temporary file whose
    name is [temp_file]; [tree] is what reading it back and [ast.parse]
    give; [module_path] is [None] when the argument is left out.  Every
    exception is turned into [IndexerError]: [None]. *)
Definition parse_python_ast (temp_file : string) (tree : option Module_ast)
    (module_path : option string) : option (list pydict * list pydict) :=
  let module_path := default "temp" module_path in
  match parse_file cleandoc unparse recursion_limit
          temp_file module_path tree with
  | None => None
  | Some (entities, relationships) =>
      Some (map EntityInfo_to_dict entities,
            map RelationshipInfo_to_dict relationships)
  end.

(** What [extract_entities] returns on success. *)
Record extract_entities_result := mk_extract_entities_result {
  extracted_file_path : string;
  extracted_module_path : string;
  extracted_entities : list pydict
}.

Definition extract_entities (file : py_file)
  : option extract_entities_result :=
  match get_module_path (relative_parts_of file) with
  | None => None
  | Some module_path =>
      match parse_file cleandoc unparse recursion_limit
              (path_of file) module_path
              (tree_of file) with
      | None => None
      | Some (entities, _) =>
          Some (mk_extract_entities_result (path_of file) module_path
                  (map EntityInfo_to_dict entities))
      end
  end.

End IndexerReports.

(** The database as the counting methods meet it.  The records of a
    counting query hold integers. *)
Definition count_record : Type := list (string * Z).

Record count_database := mk_count_database {
  cdb_connect : option string;
  cdb_read : string -> string + list count_record
}.

Fixpoint record_get (k : string) (record : count_record) : option Z :=
  match record with
  | [] => None
  | (k', v) :: record' =>
      if String.eqb k' k then Some v else record_get k record'
  end.

(** [Neo4jClient.count_nodes] and [count_relationships]: the text of the
    query, an empty label counting as none, and the count read from the
    first record, 0 when there is no record.  The result is [inl] the
    message of the exception raised: [execute_read] failing, or the first
    record holding no count. *)
Definition count_nodes_query (label : option string) : string :=
  match label with
  | Some l =>
      if truthy l then "MATCH (n:" +:+ l +:+ ") RETURN count(n) as count"
      else "MATCH (n) RETURN count(n) as count"
  | None => "MATCH (n) RETURN count(n) as count"
  end.

Definition count_relationships_query (rel_type : option string) : string :=
  match rel_type with
  | Some t =>
      if truthy t
      then "MATCH ()-[r:" +:+ t +:+ "]->() RETURN count(r) as count"
      else "MATCH ()-[r]->() RETURN count(r) as count"
  | None => "MATCH ()-[r]->() RETURN count(r) as count"
  end.

Definition first_count (result : list count_record) : string + Z :=
  match result with
  | [] => inr 0%Z
  | record :: _ =>
      match record_get "count" record with
      | Some v => inr v
      | None => inl "'count'"
      end
  end.

Definition count_nodes (db : count_database) (label : option string)
  : string + Z :=
  match cdb_read db (count_nodes_query label) with
  | inl msg => inl msg
  | inr result => first_count result
  end.

Definition count_relationships (db : count_database)
    (rel_type : option string) : string + Z :=
  match cdb_read db (count_relationships_query rel_type) with
  | inl msg => inl msg
  | inr result => first_count result
  end.

(** [core/models.py], [IndexStatus]. *)
Record IndexStatus := mk_IndexStatus {
  is_indexed : bool;
  last_indexed : option Z;
  total_entities : Z;
  total_relationships : Z;
  current_job : option IndexingJob
}.

(** [IndexerTools.get_index_status], given [self.current_job].  Every
    exception is turned into [IndexerError]: [inl] its message. *)
Definition get_index_status (db : count_database)
    (job : option IndexingJob) : string + IndexStatus :=
  let failed (msg : string) : string + IndexStatus :=
    inl ("Failed to get index status: " +:+ msg) in
  match cdb_connect db with
  | Some msg => failed msg
  | None =>
      match count_nodes db None with
      | inl msg => failed msg
      | inr total_entities =>
          match count_relationships db None with
          | inl msg => failed msg
          | inr total_relationships =>
              let is_indexed := (0 <? total_entities)%Z in
              inr (mk_IndexStatus is_indexed
                     (match job with
                      | Some j => completed_at j
                      | None => None
                      end)
                     total_entities total_relationships
                     (match job with
                      | Some j =>
                          if bool_decide (status j = IN_PROGRESS)
                          then Some j else None
                      | None => None
                      end))
          end
      end
  end.

(** The database holding the graph [g]: it answers the two counting
    queries of [get_index_status] with one record each, and gives no
    record for any other query. *)
Definition counting_database (g : graph) : count_database :=
  mk_count_database None
    (fun q =>
       if String.eqb q "MATCH (n) RETURN count(n) as count"
       then inr [[("count", Z.of_nat (length (nodes g)))]]
       else if String.eqb q "MATCH ()-[r]->() RETURN count(r) as count"
       then inr [[("count", Z.of_nat (length (edges g)))]]
       else inr []).

(** The dictionary keys of an entity of kind [t]: the three fixed keys,
    then the property keys other than name. *)
Definition entity_dict_keys (t : EntityType) : list string :=
  ["entity_type"; "name"; "line_number"]
  ++ List.filter (fun k => negb (String.eqb k "name")) (property_keys t).

(** What the dictionary [d] of the entity [e] holds. *)
Definition entity_dict (e : EntityInfo) (d : pydict) : Prop :=
  d = EntityInfo_to_dict e /\
  dict_keys d = entity_dict_keys (entity_type e) /\
  dict_get "entity_type" d = Some (PyStr (EntityType_value (entity_type e))) /\
  dict_get "line_number" d = Some (PyInt (line_number e)) /\
  dict_get "name" d = Some (merge_name e) /\
  (forall k v, dict_get k (properties e) = Some v -> dict_get k d = Some v).

(** The dictionary of a relationship without properties. *)
Definition relationship_dict (r : RelationshipInfo) (d : pydict) : Prop :=
  d = [("rel_type", PyStr (RelationshipType_value (rel_type r)));
       ("source", PyStr (source r)); ("target", PyStr (target r))].

(** ** More of [agents/graph_query/queries.py] *)

(** The line break of the triple-quoted query texts. *)
Definition nl : string := String "010"%char "".

(** Each builder returns the query text and its parameters.  The texts are
    those of the source, line by line, with their indentation; the blanks
    before the closing quotes make the last line. *)
Definition find_entity_by_name (name : string)
    (entity_type : option EntityType) : string * pydict :=
  let query :=
    match entity_type with
    | Some t =>
      join nl
        ["";
         "                MATCH (e:" +:+ EntityType_value t +:+ ")";
         "                WHERE e.name CONTAINS $name";
         "                RETURN e";
         "                LIMIT 50";
         "            "]
    | None =>
      join nl
        ["";
         "                MATCH (e)";
         "                WHERE e.name CONTAINS $name";
         "                RETURN e, labels(e) as entity_type";
         "                LIMIT 50";
         "            "]
    end in
  (query, [("name", PyStr name)]).

Definition get_dependencies (entity_name : string) : string * pydict :=
  let query :=
      join nl
        ["";
         "            MATCH (e {name: $name})-[r:IMPORTS|DEPENDS_ON|CALLS]->(target)";
         "            RETURN target, type(r) as relationship_type";
         "            LIMIT 100";
         "        "] in
  (query, [("name", PyStr entity_name)]).

Definition get_dependents (entity_name : string) : string * pydict :=
  let query :=
      join nl
        ["";
         "            MATCH (source)-[r:IMPORTS|DEPENDS_ON|CALLS]->(e {name: $name})";
         "            RETURN source, type(r) as relationship_type";
         "            LIMIT 100";
         "        "] in
  (query, [("name", PyStr entity_name)]).

(** [max_depth] is printed into the text in decimal. *)
Definition trace_imports (module_name : string) (max_depth : Z)
  : string * pydict :=
  let query :=
      join nl
        ["";
         "            MATCH path = (m:Module {name: $name})-[:IMPORTS*1.." +:+ pretty max_depth +:+ "]->(imported)";
         "            RETURN path";
         "            LIMIT 50";
         "        "] in
  (query, [("name", PyStr module_name)]).

Definition find_related (entity_name : string)
    (relationship_type : RelationshipType) (direction : string)
  : string * pydict :=
  let query :=
    if String.eqb direction "outgoing" then
      join nl
        ["";
         "                MATCH (e {name: $name})-[r:" +:+ RelationshipType_value relationship_type +:+ "]->(related)";
         "                RETURN related, r";
         "                LIMIT 100";
         "            "]
    else if String.eqb direction "incoming" then
      join nl
        ["";
         "                MATCH (related)-[r:" +:+ RelationshipType_value relationship_type +:+ "]->(e {name: $name})";
         "                RETURN related, r";
         "                LIMIT 100";
         "            "]
    else
      join nl
        ["";
         "                MATCH (e {name: $name})-[r:" +:+ RelationshipType_value relationship_type +:+ "]-(related)";
         "                RETURN related, r";
         "                LIMIT 100";
         "            "] in
  (query, [("name", PyStr entity_name)]).

Definition find_inheritance_hierarchy (class_name : string)
  : string * pydict :=
  let query :=
      join nl
        ["";
         "            // Find parent classes";
         "            MATCH path1 = (c:Class {name: $name})-[:INHERITS_FROM*]->(parent)";
         "            ";
         "            // Find child classes";
         "            OPTIONAL MATCH path2 = (child)-[:INHERITS_FROM*]->(c)";
         "            ";
         "            RETURN path1, path2";
         "            LIMIT 50";
         "        "] in
  (query, [("name", PyStr class_name)]).

Definition find_function_calls (function_name : string) : string * pydict :=
  let query :=
      join nl
        ["";
         "            // Functions this one calls";
         "            MATCH (f {name: $name})-[:CALLS]->(called)";
         "            RETURN 'calls' as direction, called";
         "            ";
         "            UNION";
         "            ";
         "            // Functions that call this one";
         "            MATCH (caller)-[:CALLS]->(f {name: $name})";
         "            RETURN 'called_by' as direction, caller";
         "            ";
         "            LIMIT 100";
         "        "] in
  (query, [("name", PyStr function_name)]).

Definition find_decorated_entities (decorator_name : string)
  : string * pydict :=
  let query :=
      join nl
        ["";
         "            MATCH (entity)-[:DECORATED_BY]->(d:Decorator)";
         "            WHERE d.name = $decorator OR d.name CONTAINS $decorator";
         "            RETURN entity, labels(entity) as entity_type";
         "            LIMIT 100";
         "        "] in
  (query, [("decorator", PyStr decorator_name)]).

Definition get_module_structure (module_name : string) : string * pydict :=
  let query :=
      join nl
        ["";
         "            MATCH (m:Module {name: $name})";
         "            OPTIONAL MATCH (m)-[:CONTAINS]->(entity)";
         "            RETURN m, collect(entity) as entities";
         "        "] in
  (query, [("name", PyStr module_name)]).

Definition search_by_docstring (search_term : string) : string * pydict :=
  let query :=
      join nl
        ["";
         "            MATCH (entity)";
         "            WHERE entity.docstring CONTAINS $term";
         "            RETURN entity, labels(entity) as entity_type, entity.docstring as docstring";
         "            LIMIT 50";
         "        "] in
  (query, [("term", PyStr search_term)]).

(** Every way of calling a builder. *)
Inductive builder_call :=
| FindEntityByName (name : string) (entity_type : option EntityType)
| GetDependencies (entity_name : string)
| GetDependents (entity_name : string)
| TraceImports (module_name : string) (max_depth : Z)
| FindRelated (entity_name : string) (relationship_type : RelationshipType)
    (direction : string)
| FindInheritanceHierarchy (class_name : string)
| FindFunctionCalls (function_name : string)
| FindDecoratedEntities (decorator_name : string)
| GetModuleStructure (module_name : string)
| SearchByDocstring (search_term : string).

Definition build (c : builder_call) : string * pydict :=
  match c with
  | FindEntityByName name entity_type => find_entity_by_name name entity_type
  | GetDependencies entity_name => get_dependencies entity_name
  | GetDependents entity_name => get_dependents entity_name
  | TraceImports module_name max_depth => trace_imports module_name max_depth
  | FindRelated entity_name relationship_type direction =>
      find_related entity_name relationship_type direction
  | FindInheritanceHierarchy class_name =>
      find_inheritance_hierarchy class_name
  | FindFunctionCalls function_name => find_function_calls function_name
  | FindDecoratedEntities decorator_name =>
      find_decorated_entities decorator_name
  | GetModuleStructure module_name => get_module_structure module_name
  | SearchByDocstring search_term => search_by_docstring search_term
  end.

(** The string a builder is called on, and the same call on another. *)
Definition searched (c : builder_call) : string :=
  match c with
  | FindEntityByName s _ | GetDependencies s | GetDependents s
  | TraceImports s _ | FindRelated s _ _ | FindInheritanceHierarchy s
  | FindFunctionCalls s | FindDecoratedEntities s | GetModuleStructure s
  | SearchByDocstring s => s
  end.

Definition searching (s : string) (c : builder_call) : builder_call :=
  match c with
  | FindEntityByName _ t => FindEntityByName s t
  | GetDependencies _ => GetDependencies s
  | GetDependents _ => GetDependents s
  | TraceImports _ d => TraceImports s d
  | FindRelated _ t d => FindRelated s t d
  | FindInheritanceHierarchy _ => FindInheritanceHierarchy s
  | FindFunctionCalls _ => FindFunctionCalls s
  | FindDecoratedEntities _ => FindDecoratedEntities s
  | GetModuleStructure _ => GetModuleStructure s
  | SearchByDocstring _ => SearchByDocstring s
  end.

(** *** Characters of a string *)

Fixpoint all_chars (p : ascii -> bool) (s : string) : bool :=
  match s with
  | EmptyString => true
  | String c s' => p c && all_chars p s'
  end.

(** The characters of a printed integer. *)
Definition sign_or_digit (c : ascii) : bool :=
  contains (String c "") "-0123456789".

(** *** Queries written in ASCII *)

(** The letters a to z of a string in upper case and all else as it is:
    what [upper] gives for a text of ASCII characters. *)
Fixpoint upper_letters (s : string) : string :=
  match s with
  | EmptyString => EmptyString
  | String c s' => String (upper_ascii c) (upper_letters s')
  end.

Definition written_in_ascii (s : string) : bool := all_chars is_ascii s.

(** The string is empty or starts with an ASCII character: no character
    encoded on several bytes reaches into it from the left. *)
Definition starts_in_ascii (s : string) : Prop :=
  match s with
  | EmptyString => True
  | String c _ => is_ascii c = true
  end.

(** No character of [upper_special] starts at the first byte of the
    string. *)
Definition no_special_at (c1 : ascii) (s1 : string) : Prop :=
  match s1 with
  | EmptyString => True
  | String c2 s2 =>
      upper_of_special (String c1 (String c2 EmptyString)) = None /\
      match s2 with
      | EmptyString => True
      | String c3 _ =>
          upper_of_special (String c1 (String c2 (String c3 EmptyString)))
          = None
      end
  end.

(** A keyword stands in an upper-cased query. *)
Definition keyword_in_upper (query : string) : Prop :=
  exists keyword pre post,
    keyword ∈ dangerous_keywords /\
    upper query = pre +:+ keyword +:+ post.

(** Two queries that read nodes by their name, the word set spelled with a
    long s (U+017F) and a word with a sharp s (U+00DF) before et, and a
    database that answers every query with no record. *)
Definition long_s_query : string :=
  "MATCH (n) WHERE n.name = '" +:+ encoded [197; 191] +:+ "et' RETURN n".

Definition sharp_s_query : string :=
  "MATCH (n) WHERE n.name = 'Gro" +:+ encoded [195; 159]
  +:+ "etage' RETURN n".

Definition empty_database : database :=
  mk_database None (fun _ => inr []).

(** ** More of [agents/graph_query/tools.py] *)

(** [EntityType(s)] and [RelationshipType(s)]: the member whose value is
    [s]; [None] for [ValueError]. *)
Definition all_entity_types : list EntityType :=
  [MODULE; CLASS; FUNCTION; METHOD; PARAMETER; DECORATOR; IMPORT; DOCSTRING;
   FILE].

Definition all_relationship_types : list RelationshipType :=
  [CONTAINS; IMPORTS; INHERITS_FROM; CALLS; DECORATED_BY; HAS_PARAMETER;
   DOCUMENTED_BY; DEPENDS_ON].

Definition EntityType_of_value (s : string) : option EntityType :=
  List.find (fun t => String.eqb (EntityType_value t) s) all_entity_types.

Definition RelationshipType_of_value (s : string)
  : option RelationshipType :=
  List.find (fun t => String.eqb (RelationshipType_value t) s)
    all_relationship_types.

(** The database as the search methods meet it: [execute_read] is given
    the query text and its parameters. *)
Record read_database := mk_read_database {
  rdb_connect : option string;
  rdb_read : string -> pydict -> string + list pydict
}.

Inductive read_call :=
| ClientCall
| ReadCall (text : string) (parameters : pydict).

(** What makes a search method raise its [GraphQueryError]: no client, a
    string that is no member of an enumeration, or a failing read. *)
Inductive search_error :=
| ClientFailed (msg : string)
| NotAValid (enumeration value : string)
| ReadFailed (msg : string).

Module GraphQueryTools.

Record find_entity_result := mk_find_entity_result {
  found_query : string;
  found_entity_type : option string;
  found_results : list pydict;
  found_count : nat
}.

(** [find_entity]: the client is fetched first, then the type string is
    converted, an absent or empty string standing for no filter. *)
Definition find_entity (db : read_database) (name : string)
    (entity_type : option string)
  : (search_error + find_entity_result) * list read_call :=
  match rdb_connect db with
  | Some msg => (inl (ClientFailed msg), [ClientCall])
  | None =>
      let entity_type_enum : string + option EntityType :=
        match entity_type with
        | Some s =>
            if truthy s
            then match EntityType_of_value s with
                 | Some t => inr (Some t)
                 | None => inl s
                 end
            else inr None
        | None => inr None
        end in
      match entity_type_enum with
      | inl s => (inl (NotAValid "EntityType" s), [ClientCall])
      | inr entity_type_enum =>
          let '(query, params) := find_entity_by_name name entity_type_enum in
          match rdb_read db query params with
          | inl msg =>
              (inl (ReadFailed msg), [ClientCall; ReadCall query params])
          | inr result =>
              (inr (mk_find_entity_result name entity_type
                      (parse_cypher_result result) (length result)),
               [ClientCall; ReadCall query params])
          end
      end
  end.

Record find_related_result := mk_find_related_result {
  related_entity : string;
  related_relationship_type : string;
  related_direction : string;
  related_entities : list pydict;
  related_count : nat
}.

(** [find_related]: the relationship type string is always converted. *)
Definition find_related (db : read_database) (entity_name : string)
    (relationship_type : string) (direction : string)
  : (search_error + find_related_result) * list read_call :=
  match rdb_connect db with
  | Some msg => (inl (ClientFailed msg), [ClientCall])
  | None =>
      match RelationshipType_of_value relationship_type with
      | None =>
          (inl (NotAValid "RelationshipType" relationship_type), [ClientCall])
      | Some rel_type_enum =>
          let '(query, params) :=
            find_related entity_name rel_type_enum direction in
          match rdb_read db query params with
          | inl msg =>
              (inl (ReadFailed msg), [ClientCall; ReadCall query params])
          | inr result =>
              (inr (mk_find_related_result entity_name relationship_type
                      direction (parse_cypher_result result)
                      (length result)),
               [ClientCall; ReadCall query params])
          end
      end
  end.

End GraphQueryTools.

(** A database that can be reached and has no record for any query. *)
Definition silent_database : read_database :=
  mk_read_database None (fun _ _ => inr []).

(** ** More of [agents/indexer/repository.py] *)

(** A directory as [os.walk] lists it: the names of its files and its
    subdirectories, in listing order.  Links to directories, which
    [os.walk] lists without entering them, are left out. *)
Inductive dir :=
| mk_dir (files : list string) (subdirs : list (string * dir)).

Definition default_exclude_dirs : list string :=
  ["__pycache__"; ".git"; ".venv"; "venv"; "env"; "node_modules"; "tests";
   "test"; "docs"; "site"; "build"; "dist"].

(** The loop over [os.walk]: at each directory, top down, the excluded
    names are taken out of the subdirectories to visit and the Python
    files of the directory are appended.  A path is given by its parts
    below the clone path; [root] holds the parts of the directory. *)
Fixpoint walk_python_files (exclude_dirs : list string) (root : list string)
    (d : dir) {struct d} : list (list string) :=
  match d with
  | mk_dir files subdirs =>
      map (fun file => root ++ [file]) (List.filter (endswith ".py") files)
      ++ flat_map
           (fun sub =>
              if bool_decide (fst sub ∈ exclude_dirs) then []
              else walk_python_files exclude_dirs (root ++ [fst sub])
                     (snd sub))
           subdirs
  end.

(** [discover_python_files].  [clone] is the directory at the clone path,
    [None] when the path does not exist and the method raises; an absent
    or empty [exclude_dirs] stands for the default list. *)
Definition discover_python_files (clone : option dir)
    (exclude_dirs : option (list string)) : option (list (list string)) :=
  match clone with
  | None => None
  | Some d =>
      let exclude_dirs :=
        match exclude_dirs with
        | Some ((_ :: _) as l) => l
        | _ => default_exclude_dirs
        end in
      Some (walk_python_files exclude_dirs [] d)
  end.

(** The paths of the files in a directory, by their parts. *)
Inductive file_in : dir -> list string -> Prop :=
| file_here (files : list string) (subdirs : list (string * dir))
    (file : string) :
    file ∈ files -> file_in (mk_dir files subdirs) [file]
| file_below (files : list string) (subdirs : list (string * dir))
    (name : string) (d : dir) (path : list string) :
    (name, d) ∈ subdirs -> file_in d path ->
    file_in (mk_dir files subdirs) (name :: path).

(** A repository with a package, its tests and a virtual environment. *)
Definition example_repository : dir :=
  mk_dir ["setup.py"; "README.md"]
    [("pkg", mk_dir ["__init__.py"; "tests.py"]
               [("tests", mk_dir ["test_a.py"] [])]);
     (".venv", mk_dir [] [("lib", mk_dir ["site.py"] [])])].

(** ** [utils/helpers.py] *)

(** [text[:stop]]: a negative [stop] counts from the end. *)
Definition slice_to (stop : Z) (text : string) : string :=
  if (0 <=? stop)%Z then substring 0 (Z.to_nat stop) text
  else substring 0 (Z.to_nat (Z.of_nat (String.length text) + stop)) text.

Definition truncate_text (text : string) (max_length : Z) (suffix : string)
  : string :=
  if (Z.of_nat (String.length text) <=? max_length)%Z then text
  else slice_to (max_length - Z.of_nat (String.length suffix)) text
       +:+ suffix.

Section AsyncRetry.

(** The decorated function returns values of [T] and raises exceptions
    of [E]; delays are of a type [D] with its multiplication. *)
Context {T E D : Type}.

(** What one call of the decorated function does: it returns, or raises
    an exception that is, or is not, one of [exceptions]. *)
Inductive outcome :=
| Returns (value : T)
| Raises (e : E) (retried : bool).

(** What the wrapper does in the end.  [RaisesNone] is the
    [raise last_exception] reached with no exception stored. *)
Inductive retry_result :=
| Returned (value : T)
| Raised (e : E)
| RaisesNone.

Record retry_run := mk_retry_run {
  run_result : retry_result;
  run_sleeps : list D;
  run_calls : nat
}.

Variable mul : D -> D -> D.
Variables (max_retries : Z) (delay backoff : D).

(** [func i] is what the call of attempt [i] does. *)
Variable func : nat -> outcome.

(** The loop over [range(max_retries + 1)], from attempt [attempt] with
    [remaining] attempts to go. *)
Fixpoint retry_loop (remaining attempt : nat) (current_delay : D)
    (last_exception : option E) : retry_run :=
  match remaining with
  | O =>
      mk_retry_run
        (match last_exception with
         | Some e => Raised e
         | None => RaisesNone
         end) [] 0
  | S remaining' =>
      match func attempt with
      | Returns value => mk_retry_run (Returned value) [] 1
      | Raises e false => mk_retry_run (Raised e) [] 1
      | Raises e true =>
          if (Z.of_nat attempt <? max_retries)%Z
          then
            let rest :=
              retry_loop remaining' (S attempt) (mul current_delay backoff)
                (Some e) in
            mk_retry_run (run_result rest) (current_delay :: run_sleeps rest)
              (S (run_calls rest))
          else
            let rest :=
              retry_loop remaining' (S attempt) current_delay (Some e) in
            mk_retry_run (run_result rest) (run_sleeps rest)
              (S (run_calls rest))
      end
  end.

(** The wrapper [async_retry] puts around [func]: what it returns or
    raises, the delays it sleeps, in order, and the number of calls of
    [func]. *)
Definition async_retry : retry_run :=
  retry_loop (Z.to_nat (max_retries + 1)) 0 delay None.

(** The first [n] delays: each is the one before times [backoff]. *)
Fixpoint backoff_delays (n : nat) (current_delay : D) : list D :=
  match n with
  | O => []
  | S n' => current_delay :: backoff_delays n' (mul current_delay backoff)
  end.

End AsyncRetry.

(** A decorated call as the agents declare it, with [max_retries=2] and
    [delay=1.0], the default [backoff] being 2: it fails twice with an
    exception that is retried and then returns; and one that always
    fails. *)
Definition fails_twice (i : nat) : @outcome nat string :=
  if (i <? 2)%nat then Raises "timeout" true else Returns 7%nat.

Definition always_fails (i : nat) : @outcome nat string :=
  Raises ("timeout " +:+ pretty i) true.

(** The id of the class a node defines; nothing for a node of another
    kind. *)
Definition class_ids (module_path : string) (n : located) : list string :=
  match snd n with
  | ClassDef cname _ _ _ _ => [module_path +:+ "." +:+ cname]
  | _ => []
  end.

(** A module whose function f defines a class Inner and a function g. *)
Definition nested_definitions : Module_ast :=
  mk_Module
    [FunctionDef "f" []
       [ClassDef "Inner" [] [OtherNode []] [] 2;
        FunctionDef "g" [] [OtherNode []] [] 4]
       [] 1].

(** *** Calls nested around a name *)

(** The number of calls around the name of a node: the number of times
    [_get_name_from_node] calls itself for it. *)
Fixpoint call_depth (node : expr) : nat :=
  match node with
  | Call func _ => S (call_depth func)
  | _ => O
  end.

(** The expressions whose name the parser looks up at a node. *)
Definition names_read (s : stmt) : list expr :=
  match s with
  | ClassDef _ bases _ decorator_list _ => bases ++ decorator_list
  | FunctionDef _ _ _ decorator_list _
  | AsyncFunctionDef _ _ _ decorator_list _ => decorator_list
  | _ => []
  end.

(** No name read at the node or below it stands inside more than [limit]
    calls. *)
Fixpoint shallow_names (limit : nat) (s : stmt) {struct s} : bool :=
  forallb (fun d => (call_depth d <=? limit)%nat) (names_read s)
  && match s with
     | ClassDef _ _ body _ _ => forallb (shallow_names limit) body
     | FunctionDef _ _ body _ _ => forallb (shallow_names limit) body
     | AsyncFunctionDef _ _ body _ _ => forallb (shallow_names limit) body
     | OtherNode children => forallb (shallow_names limit) children
     | Import _ _ | ImportFrom _ _ _ | Expr _ => true
     end.

Definition calls_nest_within (limit : nat) (tree : Module_ast) : bool :=
  forallb (shallow_names limit) (mod_body tree).

(** *** Relationships between the entities of an extraction *)

(** The kinds of relationship that end at an entity of the extraction;
    the other kinds end at a bare name. *)
Definition ends_at_entity (t : RelationshipType) : Prop :=
  t = CONTAINS \/ t = HAS_PARAMETER \/ t = DOCUMENTED_BY.

(** Every relationship appended starts at one of the names [known] or at
    an entity appended with it, and so it ends if its kind ends at an
    entity. *)
Definition anchored (known : list string) (o : emitted) : Prop :=
  forall r, r ∈ snd o ->
    source r ∈ known ++ map name (fst o) /\
    (ends_at_entity (rel_type r) -> target r ∈ known ++ map name (fst o)).

Definition anchors (known : list string) (s : parse_step) : Prop :=
  forall o, s = Some o -> anchored known o.

(** *** Parameters *)

(** [node.args.args] of a function definition. *)
Definition function_args (s : stmt) : list arg :=
  match s with
  | FunctionDef _ args _ _ _ | AsyncFunctionDef _ args _ _ _ => args
  | _ => []
  end.

(** What is read of a Parameter entity: its qualified name, its name
    property and its position. *)
Definition parameter_view (e : EntityInfo)
  : string * option pyval * option pyval :=
  (name e, dict_get "name" (properties e),
   dict_get "position" (properties e)).

(** The view of the parameter [a] of [owner] at position [i]. *)
Definition parameter_at (owner : string) (ia : Z * arg)
  : string * option pyval * option pyval :=
  (owner +:+ ".param." +:+ arg_name (snd ia),
   Some (PyStr (arg_name (snd ia))), Some (PyInt (fst ia))).

(** A method with the parameters self, request and limit. *)
Definition three_parameters : stmt :=
  FunctionDef "get"
    [mk_arg "self" None 2; mk_arg "request" (Some (Name "Request")) 2;
     mk_arg "limit" None 2]
    [OtherNode []] [Name "staticmethod"] 2.

(** * Proof automation *)

#[local] Arguments String.append : simpl nomatch.

(** A key is none of the keys of a dictionary written out. *)
Ltac no_such_key :=
  let H := fresh in
  cbn; intros H;
  repeat (apply elem_of_cons in H as [H|H]; [discriminate H|]);
  by apply elem_of_nil in H.

(** A property decided by evaluation. *)
(** The marker loop of [_parse_function] in a hypothesis: it returned. *)
Ltac split_markers H :=
  match type of H with
  | match ?m with Some _ => _ | None => _ end = _ =>
      let Hm := fresh "Hmarkers" in
      destruct m as [[? ?]|] eqn:Hm; [|discriminate H]
  end.

Ltac by_evaluation :=
  refine (bool_decide_unpack _ _); vm_compute; exact I.

(** * Properties *)

(** ** The parser's sequencing *)

Lemma and_then_Some (a b : parse_step) (es : list EntityInfo)
    (rs : list RelationshipInfo) :
  (a ;; b) = Some (es, rs) ->
  exists e1 r1 e2 r2,
    a = Some (e1, r1) /\ b = Some (e2, r2) /\
    es = e1 ++ e2 /\ rs = r1 ++ r2.
Proof.
  unfold and_then.
  destruct a as [[e1 r1]|]; [|discriminate].
  destruct b as [[e2 r2]|]; [|discriminate].
  intros H. injection H as <- <-. by exists e1, r1, e2, r2.
Qed.

Lemma and_then_skip_l (a : parse_step) : (skip ;; a) = a.
Proof. unfold and_then, skip. by destruct a as [[e r]|]. Qed.

Lemma for_each_Some {A : Type} (f : A -> parse_step) (l : list A)
    (es : list EntityInfo) (rs : list RelationshipInfo) :
  for_each l f = Some (es, rs) ->
  exists outs : list emitted,
    Forall2 (fun x o => f x = Some o) l outs /\
    es = concat (map fst outs) /\ rs = concat (map snd outs).
Proof.
  revert es rs. induction l as [|x l IH]; intros es rs H.
  - injection H as <- <-. exists []. by repeat constructor.
  - cbn [for_each] in H.
    apply and_then_Some in H as (e1 & r1 & e2 & r2 & Hx & Hl & -> & ->).
    destruct (IH _ _ Hl) as (outs & Hf & -> & ->).
    exists ((e1, r1) :: outs). by repeat constructor.
Qed.

(** ** The end-to-end example *)

(** C5. Parsing the syntax tree of the example source (class Foo with base
    Base, method bar(self, x) with docstring doc and a return) under module
    path pkg.mod yields exactly the Module, Class, Method, two Parameter and
    Docstring entities and the six relationships of the worked example, in
    this order.  [inspect.cleandoc] is only asked to leave the text doc as
    it is. *)
Theorem parse_file_end_to_end_example
    (cleandoc : string -> string) (unparse : expr -> option string)
    (recursion_limit : nat)
    (file_path : string) :
  cleandoc "doc" = "doc" ->
  parse_file cleandoc unparse recursion_limit
    file_path "pkg.mod" (Some example_tree) =
  Some
    ([mk_EntityInfo MODULE "pkg.mod" 1
        [("path", PyStr "pkg.mod"); ("file_path", PyStr file_path);
         ("docstring", PyStr "")];
      mk_EntityInfo CLASS "pkg.mod.Foo" 1
        [("name", PyStr "Foo"); ("module_path", PyStr "pkg.mod");
         ("docstring", PyStr ""); ("is_abstract", PyBool false)];
      mk_EntityInfo METHOD "pkg.mod.Foo.bar" 2
        [("name", PyStr "bar"); ("module_path", PyStr "pkg.mod");
         ("docstring", PyStr "doc"); ("is_async", PyBool false);
         ("signature", PyStr "bar(self, x)");
         ("is_static", PyBool false); ("is_classmethod", PyBool false)];
      mk_EntityInfo PARAMETER "pkg.mod.Foo.bar.param.self" 2
        [("name", PyStr "self"); ("type_annotation", PyNone);
         ("position", PyInt 0)];
      mk_EntityInfo PARAMETER "pkg.mod.Foo.bar.param.x" 2
        [("name", PyStr "x"); ("type_annotation", PyNone);
         ("position", PyInt 1)];
      mk_EntityInfo DOCSTRING "pkg.mod.Foo.bar.docstring" 2
        [("content", PyStr "doc")]],
     [mk_RelationshipInfo CONTAINS "pkg.mod" "pkg.mod.Foo" [];
      mk_RelationshipInfo INHERITS_FROM "pkg.mod.Foo" "Base" [];
      mk_RelationshipInfo CONTAINS "pkg.mod.Foo" "pkg.mod.Foo.bar" [];
      mk_RelationshipInfo HAS_PARAMETER "pkg.mod.Foo.bar"
        "pkg.mod.Foo.bar.param.self" [];
      mk_RelationshipInfo HAS_PARAMETER "pkg.mod.Foo.bar"
        "pkg.mod.Foo.bar.param.x" [];
      mk_RelationshipInfo DOCUMENTED_BY "pkg.mod.Foo.bar"
        "pkg.mod.Foo.bar.docstring" []]).
Proof.
  intros Hdoc.
  unfold parse_file, example_tree, walk. cbn -[String.append].
  unfold _is_top_level, _parse_function_def, get_docstring.
  cbn -[String.append]. rewrite Hdoc. reflexivity.
Qed.

Lemma parse_file_end_to_end_example_witness :
  (fun s : string => s) "doc" = "doc" /\
  exists es rs,
    parse_file (fun s => s) (fun _ => None) 1000 "/repo/pkg/mod.py" "pkg.mod"
      (Some example_tree) = Some (es, rs) /\
    map name es =
      ["pkg.mod"; "pkg.mod.Foo"; "pkg.mod.Foo.bar";
       "pkg.mod.Foo.bar.param.self"; "pkg.mod.Foo.bar.param.x";
       "pkg.mod.Foo.bar.docstring"] /\
    length rs = 6%nat.
Proof.
  split; [reflexivity|].
  eexists _, _. split.
  - apply (parse_file_end_to_end_example (fun s => s) (fun _ => None) 1000
             "/repo/pkg/mod.py").
    reflexivity.
  - split; reflexivity.
Defined.

(** ** What each method of the parser appends *)

Lemma _add_parameter_aux (unparse : expr -> option string) (parent : string)
    (a : arg) (position : Z) (o : emitted) :
  _add_parameter unparse parent a position = Some o -> aux_emission o.
Proof.
  unfold _add_parameter.
  destruct (match annotation a with
            | Some ann => option_map PyStr (unparse ann)
            | None => Some PyNone
            end) as [ta|]; [|discriminate].
  intros H. injection H as <-. apply aux_parameter.
Qed.

Lemma for_each_aux {A : Type} (f : A -> parse_step) (l : list A)
    (o : emitted) :
  (forall x o', f x = Some o' -> aux_emission o') ->
  for_each l f = Some o -> aux_emission o.
Proof.
  intros Hf. revert o. induction l as [|x l IH]; intros [es rs] H.
  - injection H as <- <-. constructor.
  - cbn [for_each] in H.
    apply and_then_Some in H as (e1 & r1 & e2 & r2 & Hx & Hl & -> & ->).
    apply aux_app; [by apply (Hf x)|by apply IH].
Qed.

Lemma skip_aux (o : emitted) : skip = Some o -> aux_emission o.
Proof. intros H. injection H as <-. constructor. Qed.

Lemma _add_decorator_aux (parent d : string) (o : emitted) :
  _add_decorator parent d = Some o -> aux_emission o.
Proof. intros H. injection H as <-. apply aux_decorator. Qed.

Lemma _add_docstring_aux (parent content : string) (lineno : Z)
    (o : emitted) :
  _add_docstring parent content lineno = Some o -> aux_emission o.
Proof. intros H. injection H as <-. apply aux_docstring. Qed.

Lemma dict_get_set_ne (k k' : string) (v : pyval) (d : pydict) :
  k <> k' -> dict_get k' (dict_set k v d) = dict_get k' d.
Proof.
  intros Hne. induction d as [|[k0 v0] d IH]; cbn.
  - destruct (String.eqb_spec k k'); [done|reflexivity].
  - destruct (String.eqb_spec k0 k) as [->|Hk0]; cbn.
    + destruct (String.eqb_spec k k'); [done|reflexivity].
    + destruct (String.eqb_spec k0 k'); [reflexivity|apply IH].
Qed.

Lemma _parse_function_def_emission (cleandoc : string -> string)
    (unparse : expr -> option string)
    (recursion_limit : nat) (module_path : string)
    (is_async : bool) (fname : string) (args : list arg) (body : list stmt)
    (decorator_list : list expr) (lineno : Z) (is_method : bool)
    (parent_class : option string) (o : emitted) :
  _parse_function_def cleandoc unparse recursion_limit
    module_path is_async fname args body
    decorator_list lineno is_method parent_class = Some o ->
  definition_emission (if is_method then METHOD else FUNCTION)
    (if is_method then format_optional parent_class else module_path)
    fname o.
Proof.
  unfold _parse_function_def. destruct o as [es rs]. intros H.
  split_markers H.
  apply and_then_Some in H as (e1 & r1 & e2 & r2 & He & H & -> & ->).
  injection He as <- <-.
  apply and_then_Some in H as (e1 & r1 & e3 & r3 & Hr & H & -> & ->).
  injection Hr as <- <-.
  apply and_then_Some in H as (pe & pr & e4 & r4 & Hp & H & -> & ->).
  apply and_then_Some in H as (de & dr & ce & cr & Hd & Hc & -> & ->).
  cbn [app].
  assert (Haux : aux_emission (pe ++ de ++ ce, pr ++ dr ++ cr)).
  { apply aux_app; [|apply aux_app].
    - revert Hp. apply for_each_aux. intros [i a] o'. apply _add_parameter_aux.
    - revert Hd. apply for_each_aux. intros d o'.
      destruct (_get_name_from_node unparse _ d) as [[dn|]|];
        [|apply skip_aux|done].
      destruct (_ && _); [apply _add_decorator_aux|apply skip_aux].
    - revert Hc. destruct (truthy _);
        [apply _add_docstring_aux|apply skip_aux]. }
  destruct is_method.
  - apply (def_emission METHOD); [|exact Haux].
    split; [reflexivity|]. split; [reflexivity|].
    eexists. split; [reflexivity|]. split; no_such_key.
  - apply (def_emission FUNCTION); [|exact Haux].
    split; [reflexivity|]. split; [reflexivity|].
    eexists. split; [reflexivity|]. split; no_such_key.
Qed.

(** When [_get_name_from_node] returns, it returns the name of the
    node. *)
Lemma _get_name_from_node_Some (unparse : expr -> option string)
    (nested : nat) (node : expr) (r : option string) :
  _get_name_from_node unparse nested node = Some r ->
  r = node_name unparse node.
Proof.
  revert nested. induction node as [id|value IH attr|func IH args|c|tag];
    intros nested H; cbn in H |- *; try (by injection H as <-).
  destruct nested as [|nested]; [done|]. by eapply IH.
Qed.

Lemma bases_loop_inherits (unparse : expr -> option string)
    (nested : nat) (class_name : string) (bases : list expr) (o : emitted) :
  for_each bases
    (fun base =>
       match _get_name_from_node unparse nested base with
       | None => raise
       | Some (Some base_name) =>
           if truthy base_name && negb (String.eqb base_name "ABC")
           then append_relationship
                  (mk_RelationshipInfo INHERITS_FROM class_name base_name [])
           else skip
       | Some None => skip
       end)
  = Some o ->
  o = ([], inherits_from unparse class_name bases).
Proof.
  unfold inherits_from, inherited_names. revert o.
  induction bases as [|b bases IH]; intros [es rs] H;
    [by injection H as <- <-|].
  cbn [for_each] in H.
  apply and_then_Some in H as (e1 & r1 & e2 & r2 & Hb & Hl & -> & ->).
  apply IH in Hl. injection Hl as -> ->. cbn [omap list_omap].
  destruct (_get_name_from_node unparse nested b) as [r|] eqn:Hn; [|done].
  apply _get_name_from_node_Some in Hn as ->.
  destruct (node_name unparse b) as [bn|]; [|by injection Hb as <- <-].
  cbn [List.filter].
  destruct (truthy bn && negb (String.eqb bn "ABC"));
    by injection Hb as <- <-.
Qed.

Lemma _parse_function_emission (cleandoc : string -> string)
    (unparse : expr -> option string)
    (recursion_limit : nat) (module_path : string) (node : stmt)
    (is_method : bool) (parent_class : option string) (o : emitted) :
  _parse_function cleandoc unparse recursion_limit
    module_path node is_method parent_class
  = Some o ->
  exists fname,
    function_name node = Some fname /\
    definition_emission (if is_method then METHOD else FUNCTION)
      (if is_method then format_optional parent_class else module_path)
      fname o.
Proof.
  destruct node; try discriminate; cbn [_parse_function]; intros H;
    eexists; (split; [reflexivity|]);
    eapply _parse_function_def_emission; exact H.
Qed.

Lemma body_loop_members (cleandoc : string -> string)
    (unparse : expr -> option string)
    (recursion_limit : nat) (module_path class_name : string)
    (body : list stmt) (o : emitted) :
  for_each body
    (fun item =>
       if is_function_def item
       then _parse_function cleandoc unparse recursion_limit
              module_path item true
              (Some class_name)
       else skip)
  = Some o ->
  members_emission class_name (method_names body) o.
Proof.
  revert o. induction body as [|item body IH]; intros [es rs] H.
  - injection H as <- <-. constructor.
  - cbn [for_each] in H.
    apply and_then_Some in H as (e1 & r1 & e2 & r2 & Hx & Hl & -> & ->).
    specialize (IH _ Hl). unfold method_names in *.
    cbn [omap list_omap].
    destruct (is_function_def item) eqn:Hfd.
    + apply _parse_function_emission in Hx as (fname & -> & Hx).
      by apply mem_cons.
    + injection Hx as <- <-.
      destruct item; try discriminate Hfd; exact IH.
Qed.

Lemma _parse_class_emission (cleandoc : string -> string)
    (unparse : expr -> option string)
    (recursion_limit : nat) (module_path cname : string)
    (bases : list expr) (body : list stmt) (decorator_list : list expr)
    (lineno : Z) (o : emitted) :
  _parse_class cleandoc unparse recursion_limit module_path
    (ClassDef cname bases body decorator_list lineno) = Some o ->
  class_emission unparse module_path cname bases body o.
Proof.
  cbn [_parse_class]. destruct o as [es rs]. intros H.
  apply and_then_Some in H as (e1 & r1 & e2 & r2 & He & H & -> & ->).
  injection He as <- <-.
  apply and_then_Some in H as (e1 & r1 & e3 & r3 & Hr & H & -> & ->).
  injection Hr as <- <-.
  apply and_then_Some in H as (be & br & e4 & r4 & Hb & H & -> & ->).
  apply bases_loop_inherits in Hb. injection Hb as -> ->.
  apply and_then_Some in H as (de & dr & e5 & r5 & Hd & H & -> & ->).
  apply and_then_Some in H as (me & mr & ce & cr & Hm & Hc & -> & ->).
  cbn [app]. apply cls_emission.
  - split; [reflexivity|]. split; [reflexivity|].
    eexists. split; [reflexivity|]. split; no_such_key.
  - reflexivity.
  - revert Hd. apply for_each_aux. intros d o'.
    destruct (_get_name_from_node unparse _ d) as [[dn|]|];
      [|apply skip_aux|done].
    destruct (truthy dn); [apply _add_decorator_aux|apply skip_aux].
  - by eapply body_loop_members.
  - revert Hc. destruct (truthy _);
      [apply _add_docstring_aux|apply skip_aux].
Qed.

Lemma filter_all {A : Type} (p : A -> bool) (l : list A) :
  Forall (fun x => p x = true) l -> List.filter p l = l.
Proof.
  induction 1 as [|x l Hx _ IH]; [reflexivity|]. cbn. by rewrite Hx, IH.
Qed.

Lemma filter_none {A : Type} (p : A -> bool) (l : list A) :
  Forall (fun x => p x = false) l -> List.filter p l = [].
Proof.
  induction 1 as [|x l Hx _ IH]; [reflexivity|]. cbn. by rewrite Hx.
Qed.

(** Parameters, decorators and docstrings are no definitions, and the
    relationships appended with them are none of CONTAINS, INHERITS_FROM
    and IMPORTS. *)
Lemma aux_emission_types (o : emitted) :
  aux_emission o ->
  Forall (fun e => entity_type e = PARAMETER \/ entity_type e = DECORATOR
                   \/ entity_type e = DOCSTRING) (fst o) /\
  Forall (fun r => rel_type r = HAS_PARAMETER \/ rel_type r = DECORATED_BY
                   \/ rel_type r = DOCUMENTED_BY) (snd o).
Proof.
  induction 1 as [|e1 r1 e2 r2 _ [IH1 IH1'] _ [IH2 IH2']| | |]; cbn in *.
  - split; constructor.
  - split; by apply Forall_app.
  - split; (constructor; [cbn; auto|constructor]).
  - split; (constructor; [cbn; auto|constructor]).
  - split; (constructor; [cbn; auto|constructor]).
Qed.

Lemma aux_no_entities (t : EntityType) (es : list EntityInfo)
    (rs : list RelationshipInfo) :
  aux_emission (es, rs) ->
  t <> PARAMETER -> t <> DECORATOR -> t <> DOCSTRING ->
  entities_of t es = [].
Proof.
  intros [H _]%aux_emission_types ? ? ?. apply filter_none.
  eapply Forall_impl; [exact H|]. cbn. intros e He.
  unfold is_entity_type. apply bool_decide_eq_false. intros Heq.
  rewrite Heq in He. destruct He as [?|[?|?]]; congruence.
Qed.

Lemma aux_no_relationships (t : RelationshipType) (es : list EntityInfo)
    (rs : list RelationshipInfo) :
  aux_emission (es, rs) ->
  t <> HAS_PARAMETER -> t <> DECORATED_BY -> t <> DOCUMENTED_BY ->
  relationships_of t rs = [].
Proof.
  intros [_ H]%aux_emission_types ? ? ?. apply filter_none.
  eapply Forall_impl; [exact H|]. cbn. intros r Hr.
  unfold is_rel_type. apply bool_decide_eq_false. intros Heq.
  rewrite Heq in Hr. destruct Hr as [?|[?|?]]; congruence.
Qed.

Lemma entities_of_app (t : EntityType) (l1 l2 : list EntityInfo) :
  entities_of t (l1 ++ l2) = entities_of t l1 ++ entities_of t l2.
Proof. apply List.filter_app. Qed.

Lemma relationships_of_app (t : RelationshipType)
    (l1 l2 : list RelationshipInfo) :
  relationships_of t (l1 ++ l2)
  = relationships_of t l1 ++ relationships_of t l2.
Proof. apply List.filter_app. Qed.

(** A function definition appends one definition entity and one CONTAINS
    edge. *)
Lemma definition_emission_entities (t t' : EntityType)
    (parent local : string) (es : list EntityInfo)
    (rs : list RelationshipInfo) :
  definition_emission t parent local (es, rs) ->
  t' <> PARAMETER -> t' <> DECORATOR -> t' <> DOCSTRING ->
  exists e,
    definition_entity t (parent +:+ "." +:+ local) local e /\
    entities_of t' es = (if bool_decide (t = t') then [e] else []).
Proof.
  inversion 1 as [e ae ar He Haux]; subst. intros ? ? ?.
  exists e. split; [done|].
  change (e :: ae) with ([e] ++ ae). rewrite entities_of_app.
  rewrite (aux_no_entities t' ae ar) by done. rewrite app_nil_r.
  cbn. unfold is_entity_type. destruct He as (-> & _). done.
Qed.

Lemma definition_emission_relationships (t : EntityType)
    (t' : RelationshipType) (parent local : string) (es : list EntityInfo)
    (rs : list RelationshipInfo) :
  definition_emission t parent local (es, rs) ->
  t' <> HAS_PARAMETER -> t' <> DECORATED_BY -> t' <> DOCUMENTED_BY ->
  relationships_of t' rs
  = (if bool_decide (t' = CONTAINS)
     then [mk_RelationshipInfo CONTAINS parent (parent +:+ "." +:+ local) []]
     else []).
Proof.
  inversion 1 as [e ae ar He Haux]; subst. intros ? ? ?.
  change (?r :: ar) with ([r] ++ ar). rewrite relationships_of_app.
  rewrite (aux_no_relationships t' ae ar) by done. rewrite app_nil_r.
  cbn. unfold is_rel_type. cbn.
  destruct (decide (t' = CONTAINS)) as [->|Hne].
  - reflexivity.
  - rewrite !bool_decide_eq_false_2; [reflexivity|done|congruence].
Qed.

Lemma members_emission_relationships (t' : RelationshipType)
    (class_name : string) (fnames : list string) (es : list EntityInfo)
    (rs : list RelationshipInfo) :
  members_emission class_name fnames (es, rs) ->
  t' <> HAS_PARAMETER -> t' <> DECORATED_BY -> t' <> DOCUMENTED_BY ->
  relationships_of t' rs
  = (if bool_decide (t' = CONTAINS)
     then map (fun f => mk_RelationshipInfo CONTAINS class_name
                          (class_name +:+ "." +:+ f) []) fnames
     else []).
Proof.
  intros H ? ? ?. remember (es, rs) as o eqn:Ho. revert es rs Ho.
  induction H as [|f fs e1 r1 e2 r2 Hd _ IH]; intros es rs Ho;
    injection Ho as <- <-.
  - by case_bool_decide.
  - rewrite relationships_of_app, (IH e2 r2) by done.
    rewrite (definition_emission_relationships METHOD t' _ _ _ _ Hd)
      by done.
    by case_bool_decide.
Qed.

Lemma members_emission_entities (t' : EntityType)
    (class_name : string) (fnames : list string) (es : list EntityInfo)
    (rs : list RelationshipInfo) :
  members_emission class_name fnames (es, rs) ->
  t' <> PARAMETER -> t' <> DECORATOR -> t' <> DOCSTRING ->
  if bool_decide (t' = METHOD)
  then Forall2 (fun f e => definition_entity METHOD
                             (class_name +:+ "." +:+ f) f e)
         fnames (entities_of t' es)
  else entities_of t' es = [].
Proof.
  intros H ? ? ?. remember (es, rs) as o eqn:Ho. revert es rs Ho.
  induction H as [|f fs e1 r1 e2 r2 Hd _ IH]; intros es rs Ho;
    injection Ho as <- <-.
  - case_bool_decide; [constructor|reflexivity].
  - rewrite entities_of_app. specialize (IH e2 r2 eq_refl).
    destruct (definition_emission_entities METHOD t' _ _ _ _ Hd)
      as (e & He & ->); [done..|].
    case_bool_decide as Ht.
    + subst t'. rewrite bool_decide_eq_true_2 by done. by constructor.
    + rewrite bool_decide_eq_false_2 by congruence. by rewrite IH.
Qed.

(** The INHERITS_FROM edges of a class are those of its bases loop, and its
    only Class entity is its own. *)
Lemma class_emission_inherits (unparse : expr -> option string)
    (module_path cname : string) (bases : list expr) (body : list stmt)
    (es : list EntityInfo) (rs : list RelationshipInfo) :
  class_emission unparse module_path cname bases body (es, rs) ->
  relationships_of INHERITS_FROM rs
  = inherits_from unparse (module_path +:+ "." +:+ cname) bases /\
  exists cls,
    entities_of CLASS es = [cls] /\
    definition_entity CLASS (module_path +:+ "." +:+ cname) cname cls /\
    dict_get "is_abstract" (properties cls)
    = Some (PyBool (existsb is_ABC bases)).
Proof.
  inversion 1 as [e a1e a1r me mr a2e a2r He Habs Ha1 Hm Ha2]; subst.
  split.
  - change (?r :: ?l) with ([r] ++ l).
    rewrite !relationships_of_app.
    rewrite (aux_no_relationships _ _ _ Ha1) by done.
    rewrite (aux_no_relationships _ _ _ Ha2) by done.
    rewrite (members_emission_relationships _ _ _ _ _ Hm) by done.
    cbn. rewrite app_nil_r. unfold inherits_from.
    apply filter_all, List.Forall_forall.
    intros r (b & <- & _)%List.in_map_iff. reflexivity.
  - exists e. split; [|done].
    change (e :: ?l) with ([e] ++ l). rewrite !entities_of_app.
    rewrite (aux_no_entities _ _ _ Ha1) by done.
    rewrite (aux_no_entities _ _ _ Ha2) by done.
    pose proof (members_emission_entities CLASS _ _ _ _ Hm) as Hme.
    rewrite bool_decide_eq_false_2 in Hme by done.
    rewrite Hme by done. cbn.
    unfold is_entity_type. destruct He as (-> & _). done.
Qed.

(** ** Inheritance and the sentinel base *)

Lemma truthy_true (s : string) : s <> "" -> truthy s = true.
Proof.
  intros H. unfold truthy. by destruct (String.eqb_spec s "").
Qed.

Lemma existsb_is_ABC_false (bases : list expr) :
  (forall b, b ∈ bases -> b <> Name "ABC") -> existsb is_ABC bases = false.
Proof.
  intros H. apply not_true_is_false. intros (b & Hb & HABC)%existsb_exists.
  apply (H b); [by apply list_elem_of_In|].
  destruct b; try discriminate HABC. cbn in HABC.
  by apply String.eqb_eq in HABC as ->.
Qed.

(** C7. For every class definition that [_parse_class] parses: the output
    holds exactly one Class entity, the class's own; with two named bases
    other than the sentinel ABC it holds exactly two INHERITS_FROM
    relationships, one per base, in order; with the sentinel as its only
    base it holds no INHERITS_FROM relationship and the class entity has
    is_abstract true; and a class none of whose bases is the sentinel name
    has is_abstract false. *)
Theorem inheritance_and_abstract_sentinel
    (cleandoc : string -> string) (unparse : expr -> option string)
    (recursion_limit : nat)
    (module_path cname : string) (bases : list expr) (body : list stmt)
    (decorator_list : list expr) (lineno : Z)
    (es : list EntityInfo) (rs : list RelationshipInfo) :
  _parse_class cleandoc unparse recursion_limit module_path
    (ClassDef cname bases body decorator_list lineno) = Some (es, rs) ->
  exists cls,
    entities_of CLASS es = [cls] /\
    name cls = module_path +:+ "." +:+ cname /\
    (forall b1 b2,
       bases = [Name b1; Name b2] ->
       b1 <> "" -> b1 <> "ABC" -> b2 <> "" -> b2 <> "ABC" ->
       relationships_of INHERITS_FROM rs
       = [mk_RelationshipInfo INHERITS_FROM
            (module_path +:+ "." +:+ cname) b1 [];
          mk_RelationshipInfo INHERITS_FROM
            (module_path +:+ "." +:+ cname) b2 []]) /\
    (bases = [Name "ABC"] ->
       relationships_of INHERITS_FROM rs = [] /\
       dict_get "is_abstract" (properties cls) = Some (PyBool true)) /\
    ((forall b, b ∈ bases -> b <> Name "ABC") ->
       dict_get "is_abstract" (properties cls) = Some (PyBool false)).
Proof.
  intros H. apply _parse_class_emission in H.
  apply class_emission_inherits in H as (Hinh & cls & Hcls & Hent & Habs).
  exists cls. split; [exact Hcls|]. split; [apply Hent|].
  rewrite Hinh, Habs. clear Hinh Habs. split; [|split].
  - intros b1 b2 -> H1 H1' H2 H2'.
    unfold inherits_from, inherited_names. cbn [omap list_omap
      node_name List.filter].
    rewrite !truthy_true by done.
    destruct (String.eqb_spec b1 "ABC"); [done|].
    destruct (String.eqb_spec b2 "ABC"); [done|]. reflexivity.
  - intros ->. split; reflexivity.
  - intros Hb. by rewrite existsb_is_ABC_false.
Qed.

Lemma inheritance_and_abstract_sentinel_witness :
  exists es rs,
    _parse_class (fun s => s) (fun _ => None) 1000 "pkg.mod"
      (ClassDef "Child" [Name "Base1"; Name "Base2"] [] [] 1)
    = Some (es, rs) /\
    relationships_of INHERITS_FROM rs
    = [mk_RelationshipInfo INHERITS_FROM "pkg.mod.Child" "Base1" [];
       mk_RelationshipInfo INHERITS_FROM "pkg.mod.Child" "Base2" []].
Proof.
  eexists _, _. split; [reflexivity|].
  destruct (inheritance_and_abstract_sentinel (fun s => s) (fun _ => None) 1000
              "pkg.mod" "Child" [Name "Base1"; Name "Base2"] [] [] 1 _ _
              eq_refl) as (cls & _ & _ & Htwo & _).
  apply (Htwo "Base1" "Base2"); [reflexivity|discriminate..].
Defined.

(** ** From-imports without a source module *)

(** C10. A from-import whose source module is absent appends one Import
    entity with module_name the empty string and is_from_import true, and no
    relationship; and whatever the source module, a from-import appends an
    IMPORTS relationship exactly when the source module name is not empty,
    the edge going from the module to that name. *)
Theorem relative_from_import_has_no_edge (module_path : string)
    (names : list alias) (lineno : Z) :
  _parse_import module_path (ImportFrom None names lineno)
  = Some
      ([mk_EntityInfo IMPORT (module_path +:+ ".import.") lineno
          [("module_name", PyStr "");
           ("imported_names", PyList (map alias_name names));
           ("is_from_import", PyBool true)]],
       []) /\
  forall module : option string,
    exists e,
      entity_type e = IMPORT /\
      dict_get "is_from_import" (properties e) = Some (PyBool true) /\
      dict_get "module_name" (properties e)
      = Some (PyStr (default "" module)) /\
      _parse_import module_path (ImportFrom module names lineno)
      = Some ([e],
              if bool_decide (default "" module = "") then []
              else [mk_RelationshipInfo IMPORTS module_path
                      (default "" module) []]).
Proof.
  split; [reflexivity|]. intros module.
  eexists. split; [|split; [|split]]; [| | |cbn [_parse_import]].
  4:{ unfold truthy.
      destruct (String.eqb_spec (default "" module) "") as [Heq|Hne].
      - rewrite bool_decide_eq_true_2 by done. reflexivity.
      - rewrite bool_decide_eq_false_2 by done. reflexivity. }
  all: reflexivity.
Qed.

(** ** The guard on free-form queries *)

Lemma upper_ascii_same_letter (c d : ascii) :
  same_letter c d <-> upper_ascii c = upper_ascii d.
Proof.
  assert (Hup : forall u l, letter_pair u l ->
                            upper_ascii u = u /\ upper_ascii l = u).
  { intros u l [Hu Hl]. unfold upper_ascii. rewrite Hl.
    destruct (Nat.leb_spec 97 (nat_of_ascii u)); [lia|]. cbn [andb].
    destruct (Nat.leb_spec 97 (nat_of_ascii u + 32)); [|lia].
    destruct (Nat.leb_spec (nat_of_ascii u + 32) 122); [|lia]. cbn [andb].
    split; [done|].
    replace (nat_of_ascii u + 32 - 32)%nat with (nat_of_ascii u) by lia.
    apply ascii_nat_embedding. }
  split.
  - intros [->|[H|H]]; [done|..]; apply Hup in H as [H1 H2]; congruence.
  - assert (Hcase : forall a, upper_ascii a = a \/ letter_pair (upper_ascii a) a).
    { intros a. unfold upper_ascii.
      destruct (Nat.leb_spec 97 (nat_of_ascii a)) as [H1|]; [|by left].
      destruct (Nat.leb_spec (nat_of_ascii a) 122) as [H2|]; [|by left].
      right. cbn [andb]. unfold letter_pair.
      rewrite nat_ascii_embedding by lia. lia. }
    intros Heq. destruct (Hcase c) as [Hc|Hc], (Hcase d) as [Hd|Hd].
    + left. congruence.
    + right. left. rewrite <- Heq, Hc in Hd. exact Hd.
    + right. right. rewrite Heq, Hd in Hc. exact Hc.
    + left. rewrite Heq in Hc.
      destruct Hc as [_ Hc], Hd as [_ Hd].
      rewrite <- (ascii_nat_embedding c), <- (ascii_nat_embedding d).
      congruence.
Qed.

Lemma upper_same_ignoring_case (v w : string) :
  same_ignoring_case v w <-> upper_letters v = upper_letters w.
Proof.
  split.
  - induction 1 as [|c d s t Hcd _ IH]; [reflexivity|].
    cbn. apply upper_ascii_same_letter in Hcd. congruence.
  - revert w. induction v as [|c v IH]; intros [|d w] H; try discriminate.
    + constructor.
    + cbn in H. injection H as Hcd H. constructor.
      * by apply upper_ascii_same_letter.
      * by apply IH.
Qed.

Lemma upper_letters_app (a b : string) :
  upper_letters (a +:+ b) = upper_letters a +:+ upper_letters b.
Proof. induction a as [|c a IH]; [reflexivity|]. cbn. by rewrite IH. Qed.

Lemma upper_split (q a b : string) :
  upper_letters q = a +:+ b ->
  exists qa qb,
    q = qa +:+ qb /\ upper_letters qa = a /\ upper_letters qb = b.
Proof.
  revert q. induction a as [|c a IH]; intros q H.
  - by exists EmptyString, q.
  - destruct q as [|d q]; [discriminate|]. cbn in H. injection H as Hc H.
    destruct (IH _ H) as (qa & qb & -> & <- & <-).
    exists (String d qa), qb. cbn. by rewrite Hc.
Qed.

Lemma prefix_spec (a b : string) :
  String.prefix a b = true <-> exists post, b = a +:+ post.
Proof.
  revert b. induction a as [|c a IH]; intros [|d b]; cbn.
  - split; [by exists ""|done].
  - split; [by exists (String d b)|done].
  - split; [done|]. by intros [post H].
  - destruct (Ascii.ascii_dec c d) as [->|Hne].
    + rewrite IH. split; intros [post H]; exists post; congruence.
    + split; [done|]. intros [post H]. congruence.
Qed.

Lemma contains_spec (needle haystack : string) :
  contains needle haystack = true <->
  exists pre post, haystack = pre +:+ needle +:+ post.
Proof.
  induction haystack as [|c h IH]; cbn [contains].
  - rewrite orb_false_r, prefix_spec. split.
    + intros [post H]. by exists EmptyString, post.
    + intros (pre & post & H). destruct pre; [by exists post|discriminate].
  - rewrite orb_true_iff, prefix_spec, IH. split.
    + intros [[post H]|(pre & post & H)].
      * by exists EmptyString, post.
      * exists (String c pre), post. cbn. by rewrite H.
    + intros ([|d pre] & post & H).
      * left. by exists post.
      * right. exists pre, post. cbn in H. congruence.
Qed.

(** The check on the letters a to z alone: it finds a keyword exactly in
    the queries that hold one in some letter case. *)
Lemma keyword_in_upper_letters (keywords : list string) (query : string) :
  (forall k, In k keywords -> upper_letters k = k) ->
  existsb (fun keyword => contains keyword (upper_letters query)) keywords
  = true <->
  exists keyword, keyword ∈ keywords /\ occurs_in_any_case keyword query.
Proof.
  intros Hup. rewrite existsb_exists. split.
  - intros (k & Hk & (pre & post & H)%contains_spec).
    exists k. split; [by apply list_elem_of_In|].
    apply upper_split in H as (qa & q' & -> & _ & H).
    apply upper_split in H as (v & qb & -> & Hv & _).
    exists qa, v, qb. split; [done|].
    apply upper_same_ignoring_case. by rewrite (Hup k Hk).
  - intros (k & Hk%list_elem_of_In & pre & v & post & -> & Hv).
    exists k. split; [done|]. apply contains_spec.
    exists (upper_letters pre), (upper_letters post).
    rewrite !upper_letters_app.
    apply upper_same_ignoring_case in Hv. by rewrite Hv, (Hup k Hk).
Qed.

Lemma append_assoc (a b c : string) : (a +:+ b) +:+ c = a +:+ b +:+ c.
Proof. induction a as [|x a IH]; [reflexivity|]. cbn. by rewrite IH. Qed.

Lemma occurs_in_any_case_app (keyword pre post query : string) :
  occurs_in_any_case keyword query ->
  occurs_in_any_case keyword (pre +:+ query +:+ post).
Proof.
  intros (a & v & b & -> & Hv). exists (pre +:+ a), v, (b +:+ post).
  split; [|done]. by rewrite !append_assoc.
Qed.

(** The list of the code and the list of the specification name the same
    queries: DETACH DELETE holds DELETE. *)
Lemma dangerous_iff_mentions_mutation (query : string) :
  (exists keyword,
     keyword ∈ dangerous_keywords /\ occurs_in_any_case keyword query)
  <-> mentions_mutation query.
Proof.
  unfold mentions_mutation, dangerous_keywords, mutation_keywords. split.
  - intros (k & Hk%list_elem_of_In & Hocc).
    destruct (decide (k = "DETACH DELETE")) as [->|Hne].
    + exists "DELETE". split; [by left|].
      destruct Hocc as (pre & v & post & -> & Hv).
      apply upper_same_ignoring_case in Hv.
      change (upper_letters "DETACH DELETE")
        with ("DETACH " +:+ "DELETE") in Hv.
      apply upper_split in Hv as (a & b & -> & _ & Hb).
      exists (pre +:+ a), b, post. split.
      * by rewrite !append_assoc.
      * by apply upper_same_ignoring_case.
    + exists k. split; [|done]. apply list_elem_of_In.
      cbn in Hk |- *. intuition congruence.
  - intros (k & Hk%list_elem_of_In & Hocc). exists k. split; [|done].
    apply list_elem_of_In. cbn in Hk |- *. intuition congruence.
Qed.

Lemma dangerous_keywords_upper (k : string) :
  In k dangerous_keywords -> upper_letters k = k.
Proof. intros Hk. cbn in Hk. intuition (subst; reflexivity). Qed.

(** *** Upper case outside ASCII *)

Lemma upper_cons_ascii (c : ascii) (s : string) :
  is_ascii c = true -> upper (String c s) = String (upper_ascii c) (upper s).
Proof. intros H. cbn [upper]. by rewrite H. Qed.

Lemma upper_written_in_ascii (s : string) :
  written_in_ascii s = true -> upper s = upper_letters s.
Proof.
  unfold written_in_ascii. induction s as [|c s IH]; [reflexivity|].
  cbn [all_chars]. intros [Hc Hs]%andb_prop.
  rewrite (upper_cons_ascii _ _ Hc). cbn [upper_letters]. by rewrite IH.
Qed.

Lemma upper_written_in_ascii_app (a b : string) :
  written_in_ascii a = true -> upper (a +:+ b) = upper_letters a +:+ upper b.
Proof.
  unfold written_in_ascii. induction a as [|c a IH]; [reflexivity|].
  cbn [all_chars]. intros [Hc Hs]%andb_prop.
  change (String c a +:+ b) with (String c (a +:+ b)).
  rewrite (upper_cons_ascii _ _ Hc). cbn. by rewrite IH.
Qed.

(** The characters of [upper_special] are encoded on two or three bytes,
    none of them below 128. *)
Lemma upper_of_special_bytes (character up : string) :
  upper_of_special character = Some up ->
  all_chars (fun c => negb (is_ascii c)) character = true.
Proof.
  unfold upper_of_special. intros H.
  destruct (List.find _ upper_special) as [[key v]|] eqn:Hf; [|discriminate].
  apply List.find_some in Hf as [Hin Heq]. cbn [fst] in Heq.
  apply String.eqb_eq in Heq as <-. clear H.
  cbn in Hin.
  repeat (destruct Hin as [Hin|Hin];
          [injection Hin as <- _; reflexivity|]).
  destruct Hin.
Qed.

Lemma upper_of_special_ascii_2 (c1 c2 : ascii) :
  is_ascii c2 = true ->
  upper_of_special (String c1 (String c2 EmptyString)) = None.
Proof.
  intros H.
  destruct (upper_of_special _) as [up|] eqn:Hu; [|reflexivity].
  apply upper_of_special_bytes in Hu. cbn [all_chars] in Hu.
  rewrite H in Hu. by rewrite andb_false_r in Hu.
Qed.

Lemma upper_of_special_ascii_3 (c1 c2 c3 : ascii) :
  is_ascii c2 = true \/ is_ascii c3 = true ->
  upper_of_special (String c1 (String c2 (String c3 EmptyString))) = None.
Proof.
  intros H.
  destruct (upper_of_special _) as [up|] eqn:Hu; [|reflexivity].
  apply upper_of_special_bytes in Hu. cbn [all_chars] in Hu.
  destruct H as [H|H]; rewrite H in Hu; cbn [negb andb] in Hu;
    by rewrite ?andb_false_r in Hu.
Qed.

Lemma upper_kept (c1 : ascii) (s1 : string) :
  is_ascii c1 = false -> no_special_at c1 s1 ->
  upper (String c1 s1) = String c1 (upper s1).
Proof.
  intros Hc H. cbn [upper]. rewrite Hc.
  destruct s1 as [|c2 s2]; [reflexivity|]. destruct H as [-> H].
  destruct s2 as [|c3 s3]; [reflexivity|]. by rewrite H.
Qed.

Lemma upper_special_2 (c1 c2 : ascii) (s up : string) :
  is_ascii c1 = false ->
  upper_of_special (String c1 (String c2 EmptyString)) = Some up ->
  upper (String c1 (String c2 s)) = up +:+ upper s.
Proof. intros Hc H. cbn [upper]. by rewrite Hc, H. Qed.

Lemma upper_special_3 (c1 c2 c3 : ascii) (s up : string) :
  is_ascii c1 = false ->
  upper_of_special (String c1 (String c2 EmptyString)) = None ->
  upper_of_special (String c1 (String c2 (String c3 EmptyString))) = Some up ->
  upper (String c1 (String c2 (String c3 s))) = up +:+ upper s.
Proof. intros Hc H2 H3. cbn [upper]. by rewrite Hc, H2, H3. Qed.

Lemma upper_app_ascii (a b : string) :
  starts_in_ascii b -> upper (a +:+ b) = upper a +:+ upper b.
Proof.
  intros Hb.
  assert (H : forall n a, (String.length a <= n)%nat ->
                          upper (a +:+ b) = upper a +:+ upper b).
  { clear a. induction n as [|n IH]; intros a Hn.
    - destruct a; [reflexivity|cbn in Hn; lia].
    - destruct a as [|c1 a]; [reflexivity|].
      change (String c1 a +:+ b) with (String c1 (a +:+ b)).
      cbn [String.length] in Hn.
      destruct (is_ascii c1) eqn:Hc1.
      { rewrite !(upper_cons_ascii _ _ Hc1), IH by lia. reflexivity. }
      destruct a as [|c2 a].
      { cbn [String.append].
        rewrite (upper_kept c1 EmptyString Hc1 I).
        rewrite (upper_kept c1 b Hc1); [reflexivity|].
        destruct b as [|y b]; [done|]. cbn in Hb.
        split; [by apply upper_of_special_ascii_2|].
        destruct b; [done|]. apply upper_of_special_ascii_3. by left. }
      change (String c2 a +:+ b) with (String c2 (a +:+ b)).
      cbn [String.length] in Hn.
      destruct (upper_of_special (String c1 (String c2 EmptyString)))
        as [up|] eqn:H2.
      { rewrite !(upper_special_2 _ _ _ _ Hc1 H2), IH by lia.
        by rewrite append_assoc. }
      destruct a as [|c3 a].
      { cbn [String.append].
        rewrite (upper_kept c1 (String c2 EmptyString) Hc1) by done.
        rewrite (upper_kept c1 (String c2 b) Hc1).
        - change (String c2 b) with (String c2 EmptyString +:+ b).
          rewrite IH by (cbn; lia). reflexivity.
        - split; [done|]. destruct b as [|y b]; [done|].
          apply upper_of_special_ascii_3. by right. }
      change (String c3 a +:+ b) with (String c3 (a +:+ b)).
      cbn [String.length] in Hn.
      destruct (upper_of_special
                  (String c1 (String c2 (String c3 EmptyString))))
        as [up|] eqn:H3.
      { rewrite !(upper_special_3 _ _ _ _ _ Hc1 H2 H3), IH by lia.
        by rewrite append_assoc. }
      rewrite !(upper_kept c1 _ Hc1) by done.
      change (String c2 (String c3 (a +:+ b)))
        with (String c2 (String c3 a) +:+ b).
      rewrite IH by (cbn; lia). reflexivity. }
  by apply (H (String.length a)).
Qed.

Lemma same_ignoring_case_ascii (v k : string) :
  same_ignoring_case v k -> written_in_ascii k = true ->
  written_in_ascii v = true.
Proof.
  unfold written_in_ascii.
  induction 1 as [|c d s t Hcd _ IH]; [done|]. cbn [all_chars].
  intros [Hd Ht]%andb_prop. rewrite (IH Ht), andb_true_r.
  unfold is_ascii in *. apply Nat.ltb_lt. apply Nat.ltb_lt in Hd.
  destruct Hcd as [->|[[H1 H2]|[H1 H2]]]; lia.
Qed.

(** [validate_query] rejects exactly the queries whose upper case holds one
    of the keywords of its list. *)
Lemma validate_query_false (query : string) :
  validate_query query = false <-> keyword_in_upper query.
Proof.
  unfold validate_query, keyword_in_upper.
  rewrite negb_false_iff, existsb_exists. split.
  - intros (k & Hk & (pre & post & H)%contains_spec).
    exists k, pre, post. split; [by apply list_elem_of_In|done].
  - intros (k & pre & post & Hk%list_elem_of_In & H).
    exists k. split; [done|]. apply contains_spec. by exists pre, post.
Qed.

(** A keyword in any letter case is a keyword of the upper-cased query. *)
Lemma occurs_in_upper (keyword query : string) :
  keyword ∈ dangerous_keywords -> occurs_in_any_case keyword query ->
  validate_query query = false.
Proof.
  intros Hk (pre & v & post & -> & Hv). apply validate_query_false.
  apply list_elem_of_In in Hk.
  assert (Ha : written_in_ascii v = true).
  { apply (same_ignoring_case_ascii v keyword Hv).
    cbn in Hk. intuition (subst; reflexivity). }
  assert (Hs : starts_in_ascii (v +:+ post)).
  { destruct v as [|c v]; [|by apply andb_prop in Ha as [Ha _]].
    inversion Hv as [H|]; subst. cbn in Hk. intuition discriminate. }
  exists keyword, (upper pre), (upper post).
  split; [by apply list_elem_of_In|].
  rewrite (upper_app_ascii _ _ Hs), (upper_written_in_ascii_app _ _ Ha).
  apply upper_same_ignoring_case in Hv.
  by rewrite Hv, (dangerous_keywords_upper keyword Hk).
Qed.

(** On a query written in ASCII the check is the check on the letters. *)
Lemma validate_query_written_in_ascii (query : string) :
  written_in_ascii query = true ->
  validate_query query = false <->
  exists keyword,
    keyword ∈ dangerous_keywords /\ occurs_in_any_case keyword query.
Proof.
  intros Ha. unfold validate_query.
  rewrite (upper_written_in_ascii _ Ha), negb_false_iff.
  apply keyword_in_upper_letters, dangerous_keywords_upper.
Qed.

(** C6, as the code has it. A query that holds DELETE, REMOVE, SET, DROP or
    CREATE CONSTRAINT in any letter case is refused by [validate_query],
    and [execute_query] raises for it without any call on the database.
    Every query that [validate_query] accepts is run: [execute_query] asks
    for the client and, once it has it, hands the query unchanged to
    [execute_read], whose records it returns.  A query written in ASCII
    that holds none of the keywords in any letter case is accepted; in
    general a query is refused exactly when its upper case, as [str.upper]
    gives it, holds a keyword of the list. *)
Theorem validate_query_guards_execution (db : database) (query : string) :
  (mentions_mutation query ->
   validate_query query = false /\
   exists msg, execute_query db query = (inl msg, [])) /\
  (validate_query query = true ->
   snd (execute_query db query)
   = GetClient :: match db_connect db with
                  | None => [ExecuteRead query]
                  | Some _ => []
                  end /\
   forall result,
     db_connect db = None -> db_read db query = inr result ->
     fst (execute_query db query)
     = inr (mk_query_result query (parse_cypher_result result)
              (length result))) /\
  (written_in_ascii query = true -> ~ mentions_mutation query ->
   validate_query query = true) /\
  (validate_query query = false <-> keyword_in_upper query).
Proof.
  split; [|split; [|split]].
  - intros (k & Hk & Hocc)%dangerous_iff_mentions_mutation.
    assert (H := occurs_in_upper k query Hk Hocc).
    split; [exact H|]. unfold execute_query. rewrite H. by eexists.
  - intros Hv. unfold execute_query. rewrite Hv. cbn [negb]. split.
    + destruct (db_connect db); [reflexivity|].
      by destruct (db_read db query).
    + intros result -> ->. reflexivity.
  - intros Ha H. apply not_false_is_true. intros Hf.
    by apply H, dangerous_iff_mentions_mutation,
      (validate_query_written_in_ascii query Ha).
  - apply validate_query_false.
Qed.

(** C6, as stated, fails: a query can hold no mutation keyword in any
    letter case and still be refused.  The query of [long_s_query] names a
    node by the word set written with a long s; [str.upper] turns the long
    s into S, the upper-cased query holds SET, and [execute_query] raises
    without any call on the database.  The same happens to
    [sharp_s_query], whose sharp s becomes SS in front of ET. *)
Lemma long_s_query_is_refused :
  ~ mentions_mutation long_s_query /\
  validate_query long_s_query = false /\
  upper long_s_query = "MATCH (N) WHERE N.NAME = 'SET' RETURN N" /\
  execute_query empty_database long_s_query
  = (inl ("Query execution failed: "
          +:+ "[GraphQuery] Query contains dangerous operations"), []) /\
  ~ mentions_mutation sharp_s_query /\
  validate_query sharp_s_query = false /\
  upper sharp_s_query = "MATCH (N) WHERE N.NAME = 'GROSSETAGE' RETURN N".
Proof.
  assert (Hdec : forall q,
            existsb (fun keyword => contains keyword (upper_letters q))
              dangerous_keywords = false ->
            ~ mentions_mutation q).
  { intros q Hq H%dangerous_iff_mentions_mutation.
    apply (keyword_in_upper_letters _ _ dangerous_keywords_upper) in H.
    by rewrite Hq in H. }
  split; [by apply Hdec|]. do 3 (split; [by vm_compute|]).
  split; [by apply Hdec|]. split; by vm_compute.
Qed.

(** ** The job loop *)

Lemma index_file_unparsed (cleandoc : string -> string)
    (unparse : expr -> option string)
    (recursion_limit : nat) (client_ok : bool) (file : py_file)
    (g : graph) :
  tree_of file = None ->
  index_file cleandoc unparse recursion_limit client_ok file g = (None, g).
Proof.
  intros H. unfold index_file, extract. rewrite H.
  by destruct (get_module_path (relative_parts_of file)).
Qed.

(** An extraction starts with the Module entity: the batch of a file is
    never empty. *)
Lemma extract_has_module (cleandoc : string -> string)
    (unparse : expr -> option string)
    (recursion_limit : nat) (file : py_file) (mp : string)
    (es : list EntityInfo) (rs : list RelationshipInfo) :
  extract cleandoc unparse recursion_limit file = Some (mp, es, rs) -> es <> [].
Proof.
  unfold extract. destruct (get_module_path _) as [mp'|]; [|done].
  destruct (parse_file _ _ _ _ _ _) as [[es' rs']|] eqn:Hp; [|done].
  intros [= <- <- <-]. destruct (tree_of file) as [tree|]; [|done].
  cbn [parse_file] in Hp.
  apply and_then_Some in Hp as (e1 & r1 & e2 & r2 & He & _ & -> & _).
  by injection He as <- _.
Qed.

Lemma build_queries_nonempty (e : EntityInfo) (es : list EntityInfo)
    (rs : list RelationshipInfo) :
  build_queries (e :: es) rs <> Some [].
Proof.
  unfold build_queries. cbn [collect].
  destruct (entity_query e); [|done].
  destruct (collect entity_query es); [|done].
  by destruct (collect relationship_query rs).
Qed.

(** The batch write never enters its transaction: it raises for every
    batch and leaves the graph as it was. *)
Lemma execute_batch_write_raises (queries : list query) (g : graph) :
  execute_batch_write queries g = (None, g).
Proof. reflexivity. Qed.

(** So [index_file] never returns: it raises [IndexerError], unless the
    task is cancelled once the file is parsed, and the graph stays as it
    was. *)
Lemma index_file_outcome (cleandoc : string -> string)
    (unparse : expr -> option string)
    (recursion_limit : nat) (client_ok : bool) (file : py_file)
    (g : graph) :
  index_file cleandoc unparse recursion_limit client_ok file g
  = (match extract cleandoc unparse recursion_limit file with
     | Some _ =>
         if cancelled_while_indexed file then Some Cancelled else None
     | None => None
     end, g).
Proof.
  unfold index_file.
  destruct (extract cleandoc unparse recursion_limit
              file) as [[[mp es] rs]|] eqn:Hx;
    [|done].
  destruct (cancelled_while_indexed file); [done|].
  destruct client_ok; [|done]. cbn [negb].
  destruct (build_queries es rs) as [queries|] eqn:Hq; [|done].
  destruct queries as [|q queries]; [|done].
  apply extract_has_module in Hx. destruct es as [|e es]; [done|].
  by apply build_queries_nonempty in Hq.
Qed.






(** ** Persistence: the meaning of a batch *)

Lemma set_properties_lookup (kvs : list (string * pyval))
    (m : gmap string pyval) (k : string) :
  fold_left set_property kvs m !! k
  = match last_value k kvs with
    | Some v => stored v
    | None => m !! k
    end.
Proof.
  revert m. induction kvs as [|[k' v] kvs IH]; intros m; [reflexivity|].
  cbn [fold_left last_value]. rewrite IH.
  destruct (last_value k kvs) as [w|]; [reflexivity|].
  unfold set_property. cbn [fst snd].
  destruct (String.eqb_spec k' k) as [->|Hne].
  - destruct v; cbn [stored];
      rewrite ?lookup_insert_eq, ?lookup_delete_eq; reflexivity.
  - destruct v; rewrite ?lookup_insert_ne, ?lookup_delete_ne by done;
      reflexivity.
Qed.

Lemma last_value_None (k : string) (kvs : list (string * pyval)) :
  k ∉ map fst kvs -> last_value k kvs = None.
Proof.
  induction kvs as [|[k' v] kvs IH]; [reflexivity|].
  cbn [map fst last_value]. intros H.
  rewrite IH by (intros ?; apply H; by right).
  destruct (String.eqb_spec k' k) as [->|]; [|reflexivity].
  exfalso. apply H. by left.
Qed.

(** Assigning again what was assigned last changes nothing: after the
    assignments [k], running [K] and then [k] once more gives the same
    properties whenever [K] alone changes nothing. *)
Lemma set_properties_absorb (k K : list (string * pyval))
    (m : gmap string pyval) :
  fold_left set_property K m = m ->
  fold_left set_property k
    (fold_left set_property K (fold_left set_property k m))
  = fold_left set_property k m.
Proof.
  intros HK. apply map_eq. intros x.
  rewrite !set_properties_lookup.
  destruct (last_value x k) as [v|] eqn:Hk; [reflexivity|].
  pose proof (f_equal (fun m' => m' !! x) HK) as Hx. cbn in Hx.
  rewrite set_properties_lookup in Hx.
  destruct (last_value x K) as [w|]; [exact Hx|reflexivity].
Qed.

Lemma node_eta (n : node) : mk_node (labels n) (props n) = n.
Proof. by destruct n. Qed.

Lemma set_properties_nil (n : node) : set_properties [] n = n.
Proof. apply node_eta. Qed.

Lemma set_properties_app (k1 k2 : list (string * pyval)) (n : node) :
  set_properties k2 (set_properties k1 n) = set_properties (k1 ++ k2) n.
Proof. unfold set_properties. cbn. by rewrite fold_left_app. Qed.

Lemma node_matches_same_key (u : upsert) (n n' : node) :
  same_key n n' -> node_matches u n = node_matches u n'.
Proof.
  intros [Hl Hn]. unfold node_matches, has_name. by rewrite Hl, Hn.
Qed.

Lemma has_name_same_key (v : pyval) (n n' : node) :
  same_key n n' -> has_name v n = has_name v n'.
Proof. intros [_ Hn]. unfold has_name. by rewrite Hn. Qed.

Lemma set_properties_same_key (kvs : list (string * pyval)) (n : node) :
  "name" ∉ map fst kvs -> same_key (set_properties kvs n) n.
Proof.
  intros H. split; [reflexivity|]. cbn.
  by rewrite set_properties_lookup, last_value_None.
Qed.

Lemma touch_same_key (u : upsert) (n : node) :
  keyed_upsert u -> same_key (touch u n) n.
Proof.
  intros [_ H]. unfold touch. destruct (node_matches u n); [|done].
  by apply set_properties_same_key.
Qed.

Lemma touch_all_same_key (us : list upsert) (n : node) :
  Forall keyed_upsert us -> same_key (touch_all us n) n.
Proof.
  intros H. revert n. induction H as [|u us Hu _ IH]; intros n; [done|].
  change (same_key (touch_all us (touch u n)) n).
  destruct (IH (touch u n)) as [H1 H2].
  destruct (touch_same_key u n Hu) as [H3 H4].
  split; congruence.
Qed.

(** What a batch of upserts does to one node: the assignments of the
    upserts that match it, in order. *)
Lemma touch_all_set_properties (us : list upsert) (n : node) :
  Forall keyed_upsert us ->
  touch_all us n
  = set_properties
      (flat_map up_props (List.filter (fun u => node_matches u n) us)) n.
Proof.
  intros H. revert n. induction H as [|u us Hu _ IH]; intros n.
  - cbn. by rewrite set_properties_nil.
  - cbn [touch_all fold_left List.filter]. fold (touch_all us (touch u n)).
    rewrite IH.
    rewrite (List.filter_ext (fun u0 => node_matches u0 (touch u n))
               (fun u0 => node_matches u0 n))
      by (intros u0; apply node_matches_same_key, touch_same_key, Hu).
    unfold touch. destruct (node_matches u n); [|reflexivity].
    cbn [flat_map]. by rewrite set_properties_app.
Qed.

Lemma existsb_node_matches_map (u u' : upsert) (ns : list node) :
  keyed_upsert u' ->
  existsb (node_matches u) (map (touch u') ns) = existsb (node_matches u) ns.
Proof.
  intros Hu'. induction ns as [|n ns IH]; [reflexivity|]. cbn.
  by rewrite IH, (node_matches_same_key u _ n (touch_same_key u' n Hu')).
Qed.

Lemma existsb_node_matches_upsert (u u' : upsert) (ns : list node) :
  keyed_upsert u' ->
  existsb (node_matches u) ns = true ->
  existsb (node_matches u) (upsert_nodes u' ns) = true.
Proof.
  intros Hu' H. unfold upsert_nodes. rewrite existsb_node_matches_map by done.
  unfold merge_node. destruct (existsb (node_matches u') ns); [done|].
  by rewrite existsb_app, H.
Qed.

Lemma node_matches_fresh (u u' : upsert) :
  node_matches u (mk_node [up_label u'] {[ "name" := up_name u' ]}) = true
  <-> up_label u = up_label u' /\ up_name u = up_name u'
      /\ up_name u <> PyNone.
Proof.
  unfold node_matches, has_name. cbn [labels props].
  rewrite andb_true_iff, bool_decide_eq_true, list_elem_of_singleton.
  rewrite lookup_singleton_eq. split.
  - intros [Hl Hn]. split; [done|].
    destruct (up_name u); try discriminate;
      apply bool_decide_eq_true in Hn; injection Hn as Hn; rewrite Hn;
      (split; [reflexivity|discriminate]).
  - intros (Hl & Hn & Hne). split; [done|]. rewrite <- Hn.
    destruct (up_name u); try done; by apply bool_decide_eq_true.
Qed.

(** After an upsert, some node matches its pattern. *)
Lemma upsert_nodes_matched (u : upsert) (ns : list node) :
  keyed_upsert u -> existsb (node_matches u) (upsert_nodes u ns) = true.
Proof.
  intros Hu. unfold upsert_nodes. rewrite existsb_node_matches_map by done.
  unfold merge_node. destruct (existsb (node_matches u) ns) eqn:H; [done|].
  rewrite existsb_app, H. cbn. rewrite orb_false_r.
  apply node_matches_fresh. by destruct Hu.
Qed.

Lemma run_upserts_keeps_match (u : upsert) (us : list upsert)
    (ns : list node) :
  Forall keyed_upsert us ->
  existsb (node_matches u) ns = true ->
  existsb (node_matches u) (run_upserts us ns) = true.
Proof.
  intros H. revert ns. induction H as [|u' us Hu' _ IH]; intros ns Hm;
    [done|].
  cbn. apply IH. by apply existsb_node_matches_upsert.
Qed.

(** After a batch of upserts, the pattern of each of them matches. *)
Lemma run_upserts_matched (us : list upsert) (ns : list node) :
  Forall keyed_upsert us ->
  Forall (fun u => existsb (node_matches u) (run_upserts us ns) = true) us.
Proof.
  intros H. revert ns. induction H as [|u us Hu Hus IH]; intros ns;
    constructor.
  - cbn. apply run_upserts_keeps_match; [done|].
    by apply upsert_nodes_matched.
  - apply IH.
Qed.

(** When every pattern already matches, the batch creates no node and acts
    on each node separately. *)
Lemma run_upserts_pointwise (us : list upsert) (ns : list node) :
  Forall keyed_upsert us ->
  Forall (fun u => existsb (node_matches u) ns = true) us ->
  run_upserts us ns = map (touch_all us) ns.
Proof.
  intros H. revert ns. induction H as [|u us Hu _ IH]; intros ns Hm.
  - cbn. by rewrite map_id.
  - inversion Hm as [|? ? Hmu Hmus]; subst. cbn [run_upserts fold_left].
    fold (run_upserts us (upsert_nodes u ns)).
    unfold upsert_nodes, merge_node. rewrite Hmu.
    rewrite IH.
    + rewrite map_map. reflexivity.
    + eapply Forall_impl; [exact Hmus|]. cbn. intros u' Hu'.
      by rewrite existsb_node_matches_map.
Qed.

Lemma touch_absorb (u : upsert) (us : list upsert) (n : node) :
  keyed_upsert u -> Forall keyed_upsert us ->
  touch_all us n = n ->
  touch u (touch_all us (touch u n)) = touch u n.
Proof.
  intros Hu Hus Hfix.
  rewrite touch_all_set_properties in Hfix |- * by done.
  rewrite (List.filter_ext (fun u0 => node_matches u0 (touch u n))
             (fun u0 => node_matches u0 n))
    by (intros u0; apply node_matches_same_key, touch_same_key, Hu).
  set (K := flat_map up_props (List.filter (fun u0 => node_matches u0 n) us))
    in *.
  assert (HK : "name" ∉ map fst K).
  { unfold K. clear Hfix K. induction Hus as [|u0 us [_ Hu0] _ IH]; cbn.
    - by intros ?%elem_of_nil.
    - destruct (node_matches u0 n); [|exact IH]. cbn.
      rewrite map_app. intros [?|?]%elem_of_app; done. }
  unfold touch at 1.
  rewrite (node_matches_same_key u _ (touch u n))
    by (by apply set_properties_same_key).
  rewrite (node_matches_same_key u _ n) by (by apply touch_same_key).
  unfold touch. destruct (node_matches u n).
  - unfold set_properties. cbn [labels props]. f_equal.
    apply set_properties_absorb.
    exact (f_equal props Hfix).
  - exact Hfix.
Qed.

Lemma existsb_pointwise {A : Type} (f g : A -> bool) (l : list A) :
  (forall x, f x = g x) -> existsb f l = existsb g l.
Proof.
  intros H. induction l as [|x l IH]; [reflexivity|]. cbn. by rewrite H, IH.
Qed.

Lemma node_matches_same_pattern (u u' : upsert) (n : node) :
  up_label u = up_label u' -> up_name u = up_name u' ->
  node_matches u n = node_matches u' n.
Proof. intros Hl Hn. unfold node_matches. by rewrite Hl, Hn. Qed.

(** Every node a batch of upserts leaves is left as it is by the batch
    acting on it once more. *)
Lemma run_upserts_fixed (us : list upsert) (ns : list node) :
  Forall keyed_upsert us ->
  Forall (fun n => touch_all us n = n) (run_upserts us ns).
Proof.
  induction us as [|u us IH] using rev_ind; intros Hus.
  - cbn. by apply Forall_forall.
  - apply Forall_app in Hus as [Hus Hu].
    apply Forall_cons in Hu as [Hu _]. specialize (IH Hus).
    unfold run_upserts, touch_all. rewrite fold_left_app. cbn [fold_left].
    fold (run_upserts us ns). unfold upsert_nodes.
    apply Forall_forall. intros n' (n0 & -> & Hn0)%list_elem_of_fmap.
    rewrite fold_left_app. cbn [fold_left]. fold (touch_all us (touch u n0)).
    apply touch_absorb; [done..|].
    unfold merge_node in Hn0.
    destruct (existsb (node_matches u) (run_upserts us ns)) eqn:Hex.
    { by apply (proj1 (Forall_forall _ _) IH). }
    apply elem_of_app in Hn0 as [Hn0|Hn0%list_elem_of_singleton].
    { by apply (proj1 (Forall_forall _ _) IH). }
    subst n0. rewrite touch_all_set_properties by done.
    rewrite filter_none; [apply set_properties_nil|].
    pose proof (run_upserts_matched us ns Hus) as Hm.
    apply List.Forall_forall. intros u0 Hu0.
    apply not_true_is_false. intros (Hl & Hn & _)%node_matches_fresh.
    apply (proj1 (List.Forall_forall _ _) Hm) in Hu0.
    rewrite (existsb_pointwise _ (node_matches u) _
               (fun n => node_matches_same_pattern u0 u n Hl Hn)) in Hu0.
    congruence.
Qed.

(** Running a batch of upserts twice leaves the nodes of running it once. *)
Lemma run_upserts_idempotent (us : list upsert) (ns : list node) :
  Forall keyed_upsert us ->
  run_upserts us (run_upserts us ns) = run_upserts us ns.
Proof.
  intros Hus.
  rewrite (run_upserts_pointwise us (run_upserts us ns))
    by (done || by apply run_upserts_matched).
  rewrite <- (map_id (run_upserts us ns)) at 2.
  apply map_ext_in. intros n Hn%list_elem_of_In.
  by apply (proj1 (Forall_forall _ _) (run_upserts_fixed us ns Hus)).
Qed.

(** *** Links *)

Lemma merge_edge_old (es : list edge) (e e' : edge) :
  e ∈ es -> e ∈ merge_edge es e'.
Proof.
  intros H. unfold merge_edge. case_bool_decide; [done|].
  apply elem_of_app. by left.
Qed.

Lemma merge_edge_new (es : list edge) (e : edge) : e ∈ merge_edge es e.
Proof.
  unfold merge_edge. case_bool_decide; [done|].
  apply elem_of_app. right. by apply list_elem_of_singleton.
Qed.

Lemma merge_edge_elem (es : list edge) (e e' : edge) :
  e ∈ merge_edge es e' -> e ∈ es \/ e = e'.
Proof.
  unfold merge_edge. case_bool_decide; [by left|].
  intros [?|?%list_elem_of_singleton]%elem_of_app; auto.
Qed.

Lemma merge_edges_old (rows es : list edge) (e : edge) :
  e ∈ es -> e ∈ fold_left merge_edge rows es.
Proof.
  revert es. induction rows as [|r rows IH]; intros es H; [done|].
  cbn. by apply IH, merge_edge_old.
Qed.

Lemma merge_edges_new (rows es : list edge) (r : edge) :
  r ∈ rows -> r ∈ fold_left merge_edge rows es.
Proof.
  revert es. induction rows as [|r' rows IH]; intros es H.
  - by apply elem_of_nil in H.
  - cbn. apply elem_of_cons in H as [->|H].
    + apply merge_edges_old, merge_edge_new.
    + by apply IH.
Qed.

Lemma merge_edges_elem (rows es : list edge) (e : edge) :
  e ∈ fold_left merge_edge rows es -> e ∈ es \/ e ∈ rows.
Proof.
  revert es. induction rows as [|r rows IH]; intros es H; [by left|].
  cbn in H. apply IH in H as [H|H].
  - apply merge_edge_elem in H as [H| ->]; [by left|].
    right. by left.
  - right. by right.
Qed.

Lemma merge_edges_present (rows es : list edge) :
  Forall (fun r => r ∈ es) rows -> fold_left merge_edge rows es = es.
Proof.
  induction 1 as [|r rows Hr _ IH]; [reflexivity|].
  cbn. unfold merge_edge at 2. by rewrite bool_decide_eq_true_2.
Qed.

Lemma run_links_old (ls : list link) (ns : list node) (es : list edge)
    (e : edge) :
  e ∈ es -> e ∈ run_links ls ns es.
Proof.
  revert es. induction ls as [|l ls IH]; intros es H; [done|].
  cbn. apply IH. by apply merge_edges_old.
Qed.

Lemma run_links_new (ls : list link) (ns : list node) (es : list edge)
    (l : link) (e : edge) :
  l ∈ ls -> e ∈ edge_rows l ns -> e ∈ run_links ls ns es.
Proof.
  revert es. induction ls as [|l' ls IH]; intros es Hl He.
  - by apply elem_of_nil in Hl.
  - cbn. apply elem_of_cons in Hl as [->|Hl].
    + apply run_links_old. by apply merge_edges_new.
    + by apply IH.
Qed.

Lemma run_links_elem (ls : list link) (ns : list node) (es : list edge)
    (e : edge) :
  e ∈ run_links ls ns es ->
  e ∈ es \/ exists l, l ∈ ls /\ e ∈ edge_rows l ns.
Proof.
  revert es. induction ls as [|l ls IH]; intros es H; [by left|].
  cbn in H. apply IH in H as [H|(l' & Hl' & H)].
  - apply merge_edges_elem in H as [H|H]; [by left|].
    right. exists l. split; [by left|done].
  - right. exists l'. split; [by right|done].
Qed.

Lemma run_links_present (ls : list link) (ns : list node) (es : list edge) :
  (forall l e, l ∈ ls -> e ∈ edge_rows l ns -> e ∈ es) ->
  run_links ls ns es = es.
Proof.
  induction ls as [|l ls IH]; intros H; [reflexivity|].
  cbn. unfold link_edges. rewrite merge_edges_present.
  - apply IH. intros l' e Hl'. apply H. by right.
  - apply Forall_forall. intros e He. apply (H l); [by left|done].
Qed.

(** Running the links of a batch twice over the same nodes adds nothing. *)
Lemma run_links_idempotent (ls : list link) (ns : list node)
    (es : list edge) :
  run_links ls ns (run_links ls ns es) = run_links ls ns es.
Proof.
  apply run_links_present. intros l e Hl He. by eapply run_links_new.
Qed.

(** *** A batch: upserts, then links *)

Lemma execute_all_upserts (us : list upsert) (g : graph) :
  execute_all (map Upsert us) g
  = mk_graph (run_upserts us (nodes g)) (edges g).
Proof.
  revert g. induction us as [|u us IH]; intros g; [by destruct g|].
  cbn. fold (execute_all (map Upsert us)). by rewrite IH.
Qed.

Lemma execute_all_links (ls : list link) (g : graph) :
  execute_all (map Link ls) g
  = mk_graph (nodes g) (run_links ls (nodes g) (edges g)).
Proof.
  revert g. induction ls as [|l ls IH]; intros g; [by destruct g|].
  cbn. fold (execute_all (map Link ls)). by rewrite IH.
Qed.

Lemma execute_all_batch (us : list upsert) (ls : list link) (g : graph) :
  execute_all (map Upsert us ++ map Link ls) g
  = mk_graph (run_upserts us (nodes g))
      (run_links ls (run_upserts us (nodes g)) (edges g)).
Proof.
  unfold execute_all. rewrite fold_left_app.
  fold (execute_all (map Upsert us) g).
  fold (execute_all (map Link ls) (execute_all (map Upsert us) g)).
  by rewrite execute_all_links, execute_all_upserts.
Qed.

(** A batch of keyed upserts followed by links is idempotent. *)
Lemma execute_all_idempotent (us : list upsert) (ls : list link)
    (g : graph) :
  Forall keyed_upsert us ->
  let batch := map Upsert us ++ map Link ls in
  execute_all batch (execute_all batch g) = execute_all batch g.
Proof.
  intros Hus batch. unfold batch. rewrite !execute_all_batch.
  cbn [nodes edges]. rewrite run_upserts_idempotent by done.
  by rewrite run_links_idempotent.
Qed.

Lemma run_all_execute_all (queries : list query) (g : graph) :
  run_all queries g
  = match collect bind_parameters queries with
    | Some bs => Some (execute_all bs g)
    | None => None
    end.
Proof.
  revert g. induction queries as [|q queries IH]; intros g; [reflexivity|].
  cbn [run_all collect]. unfold run_cypher.
  destruct (bind_parameters q) as [b|]; [|reflexivity].
  rewrite IH. by destruct (collect bind_parameters queries).
Qed.

(** ** The statements [index_file] builds *)

Lemma dict_keys_set (k : string) (v : pyval) (d : pydict) :
  dict_keys (dict_set k v d)
  = if bool_decide (k ∈ dict_keys d) then dict_keys d
    else dict_keys d ++ [k].
Proof.
  unfold dict_keys. induction d as [|[k' v'] d IH]; [reflexivity|].
  cbn [dict_set map fst]. destruct (String.eqb_spec k' k) as [->|Hne].
  - rewrite bool_decide_eq_true_2 by (by left). reflexivity.
  - cbn [map fst]. rewrite IH. case_bool_decide as Hin.
    + rewrite bool_decide_eq_true_2 by (by right). reflexivity.
    + rewrite bool_decide_eq_false_2; [reflexivity|].
      intros [?|?]%elem_of_cons; congruence.
Qed.

Lemma dict_set_NoDup (k : string) (v : pyval) (d : pydict) :
  NoDup (dict_keys d) -> NoDup (dict_keys (dict_set k v d)).
Proof.
  intros H. rewrite dict_keys_set. case_bool_decide; [done|].
  apply NoDup_app. split; [done|]. split.
  - intros x Hx ->%list_elem_of_singleton. done.
  - apply NoDup_singleton.
Qed.

Lemma dict_update_NoDup (d extra : pydict) :
  NoDup (dict_keys d) -> NoDup (dict_keys (dict_update d extra)).
Proof.
  unfold dict_update. revert d.
  induction extra as [|[k v] extra IH]; intros d H; [done|].
  cbn. by apply IH, dict_set_NoDup.
Qed.

Lemma dict_del_keys (k : string) (d : pydict) :
  NoDup (dict_keys d) ->
  (k ∉ dict_keys (dict_del k d)) /\ NoDup (dict_keys (dict_del k d)).
Proof.
  unfold dict_keys. induction d as [|[k' v'] d IH]; cbn [dict_del map fst].
  - intros _. split; [by intros ?%elem_of_nil|constructor].
  - intros [Hk' Hd]%NoDup_cons.
    destruct (String.eqb_spec k' k) as [->|Hne]; [done|].
    destruct (IH Hd) as [H1 H2]. cbn [map fst]. split.
    + intros [?|?]%elem_of_cons; congruence.
    + apply NoDup_cons. split; [|done]. intros Hin. apply Hk'.
      clear -Hin. induction d as [|[k0 v0] d IHd]; [done|].
      cbn in *. destruct (String.eqb k0 k).
      * by right.
      * apply elem_of_cons in Hin as [->|Hin]; [by left|right; auto].
Qed.

Lemma bind_keys_fst (keys : list string) (params : pydict)
    (kvs : list (string * pyval)) :
  bind_keys keys params = Some kvs -> map fst kvs = keys.
Proof.
  revert kvs. induction keys as [|k keys IH]; intros kvs H.
  - by injection H as <-.
  - cbn in H. destruct (dict_get k params) as [v|]; [|done].
    destruct (bind_keys keys params) as [kvs'|]; [|done].
    injection H as <-. cbn. by rewrite (IH kvs').
Qed.

Lemma EntityInfo_to_dict_NoDup (e : EntityInfo) :
  NoDup (dict_keys (EntityInfo_to_dict e)).
Proof.
  apply dict_update_NoDup. cbn. repeat (apply NoDup_cons; split);
    [| |by intros ?%elem_of_nil|constructor];
    rewrite ?elem_of_cons, elem_of_nil; intuition discriminate.
Qed.

(** An entity statement binds to a keyed upsert. *)
Lemma entity_query_bound (e : EntityInfo) (q : query) (b : bound) :
  entity_query e = Some q -> bind_parameters q = Some b ->
  exists u, b = Upsert u /\ keyed_upsert u.
Proof.
  unfold entity_query, dict_pop.
  destruct (dict_get "entity_type" _) as [et|]; [|done].
  destruct (dict_get "name" _) as [nm|]; [|done].
  intros Hq. injection Hq as <-. unfold bind_parameters. cbn [fst snd].
  destruct (dict_get "name" _) as [v|]; [|done].
  destruct (bind_keys _ _) as [kvs|] eqn:Hk; [|by destruct v].
  intros Hb. exists (mk_upsert (py_format et) v kvs). split.
  - by destruct v; try discriminate; injection Hb as <-.
  - split; [by destruct v|]. cbn [up_props].
    rewrite (bind_keys_fst _ _ _ Hk).
    apply dict_del_keys, dict_del_keys, EntityInfo_to_dict_NoDup.
Qed.

Lemma relationship_query_bound (r : RelationshipInfo) (q : query)
    (b : bound) :
  relationship_query r = Some q -> bind_parameters q = Some b ->
  exists l, b = Link l.
Proof.
  unfold relationship_query, dict_pop.
  destruct (dict_get "rel_type" _) as [rt|]; [|done].
  destruct (dict_get "source" _) as [s|]; [|done].
  destruct (dict_get "target" _) as [t|]; [|done].
  intros Hq. injection Hq as <-. unfold bind_parameters. cbn [fst snd].
  destruct (dict_get "source" _) as [s'|]; [|done].
  destruct (dict_get "target" _) as [t'|]; [|done].
  intros Hb. injection Hb as <-. by eexists.
Qed.

Lemma collect_app {A B : Type} (f : A -> option B) (l1 l2 : list A) :
  collect f (l1 ++ l2)
  = match collect f l1, collect f l2 with
    | Some a, Some b => Some (a ++ b)
    | _, _ => None
    end.
Proof.
  induction l1 as [|x l1 IH]; cbn.
  - by destruct (collect f l2).
  - destruct (f x) as [y|]; [|reflexivity]. rewrite IH.
    destruct (collect f l1), (collect f l2); reflexivity.
Qed.

Lemma collect_Forall2 {A B : Type} (f : A -> option B) (l : list A)
    (l' : list B) :
  collect f l = Some l' -> Forall2 (fun x y => f x = Some y) l l'.
Proof.
  revert l'. induction l as [|x l IH]; intros l' H.
  - injection H as <-. constructor.
  - cbn in H. destruct (f x) as [y|] eqn:Hx; [|done].
    destruct (collect f l) as [ys|]; [|done]. injection H as <-.
    constructor; [done|by apply IH].
Qed.

(** The statements of one file bind to keyed upserts followed by links. *)
Lemma build_queries_bound (entities : list EntityInfo)
    (relationships : list RelationshipInfo) (queries : list query)
    (bs : list bound) :
  build_queries entities relationships = Some queries ->
  collect bind_parameters queries = Some bs ->
  exists us ls,
    bs = map Upsert us ++ map Link ls /\ Forall keyed_upsert us /\
    Forall2 (fun e u => exists q, entity_query e = Some q /\
                                  bind_parameters q = Some (Upsert u))
      entities us /\
    Forall2 (fun r l => exists q, relationship_query r = Some q /\
                                  bind_parameters q = Some (Link l))
      relationships ls.
Proof.
  unfold build_queries.
  destruct (collect entity_query entities) as [eqs|] eqn:He; [|done].
  destruct (collect relationship_query relationships) as [rqs|] eqn:Hr;
    [|done].
  intros Hq. injection Hq as <-. rewrite collect_app.
  destruct (collect bind_parameters eqs) as [b1|] eqn:Hb1; [|done].
  destruct (collect bind_parameters rqs) as [b2|] eqn:Hb2; [|done].
  intros Hb. injection Hb as <-.
  apply collect_Forall2 in He, Hr, Hb1, Hb2.
  assert (H1 : exists us, b1 = map Upsert us /\ Forall keyed_upsert us /\
            Forall2 (fun e u => exists q, entity_query e = Some q /\
                       bind_parameters q = Some (Upsert u)) entities us).
  { clear -He Hb1. revert b1 Hb1.
    induction He as [|e q es qs Hq _ IH]; intros b1 Hb1.
    - inversion Hb1; subst. exists []. by repeat constructor.
    - inversion Hb1 as [|? b ? bs' Hb Hbs]; subst.
      destruct (IH _ Hbs) as (us & -> & Hus & Hf).
      destruct (entity_query_bound _ _ _ Hq Hb) as (u & -> & Hu).
      exists (u :: us). repeat split; [by constructor|].
      constructor; [by exists q|done]. }
  assert (H2 : exists ls, b2 = map Link ls /\
            Forall2 (fun r l => exists q, relationship_query r = Some q /\
                       bind_parameters q = Some (Link l)) relationships ls).
  { clear -Hr Hb2. revert b2 Hb2.
    induction Hr as [|r q rs qs Hq _ IH]; intros b2 Hb2.
    - inversion Hb2; subst. exists []. by repeat constructor.
    - inversion Hb2 as [|? b ? bs' Hb Hbs]; subst.
      destruct (IH _ Hbs) as (ls & -> & Hf).
      destruct (relationship_query_bound _ _ _ Hq Hb) as (l & ->).
      exists (l :: ls). split; [done|].
      constructor; [by exists q|done]. }
  destruct H1 as (us & -> & Hus & Hf1), H2 as (ls & -> & Hf2).
  by exists us, ls.
Qed.

(** ** Idempotent persistence *)

(** The statements [index_file] builds for a file are idempotent as
    Cypher: run again in the graph they left, they leave that graph. *)
Lemma built_batch_idempotent (entities : list EntityInfo)
    (relationships : list RelationshipInfo) (queries : list query)
    (g g1 : graph) :
  build_queries entities relationships = Some queries ->
  run_all queries g = Some g1 -> run_all queries g1 = Some g1.
Proof.
  intros Hq. rewrite !run_all_execute_all.
  destruct (collect bind_parameters queries) as [bs|] eqn:Hb; [|done].
  intros [= <-].
  destruct (build_queries_bound _ _ _ _ Hq Hb) as (us & ls & -> & Hus & _).
  by rewrite execute_all_idempotent.
Qed.

(** C4. Running [index_file] a second time on the same file, in the graph
    the first run left, ends as the first run ended and leaves the graph
    exactly as the first run left it: the same nodes with the same labels
    and properties, the same edges, nothing added. *)
Theorem index_file_idempotent (cleandoc : string -> string)
    (unparse : expr -> option string)
    (recursion_limit : nat) (client_ok : bool) (file : py_file)
    (g : graph) :
  index_file cleandoc unparse recursion_limit client_ok file
    (snd (index_file cleandoc unparse recursion_limit client_ok file g))
  = index_file cleandoc unparse recursion_limit client_ok file g.
Proof. by rewrite !index_file_outcome. Qed.

(** ** The shape of a whole extraction *)

Lemma for_each_emission {A : Type} (module_path : string)
    (f : A -> parse_step) (l : list A) (o : emitted) :
  (forall x o', f x = Some o' -> emission module_path o') ->
  for_each l f = Some o -> emission module_path o.
Proof.
  intros Hf. revert o. induction l as [|x l IH]; intros [es rs] H.
  - injection H as <- <-. apply em_nil.
  - cbn [for_each] in H.
    apply and_then_Some in H as (e1 & r1 & e2 & r2 & Hx & Hl & -> & ->).
    apply em_app; [by apply (Hf x)|by apply IH].
Qed.

Lemma definition_emission_emission (module_path : string) (t : EntityType)
    (parent local : string) (o : emitted) :
  (t = CLASS /\ parent = module_path) \/
  (t = FUNCTION /\ parent = module_path) \/
  (t = METHOD /\ exists cname, parent = module_path +:+ "." +:+ cname) ->
  definition_emission t parent local o -> emission module_path o.
Proof.
  intros Ht. inversion 1 as [e ae ar He Haux]; subst.
  apply (em_app module_path [e] [_] ae ar).
  - by apply (em_definition module_path t).
  - by apply em_aux.
Qed.

Lemma members_emission_emission (module_path cname : string)
    (fnames : list string) (o : emitted) :
  members_emission (module_path +:+ "." +:+ cname) fnames o ->
  emission module_path o.
Proof.
  induction 1 as [|f fs e1 r1 e2 r2 Hd _ IH]; [apply em_nil|].
  apply em_app; [|exact IH].
  eapply definition_emission_emission; [|exact Hd].
  right. right. split; [done|]. by exists cname.
Qed.

Lemma class_emission_emission (unparse : expr -> option string)
    (module_path cname : string) (bases : list expr) (body : list stmt)
    (o : emitted) :
  class_emission unparse module_path cname bases body o ->
  emission module_path o.
Proof.
  inversion 1 as [e a1e a1r me mr a2e a2r He Habs Ha1 Hm Ha2]; subst.
  apply (em_app module_path [e] [_]).
  { apply (em_definition module_path CLASS); [done|]. by left. }
  change (a1e ++ me ++ a2e) with ([] ++ a1e ++ me ++ a2e).
  apply em_app.
  { unfold inherits_from.
    induction (inherited_names unparse bases) as [|b bs IH]; [apply em_nil|].
    cbn [map]. apply (em_app module_path [] [_] [] _); [|exact IH].
    apply em_inherits. }
  apply em_app; [by apply em_aux|].
  apply em_app; [by eapply members_emission_emission|by apply em_aux].
Qed.

Lemma _parse_import_emission (module_path : string) (node : stmt)
    (o : emitted) :
  _parse_import module_path node = Some o -> emission module_path o.
Proof.
  destruct node; cbn [_parse_import];
    try (intros H; injection H as <-; apply em_nil).
  - apply for_each_emission. intros a o' H. injection H as <-.
    apply (em_import module_path (alias_name a) [alias_name a] false lineno
             true).
  - destruct (truthy (default "" module)) eqn:Ht; intros H;
      injection H as <-.
    + apply (em_import module_path (default "" module)
               (map alias_name names) true lineno true).
    + apply (em_import module_path (default "" module)
               (map alias_name names) true lineno false).
Qed.

Lemma visit_emission (cleandoc : string -> string)
    (unparse : expr -> option string)
    (recursion_limit : nat) (module_path : string)
    (tree : Module_ast) (node : located) (o : emitted) :
  visit cleandoc unparse recursion_limit module_path tree node = Some o ->
  emission module_path o.
Proof.
  unfold visit. destruct node as [p s]. cbn [snd].
  destruct s; try (intros H; injection H as <-; apply em_nil).
  - intros H. apply _parse_class_emission in H.
    by eapply class_emission_emission.
  - destruct (_is_top_level _ _);
      [|intros H; injection H as <-; apply em_nil].
    intros H. apply _parse_function_emission in H as (f & _ & H).
    eapply definition_emission_emission; [|exact H]. right. left. done.
  - destruct (_is_top_level _ _);
      [|intros H; injection H as <-; apply em_nil].
    intros H. apply _parse_function_emission in H as (f & _ & H).
    eapply definition_emission_emission; [|exact H]. right. left. done.
  - apply _parse_import_emission.
  - apply _parse_import_emission.
Qed.

(** Whatever [parse_file] returns has the shape above. *)
Lemma parse_file_emission (cleandoc : string -> string)
    (unparse : expr -> option string)
    (recursion_limit : nat) (file_path module_path : string)
    (tree : option Module_ast) (o : emitted) :
  parse_file cleandoc unparse recursion_limit
    file_path module_path tree = Some o ->
  emission module_path o.
Proof.
  destruct tree as [tree|]; [|done]. cbn [parse_file]. destruct o as [es rs].
  intros H. apply and_then_Some in H as (e1 & r1 & e2 & r2 & He & H & -> & ->).
  injection He as <- <-. apply em_app; [apply em_module|].
  revert H. apply for_each_emission. intros node o'. apply visit_emission.
Qed.

(** ** Decorators and docstrings *)

Lemma length_append (a b : string) :
  String.length (a +:+ b) = (String.length a + String.length b)%nat.
Proof. induction a as [|c a IH]; [reflexivity|]. cbn. by rewrite IH. Qed.

Lemma decorator_id_differs (parent d : string) :
  d <> parent +:+ ".decorator." +:+ d /\
  parent <> parent +:+ ".decorator." +:+ d.
Proof.
  split; intros H; apply (f_equal String.length) in H;
    rewrite !length_append in H; cbn in H; lia.
Qed.

Lemma decorators_paired_app (e1 e2 : list EntityInfo)
    (r1 r2 : list RelationshipInfo) :
  decorators_paired (e1, r1) -> decorators_paired (e2, r2) ->
  decorators_paired (e1 ++ e2, r1 ++ r2).
Proof.
  intros (A1 & B1 & C1) (A2 & B2 & C2). cbn [fst snd] in *.
  split; [|split].
  - intros r [Hr|Hr]%elem_of_app Ht;
      [destruct (A1 r Hr Ht) as (e & He & H)
      |destruct (A2 r Hr Ht) as (e & He & H)];
      exists e; (split; [|exact H]); apply elem_of_app; auto.
  - intros e [He|He]%elem_of_app Ht;
      [destruct (B1 e He Ht) as (r & Hr & H)
      |destruct (B2 e He Ht) as (r & Hr & H)];
      exists r; (split; [|exact H]); apply elem_of_app; auto.
  - intros r [Hr|Hr]%elem_of_app Ht;
      [destruct (C1 r Hr Ht) as (Heq & e & He & H)
      |destruct (C2 r Hr Ht) as (Heq & e & He & H)];
      (split; [exact Heq|]); exists e; (split; [|exact H]);
      apply elem_of_app; auto.
Qed.

Lemma decorators_paired_other (es : list EntityInfo)
    (rs : list RelationshipInfo) :
  Forall (fun e => entity_type e <> DECORATOR) es ->
  Forall (fun r => rel_type r <> DECORATED_BY /\ rel_type r <> DOCUMENTED_BY)
    rs ->
  decorators_paired (es, rs).
Proof.
  intros He Hr. split; [|split]; cbn [fst snd].
  - intros r Hin Ht. by destruct (proj1 (Forall_forall _ _) Hr r Hin).
  - intros e Hin Ht. by destruct (proj1 (Forall_forall _ _) He e Hin).
  - intros r Hin Ht. by destruct (proj1 (Forall_forall _ _) Hr r Hin).
Qed.

Lemma aux_emission_paired (o : emitted) :
  aux_emission o -> decorators_paired o.
Proof.
  induction 1 as [|e1 r1 e2 r2 _ IH1 _ IH2|owner a ln ta pos|owner d
                  |owner c ln].
  - by apply decorators_paired_other.
  - by apply decorators_paired_app.
  - apply decorators_paired_other; repeat constructor; done.
  - split; [|split]; cbn [fst snd].
    + intros r ->%list_elem_of_singleton _. eexists. split; [by left|done].
    + intros e ->%list_elem_of_singleton _. eexists. split; [by left|done].
    + intros r ->%list_elem_of_singleton Ht. done.
  - split; [|split]; cbn [fst snd].
    + intros r ->%list_elem_of_singleton Ht. done.
    + intros e ->%list_elem_of_singleton Ht. done.
    + intros r ->%list_elem_of_singleton _. split; [done|].
      eexists. split; [by left|done].
Qed.

Lemma emission_paired (module_path : string) (o : emitted) :
  emission module_path o -> decorators_paired o.
Proof.
  induction 1 as [|e1 r1 e2 r2 _ IH1 _ IH2|o Haux|fp doc
                  |t parent local e He Ht|c b|m imp from ln linked].
  - by apply decorators_paired_other.
  - by apply decorators_paired_app.
  - by apply aux_emission_paired.
  - apply decorators_paired_other; repeat constructor; done.
  - apply decorators_paired_other; repeat constructor; try done.
    destruct He as (-> & _). cbn. intros ->.
    destruct Ht as [[? _]|[[? _]|[? _]]]; done.
  - apply decorators_paired_other; repeat constructor; done.
  - apply decorators_paired_other; [repeat constructor; done|].
    destruct linked; repeat constructor; done.
Qed.

(** C9, as the code has it. [_add_decorator] appends the Decorator entity
    with id owner.decorator.name and the DECORATED_BY edge from the owner to
    the bare decorator name; neither endpoint of that edge is the entity's
    id.  [_add_docstring] appends a DOCUMENTED_BY edge whose target is the
    Docstring entity's id.  In every extraction each DECORATED_BY edge goes
    to the bare name of a Decorator entity of its owner, each Decorator
    entity has such an edge, and each DOCUMENTED_BY edge targets the id of
    a Docstring entity. *)
Theorem decorated_by_targets_bare_name :
  (forall parent d : string,
     _add_decorator parent d
     = Some ([mk_EntityInfo DECORATOR (parent +:+ ".decorator." +:+ d) 0
                [("name", PyStr d)]],
             [mk_RelationshipInfo DECORATED_BY parent d []]) /\
     d <> parent +:+ ".decorator." +:+ d /\
     parent <> parent +:+ ".decorator." +:+ d) /\
  (forall (parent content : string) (lineno : Z),
     _add_docstring parent content lineno
     = Some ([mk_EntityInfo DOCSTRING (parent +:+ ".docstring") lineno
                [("content", PyStr content)]],
             [mk_RelationshipInfo DOCUMENTED_BY parent
                (parent +:+ ".docstring") []])) /\
  (forall (cleandoc : string -> string) (unparse : expr -> option string)
    (recursion_limit : nat)
          (file_path module_path : string) (tree : option Module_ast)
          (es : list EntityInfo) (rs : list RelationshipInfo),
     parse_file cleandoc unparse recursion_limit
       file_path module_path tree = Some (es, rs) ->
     (forall r, r ∈ rs -> rel_type r = DECORATED_BY ->
        target r <> source r +:+ ".decorator." +:+ target r /\
        source r <> source r +:+ ".decorator." +:+ target r /\
        exists e, e ∈ es /\ entity_type e = DECORATOR /\
                  name e = source r +:+ ".decorator." +:+ target r /\
                  properties e = [("name", PyStr (target r))]) /\
     (forall e, e ∈ es -> entity_type e = DECORATOR ->
        exists r, r ∈ rs /\ rel_type r = DECORATED_BY /\
                  name e = source r +:+ ".decorator." +:+ target r) /\
     (forall r, r ∈ rs -> rel_type r = DOCUMENTED_BY ->
        target r = source r +:+ ".docstring" /\
        exists e, e ∈ es /\ entity_type e = DOCSTRING /\ name e = target r)).
Proof.
  split; [|split].
  - intros parent d. split; [reflexivity|]. apply decorator_id_differs.
  - reflexivity.
  - intros cleandoc unparse recursion_limit fp mp tree es rs H.
    apply parse_file_emission, emission_paired in H as (A & B & C).
    cbn [fst snd] in *. split; [|split]; [|exact B|exact C].
    intros r Hr Ht. destruct (decorator_id_differs (source r) (target r)).
    repeat split; [done..|]. by apply A.
Qed.

Lemma decorated_by_targets_bare_name_witness :
  exists es rs r e,
    parse_file (fun s => s) (fun _ => None) 1000 "/repo/m.py" "m"
      (Some import_and_decorator) = Some (es, rs) /\
    r ∈ rs /\ source r = "m.f" /\ target r = "cache" /\
    e ∈ es /\ entity_type e = DECORATOR /\ name e = "m.f.decorator.cache".
Proof.
  destruct decorated_by_targets_bare_name as (_ & _ & H).
  destruct (H (fun s => s) (fun _ => None) 1000 "/repo/m.py" "m"
              (Some import_and_decorator) _ _ eq_refl) as (Hd & _).
  assert (Hr : mk_RelationshipInfo DECORATED_BY "m.f" "cache" []
               ∈ snd (default ([], [])
                        (parse_file (fun s => s) (fun _ => None) 1000
                           "/repo/m.py"
                           "m" (Some import_and_decorator)))).
  { apply list_elem_of_In. vm_compute. tauto. }
  destruct (Hd _ Hr eq_refl) as (_ & _ & e & He & Ht & Hn & _).
  eexists _, _, (mk_RelationshipInfo DECORATED_BY "m.f" "cache" []), e.
  split; [reflexivity|]. split; [exact Hr|].
  repeat split; [exact He|exact Ht|exact Hn].
Defined.

(** C9, as stated, fails: a Decorator entity's id can be the endpoint of a
    relationship of the same extraction.  In the module m that imports
    m.f.decorator.x and decorates its function f with x, the IMPORTS edge
    targets the literal name m.f.decorator.x, which is the id of the
    Decorator entity of f. *)
Lemma decorator_id_can_be_an_endpoint :
  exists es rs e r,
    parse_file (fun s => s) (fun _ => None) 1000 "/repo/m.py" "m"
      (Some decorator_spelled_import) = Some (es, rs) /\
    e ∈ es /\ entity_type e = DECORATOR /\
    r ∈ rs /\ rel_type r = IMPORTS /\ target r = name e.
Proof.
  eexists _, _,
    (mk_EntityInfo DECORATOR "m.f.decorator.x" 0 [("name", PyStr "x")]),
    (mk_RelationshipInfo IMPORTS "m" "m.f.decorator.x" []).
  split; [reflexivity|].
  repeat split; apply list_elem_of_In; cbn; tauto.
Qed.

(** ** The key an entity is merged under *)

Lemma dict_get_set_eq (k : string) (v : pyval) (d : pydict) :
  dict_get k (dict_set k v d) = Some v.
Proof.
  induction d as [|[k0 v0] d IH]; cbn.
  - by rewrite String.eqb_refl.
  - destruct (String.eqb_spec k0 k) as [->|Hne]; cbn.
    + by rewrite String.eqb_refl.
    + destruct (String.eqb_spec k0 k); [done|exact IH].
Qed.

Lemma dict_get_update_notin (k : string) (d extra : pydict) :
  k ∉ dict_keys extra -> dict_get k (dict_update d extra) = dict_get k d.
Proof.
  unfold dict_update. revert d.
  induction extra as [|[k0 v0] extra IH]; intros d H; [reflexivity|].
  cbn. rewrite IH by (intros ?; apply H; by right).
  apply dict_get_set_ne. intros ->. apply H. by left.
Qed.

Lemma dict_get_del_ne (k k' : string) (d : pydict) :
  k <> k' -> dict_get k' (dict_del k d) = dict_get k' d.
Proof.
  intros Hne. induction d as [|[k0 v0] d IH]; [reflexivity|]. cbn.
  destruct (String.eqb_spec k0 k) as [->|Hk0].
  - destruct (String.eqb_spec k k'); [done|reflexivity].
  - cbn. by rewrite IH.
Qed.

Lemma dict_get_None_keys (k : string) (d : pydict) :
  k ∉ dict_keys d -> dict_get k d = None.
Proof.
  induction d as [|[k0 v0] d IH]; [reflexivity|]. cbn. intros H.
  destruct (String.eqb_spec k0 k) as [->|Hne].
  - exfalso. apply H. by left.
  - apply IH. intros ?. apply H. by right.
Qed.

(** The merge key is read off the dictionary form of the entity: the values
    under entity_type and under name. *)
Lemma merge_key_to_dict (e : EntityInfo) :
  merge_key e
  = match dict_get "entity_type" (EntityInfo_to_dict e),
          dict_get "name" (EntityInfo_to_dict e) with
    | Some t, Some v => Some (py_format t, v)
    | _, _ => None
    end.
Proof.
  unfold merge_key, entity_query, dict_pop.
  destruct (dict_get "entity_type" _) as [t|]; [|reflexivity].
  rewrite dict_get_del_ne by done.
  destruct (dict_get "name" _) as [v|]; [|reflexivity].
  rewrite dict_get_update_notin; [reflexivity|].
  apply dict_del_keys, dict_del_keys, EntityInfo_to_dict_NoDup.
Qed.

(** An entity whose properties hold neither key is merged under its type
    and its id. *)
Lemma merge_key_by_id (e : EntityInfo) :
  "name" ∉ dict_keys (properties e) ->
  "entity_type" ∉ dict_keys (properties e) ->
  merge_key e = Some (EntityType_value (entity_type e), PyStr (name e)).
Proof.
  intros Hn Ht. rewrite merge_key_to_dict. unfold EntityInfo_to_dict.
  by rewrite !dict_get_update_notin.
Qed.

(** Two definitions of one kind and one local name have one merge key. *)
Lemma merge_key_definition (t : EntityType) (id1 id2 local : string)
    (e1 e2 : EntityInfo) :
  definition_entity t id1 local e1 -> definition_entity t id2 local e2 ->
  merge_key e1 = merge_key e2.
Proof.
  intros (Ht1 & _ & rest1 & Hp1 & Hn1 & He1)
         (Ht2 & _ & rest2 & Hp2 & Hn2 & He2).
  rewrite !merge_key_to_dict. unfold EntityInfo_to_dict.
  rewrite Hp1, Hp2, Ht1, Ht2. unfold dict_update. cbn [fold_left fst snd].
  fold (dict_update (dict_set "name" (PyStr local)
          [("entity_type", PyStr (EntityType_value t));
           ("name", PyStr (name e1)); ("line_number", PyInt (line_number e1))])
          rest1).
  fold (dict_update (dict_set "name" (PyStr local)
          [("entity_type", PyStr (EntityType_value t));
           ("name", PyStr (name e2)); ("line_number", PyInt (line_number e2))])
          rest2).
  by rewrite !dict_get_update_notin.
Qed.

Lemma EntityType_value_inj (t1 t2 : EntityType) :
  EntityType_value t1 = EntityType_value t2 -> t1 = t2.
Proof. destruct t1, t2; cbn; intros H; try reflexivity; discriminate. Qed.

Lemma aux_emission_keys (module_path : string) (o : emitted) :
  aux_emission o -> Forall (keys_as_designed module_path) (fst o).
Proof.
  induction 1 as [|e1 r1 e2 r2 _ IH1 _ IH2|owner a ln ta pos|owner d
                  |owner c ln]; cbn [fst] in *.
  - constructor.
  - by apply Forall_app.
  - constructor; [split; cbn|constructor]; [intros [?|[?|?]]|]; done.
  - constructor; [split; cbn|constructor]; [intros [?|[?|?]]|]; done.
  - constructor; [split; cbn|constructor]; [|done].
    intros _. split; no_such_key.
Qed.

Lemma emission_keys (module_path : string) (o : emitted) :
  emission module_path o -> Forall (keys_as_designed module_path) (fst o).
Proof.
  induction 1 as [|e1 r1 e2 r2 _ IH1 _ IH2|o Haux|fp doc
                  |t parent local e He Ht|c b|m imp from ln linked];
    cbn [fst] in *.
  - constructor.
  - by apply Forall_app.
  - by apply aux_emission_keys.
  - constructor; [split; cbn|constructor]; [|done].
    intros _. split; no_such_key.
  - constructor; [split|constructor].
    + intros Hid. destruct He as (Het & _). rewrite Het in Hid.
      destruct Hid as [-> | [-> | ->]], Ht as [[? _]|[[? _]|[? _]]]; done.
    + intros Hc. destruct (He) as (Het & _). rewrite Het in Hc. subst t.
      destruct Ht as [[_ ->] | [[? _]|[? _]]]; [|done..].
      by exists local.
  - constructor.
  - constructor; [split; cbn|constructor]; [|done].
    intros _. split; no_such_key.
Qed.

(** C2, as the code has it by design. In every extraction, a Module, Import
    or Docstring entity is merged under its entity type and its id, so two
    of them are merged under one key exactly when they have the same type
    and the same id; and the id of a class is the module path and the class
    name whatever its lexical scope, so two classes of one module with the
    same class name have the same id and the same merge key. *)
Theorem merge_keys_of_extraction
    (cleandoc : string -> string) (unparse : expr -> option string)
    (recursion_limit : nat)
    (file_path module_path : string) (tree : option Module_ast)
    (es : list EntityInfo) (rs : list RelationshipInfo) :
  parse_file cleandoc unparse recursion_limit
    file_path module_path tree = Some (es, rs) ->
  (forall e, e ∈ es -> id_keyed (entity_type e) ->
     merge_key e = Some (EntityType_value (entity_type e), PyStr (name e))) /\
  (forall e1 e2, e1 ∈ es -> e2 ∈ es ->
     id_keyed (entity_type e1) -> id_keyed (entity_type e2) ->
     (merge_key e1 = merge_key e2 <->
      entity_type e1 = entity_type e2 /\ name e1 = name e2)) /\
  (forall c1 c2, c1 ∈ es -> c2 ∈ es ->
     entity_type c1 = CLASS -> entity_type c2 = CLASS ->
     dict_get "name" (properties c1) = dict_get "name" (properties c2) ->
     name c1 = name c2 /\ merge_key c1 = merge_key c2).
Proof.
  intros H. apply parse_file_emission, emission_keys in H. cbn [fst] in H.
  pose proof (proj1 (Forall_forall _ _) H) as Hk. clear H.
  assert (Hid : forall e, e ∈ es -> id_keyed (entity_type e) ->
            merge_key e
            = Some (EntityType_value (entity_type e), PyStr (name e))).
  { intros e He Ht. destruct (Hk e He) as [Hplain _].
    destruct (Hplain Ht). by apply merge_key_by_id. }
  split; [exact Hid|]. split.
  - intros e1 e2 H1 H2 Ht1 Ht2. rewrite !Hid by done. split.
    + intros Heq. injection Heq as Ht Hn.
      by apply EntityType_value_inj in Ht.
    + by intros [-> ->].
  - intros c1 c2 H1 H2 Ht1 Ht2 Hname.
    destruct (Hk c1 H1) as [_ Hc1], (Hk c2 H2) as [_ Hc2].
    destruct (Hc1 Ht1) as (n1 & Hd1), (Hc2 Ht2) as (n2 & Hd2).
    assert (n1 = n2) as <-.
    { destruct Hd1 as (_ & _ & r1 & Hp1 & _), Hd2 as (_ & _ & r2 & Hp2 & _).
      rewrite Hp1, Hp2 in Hname. cbn in Hname. congruence. }
    split; [|by eapply merge_key_definition].
    destruct Hd1 as (_ & -> & _), Hd2 as (_ & -> & _). reflexivity.
Qed.

Lemma merge_keys_of_extraction_witness :
  exists es rs,
    parse_file (fun s => s) (fun _ => None) 1000 "/repo/m.py" "m"
      (Some colliding_names) = Some (es, rs) /\
    forall e, e ∈ es -> id_keyed (entity_type e) ->
      merge_key e = Some (EntityType_value (entity_type e), PyStr (name e)).
Proof.
  eexists _, _. split; [reflexivity|].
  apply (merge_keys_of_extraction (fun s => s) (fun _ => None) 1000 "/repo/m.py"
           "m" (Some colliding_names) _ _ eq_refl).
Defined.

(** C2, as stated, fails. In the module of [colliding_names] the methods run
    of class A and of class B have the ids m.A.run and m.B.run and one merge
    key, and the class Foo of the module and the class Foo inside class
    Outer, two definitions on different lines, have one id and one merge
    key. *)
Lemma distinct_constructs_share_a_merge_key :
  exists es rs m1 m2 c1 c2,
    parse_file (fun s => s) (fun _ => None) 1000 "/repo/m.py" "m"
      (Some colliding_names) = Some (es, rs) /\
    m1 ∈ es /\ m2 ∈ es /\
    name m1 = "m.A.run" /\ name m2 = "m.B.run" /\
    merge_key m1 = merge_key m2 /\
    c1 ∈ es /\ c2 ∈ es /\
    line_number c1 = 5%Z /\ line_number c2 = 8%Z /\
    name c1 = "m.Foo" /\ name c2 = "m.Foo" /\
    merge_key c1 = merge_key c2.
Proof.
  eexists _, _,
    (mk_EntityInfo METHOD "m.A.run" 2 _),
    (mk_EntityInfo METHOD "m.B.run" 4 _),
    (mk_EntityInfo CLASS "m.Foo" 5 _),
    (mk_EntityInfo CLASS "m.Foo" 8 _).
  split; [reflexivity|].
  repeat split; try (apply list_elem_of_In; cbn; tauto);
    vm_compute; reflexivity.
Qed.

(** ** The walk visits every node once *)

Lemma stmt_size_children (s : stmt) :
  stmt_size s = S (list_sum (map stmt_size (child_stmts s))).
Proof. by destruct s. Qed.

Lemma queue_size_app (l1 l2 : list located) :
  queue_size (l1 ++ l2) = (queue_size l1 + queue_size l2)%nat.
Proof. unfold queue_size. by rewrite map_app, list_sum_app. Qed.

Lemma queue_size_locate_children (p : node_id) (l : list stmt) :
  queue_size (locate_children p l) = list_sum (map stmt_size l).
Proof.
  unfold queue_size, locate_children.
  assert (H : forall (f : nat -> node_id) (l : list stmt),
            map (fun n : located => stmt_size (snd n))
              (imap (fun i c => (f i, c)) l) = map stmt_size l).
  { intros f l'. revert f. induction l' as [|c l' IH]; intros f;
      [reflexivity|]. cbn. f_equal. apply (IH (f ∘ S)). }
  by rewrite (H (fun i => p ++ [i])).
Qed.

Lemma descendants_at_unfold (p : node_id) (s : stmt) :
  descendants_at p s = flat_map closure (locate_children p (child_stmts s)).
Proof.
  assert (H : forall l i,
    (fix below (i : nat) (l : list stmt) {struct l} : list located :=
       match l with
       | [] => []
       | c :: l' =>
           ((p ++ [i], c) :: descendants_at (p ++ [i]) c) ++ below (S i) l'
       end) i l
    = flat_map closure (imap (fun j c => (p ++ [i + j], c)) l)).
  { induction l as [|c l IH]; intros i; [reflexivity|].
    cbn [imap flat_map]. rewrite IH. unfold closure at 2. cbn [fst snd].
    rewrite Nat.add_0_r. f_equal. f_equal. apply imap_ext.
    intros j x _. cbn. by rewrite Nat.add_succ_r. }
  destruct s; cbn [descendants_at child_stmts];
    try apply (H _ 0%nat); reflexivity.
Qed.

Lemma closure_unfold (n : located) :
  closure n = n :: flat_map closure (iter_child_nodes n).
Proof. unfold closure. by rewrite descendants_at_unfold. Qed.

(** [ast.walk] with enough fuel yields every node of the queued trees
    exactly once. *)
Lemma walk_queue_permutation (fuel : nat) (todo : list located) :
  (queue_size todo <= fuel)%nat ->
  walk_queue fuel todo ≡ₚ flat_map closure todo.
Proof.
  revert todo. induction fuel as [|fuel IH]; intros todo Hsize.
  - destruct todo as [|[p s] todo]; [reflexivity|].
    unfold queue_size in Hsize. cbn in Hsize.
    rewrite stmt_size_children in Hsize. lia.
  - destruct todo as [|n todo]; [reflexivity|].
    cbn [walk_queue flat_map]. rewrite closure_unfold. cbn [app].
    apply Permutation_cons; [reflexivity|].
    rewrite IH.
    + rewrite flat_map_app. apply Permutation_app_comm.
    + rewrite queue_size_app. unfold iter_child_nodes.
      rewrite queue_size_locate_children.
      change (queue_size (n :: todo))
        with (stmt_size (snd n) + queue_size todo)%nat in Hsize.
      rewrite stmt_size_children in Hsize. lia.
Qed.

Lemma walk_permutation (tree : Module_ast) : walk tree ≡ₚ all_nodes tree.
Proof. unfold walk, all_nodes. by apply walk_queue_permutation. Qed.

Lemma In_list_sum_le (k : nat) (l : list nat) :
  In k l -> (k <= list_sum l)%nat.
Proof.
  induction l as [|y l IH]; [done|].
  change (list_sum (y :: l)) with (y + list_sum l)%nat.
  intros [->|H]; [lia|]. specialize (IH H). lia.
Qed.

(** A node below another has a longer position. *)
Lemma descendants_longer (n : nat) (s : stmt) (p : node_id) (d : located) :
  (stmt_size s <= n)%nat ->
  d ∈ descendants_at p s -> (length p < length (fst d))%nat.
Proof.
  revert s p d. induction n as [|n IH]; intros s p d Hn.
  - rewrite stmt_size_children in Hn. lia.
  - rewrite descendants_at_unfold.
    intros (c & Hc & Hd)%list_elem_of_In%in_flat_map.
    apply list_elem_of_In in Hc. unfold locate_children in Hc.
    apply elem_of_lookup_imap in Hc as (i & x & -> & Hx).
    assert (Hsz : (stmt_size x <= n)%nat).
    { rewrite stmt_size_children in Hn.
      apply list_elem_of_lookup_2, list_elem_of_In in Hx.
      apply (in_map stmt_size) in Hx.
      apply In_list_sum_le in Hx. lia. }
    destruct Hd as [<-|Hd]; cbn [fst snd] in *.
    + rewrite length_app. cbn. lia.
    + apply list_elem_of_In, (IH _ _ _ Hsz) in Hd.
      rewrite length_app in Hd. cbn in Hd. lia.
Qed.

Lemma locate_children_path (p q : node_id) (l : list stmt) :
  q ∈ map fst (locate_children p l) -> length q = S (length p).
Proof.
  intros (x & <- & Hx%list_elem_of_In)%list_elem_of_In%in_map_iff.
  apply elem_of_lookup_imap in Hx as (i & c & -> & _). cbn.
  rewrite length_app. cbn. lia.
Qed.

(** ** Functions, methods and their containers *)

Lemma _parse_import_entities (module_path : string) (node : stmt)
    (t : EntityType) (es : list EntityInfo) (rs : list RelationshipInfo) :
  _parse_import module_path node = Some (es, rs) ->
  t <> IMPORT -> entities_of t es = [].
Proof.
  intros H Ht. apply filter_none.
  assert (Hall : Forall (fun e => entity_type e = IMPORT) es).
  { destruct node; cbn [_parse_import] in H;
      try (injection H as <- <-; constructor).
    - apply for_each_Some in H as (outs & Hf & -> & _).
      induction Hf as [|a o l outs Ha _ IH]; [constructor|].
      injection Ha as <-. cbn. by constructor.
    - destruct (truthy _); injection H as <- <-; by repeat constructor. }
  eapply Forall_impl; [exact Hall|]. cbn. intros e He.
  unfold is_entity_type. apply bool_decide_eq_false. congruence.
Qed.

Lemma entities_of_cons_other (t : EntityType) (e : EntityInfo)
    (l : list EntityInfo) :
  entity_type e <> t -> entities_of t (e :: l) = entities_of t l.
Proof.
  intros H. unfold entities_of. cbn. unfold is_entity_type.
  by rewrite bool_decide_eq_false_2.
Qed.

(** What one visit of the loop appends as Function and as Method
    entities. *)
Lemma visit_definition_names (cleandoc : string -> string)
    (unparse : expr -> option string)
    (recursion_limit : nat) (module_path : string)
    (tree : Module_ast) (x : located) (es : list EntityInfo)
    (rs : list RelationshipInfo) :
  visit cleandoc unparse recursion_limit module_path tree x = Some (es, rs) ->
  map name (entities_of FUNCTION es)
  = visited_function_ids module_path tree x /\
  map name (entities_of METHOD es) = class_method_ids module_path x.
Proof.
  unfold visit, visited_function_ids, class_method_ids.
  destruct x as [p s]. cbn [snd].
  assert (Hskip : skip = Some (es, rs) ->
            map name (entities_of FUNCTION es) = [] /\
            map name (entities_of METHOD es) = []).
  { intros H. by injection H as <- <-. }
  assert (Hfun : forall node fname,
            function_name node = Some fname ->
            _parse_function cleandoc unparse recursion_limit
              module_path node false None
            = Some (es, rs) ->
            map name (entities_of FUNCTION es)
            = [module_path +:+ "." +:+ fname] /\
            map name (entities_of METHOD es) = []).
  { intros node fname Hname H.
    apply _parse_function_emission in H as (f & Hf & H).
    rewrite Hname in Hf. injection Hf as <-. cbn in H.
    destruct (definition_emission_entities _ FUNCTION _ _ _ _ H)
      as (e & He & ->); [done..|].
    destruct (definition_emission_entities _ METHOD _ _ _ _ H)
      as (e' & _ & ->); [done..|].
    rewrite bool_decide_eq_true_2, bool_decide_eq_false_2 by done.
    cbn. by destruct He as (_ & -> & _). }
  destruct s; cbn [function_name].
  - intros H. apply _parse_class_emission in H.
    inversion H as [e a1e a1r me mr a2e a2r He Habs Ha1 Hm Ha2]; subst.
    destruct He as (Het & _).
    rewrite !entities_of_cons_other by (rewrite Het; done).
    rewrite !entities_of_app.
    rewrite !(aux_no_entities _ _ _ Ha1), !(aux_no_entities _ _ _ Ha2)
      by done.
    pose proof (members_emission_entities FUNCTION _ _ _ _ Hm) as HF.
    pose proof (members_emission_entities METHOD _ _ _ _ Hm) as HM.
    cbn in HF, HM. rewrite HF by done. rewrite app_nil_r. cbn [app map].
    split; [by destruct (_is_top_level _ _)|].
    specialize (HM ltac:(done) ltac:(done) ltac:(done)).
    clear -HM. induction HM as [|f e fs es' (_ & He & _) _ IH];
      [reflexivity|]. cbn. by rewrite He, IH.
  - destruct (_is_top_level _ _); [|exact Hskip]. by apply Hfun.
  - destruct (_is_top_level _ _); [|exact Hskip]. by apply Hfun.
  - intros H. rewrite !(_parse_import_entities _ _ _ _ _ H) by done.
    by destruct (_is_top_level _ _).
  - intros H. rewrite !(_parse_import_entities _ _ _ _ _ H) by done.
    by destruct (_is_top_level _ _).
  - intros H. destruct (Hskip H) as [-> ->]. by destruct (_is_top_level _ _).
  - intros H. destruct (Hskip H) as [-> ->]. by destruct (_is_top_level _ _).
Qed.

Lemma for_each_names {A : Type} (t : EntityType) (f : A -> parse_step)
    (F : A -> list string) (l : list A) (es : list EntityInfo)
    (rs : list RelationshipInfo) :
  (forall x es' rs',
     f x = Some (es', rs') -> map name (entities_of t es') = F x) ->
  for_each l f = Some (es, rs) ->
  map name (entities_of t es) = flat_map F l.
Proof.
  intros HF. revert es rs. induction l as [|x l IH]; intros es rs H.
  - by injection H as <- <-.
  - cbn [for_each] in H.
    apply and_then_Some in H as (e1 & r1 & e2 & r2 & Hx & Hl & -> & ->).
    rewrite entities_of_app, map_app. cbn [flat_map].
    by rewrite (HF _ _ _ Hx), (IH _ _ Hl).
Qed.

Lemma flat_map_flat_map {A B C : Type} (f : A -> list B) (g : B -> list C)
    (l : list A) :
  flat_map g (flat_map f l) = flat_map (fun x => flat_map g (f x)) l.
Proof.
  induction l as [|x l IH]; [reflexivity|]. cbn.
  by rewrite flat_map_app, IH.
Qed.

Lemma flat_map_pointwise {A B : Type} (f g : A -> list B) (l : list A) :
  (forall x, x ∈ l -> f x = g x) -> flat_map f l = flat_map g l.
Proof.
  induction l as [|x l IH]; intros H; [reflexivity|]. cbn.
  rewrite H by (by left). rewrite IH; [reflexivity|].
  intros y Hy. apply H. by right.
Qed.

Lemma flat_map_nil {A B : Type} (l : list A) :
  flat_map (fun _ : A => @nil B) l = [].
Proof. by induction l. Qed.

Lemma flat_map_locate_children {B : Type} (g : stmt -> list B)
    (p : node_id) (l : list stmt) :
  flat_map (fun n : located => g (snd n)) (locate_children p l)
  = flat_map g l.
Proof.
  unfold locate_children.
  generalize (fun i : nat => p ++ [i]). intros h.
  change (imap (fun i c => (p ++ [i], c)) l)
    with (imap (fun i c => ((fun i => p ++ [i]) i, c)) l).
  assert (H : forall (h : nat -> node_id),
            flat_map (fun n : located => g (snd n))
              (imap (fun i c => (h i, c)) l) = flat_map g l).
  { induction l as [|c l IH]; intros h'; [reflexivity|].
    cbn. f_equal. apply (IH (h' ∘ S)). }
  apply H.
Qed.

(** Of all the nodes of the module, only the function definitions of the
    module body are visited as functions. *)
Lemma visited_function_ids_all_nodes (module_path : string)
    (tree : Module_ast) :
  flat_map (visited_function_ids module_path tree) (all_nodes tree)
  = module_function_ids module_path tree.
Proof.
  unfold all_nodes, module_function_ids. rewrite flat_map_flat_map.
  set (top := locate_children [] (mod_body tree)).
  rewrite (flat_map_pointwise _
             (fun n => match function_name (snd n) with
                       | Some f => [module_path +:+ "." +:+ f]
                       | None => []
                       end) top).
  - unfold top.
    rewrite (flat_map_locate_children
               (fun c => match function_name c with
                         | Some f => [module_path +:+ "." +:+ f]
                         | None => []
                         end)).
    unfold method_names.
    induction (mod_body tree) as [|c l IH]; [reflexivity|].
    cbn [flat_map omap list_omap]. rewrite IH.
    by destruct (function_name c).
  - intros [p s] Hin. unfold closure. cbn [flat_map fst snd].
    rewrite (flat_map_pointwise _ (fun _ => [])).
    + rewrite flat_map_nil, app_nil_r.
      unfold visited_function_ids, _is_top_level. cbn [fst snd].
      rewrite bool_decide_eq_true_2; [reflexivity|].
      apply list_elem_of_In, in_map_iff. exists (p, s).
      split; [reflexivity|]. by apply list_elem_of_In.
    + intros d Hd. unfold visited_function_ids, _is_top_level.
      rewrite bool_decide_eq_false_2; [reflexivity|].
      intros Hq%locate_children_path.
      apply (descendants_longer _ _ _ _ (Nat.le_refl _)) in Hd.
      assert (length p = 1%nat) as Hp.
      { apply (locate_children_path [] p (mod_body tree)).
        apply list_elem_of_In, in_map_iff. exists (p, s).
        split; [reflexivity|]. by apply list_elem_of_In. }
      cbn in Hq. lia.
Qed.

Lemma is_definition_true (e : EntityInfo) :
  entity_type e = CLASS \/ entity_type e = FUNCTION \/ entity_type e = METHOD
  -> is_definition e = true.
Proof.
  unfold is_definition, is_entity_type.
  intros [-> | [-> | ->]]; reflexivity.
Qed.

Lemma is_definition_false (e : EntityInfo) :
  entity_type e <> CLASS -> entity_type e <> FUNCTION ->
  entity_type e <> METHOD -> is_definition e = false.
Proof.
  intros. unfold is_definition, is_entity_type.
  by rewrite !bool_decide_eq_false_2.
Qed.

Lemma aux_no_definitions (es : list EntityInfo)
    (rs : list RelationshipInfo) :
  aux_emission (es, rs) -> List.filter is_definition es = [].
Proof.
  intros [H _]%aux_emission_types. apply filter_none.
  eapply Forall_impl; [exact H|]. cbn. intros e He.
  apply is_definition_false; intros Heq; rewrite Heq in He;
    destruct He as [?|[?|?]]; congruence.
Qed.

(** In an extraction the definition entities and the CONTAINS edges go
    in pairs, in the order they are appended. *)
Lemma emission_contains (module_path : string) (o : emitted) :
  emission module_path o ->
  Forall2 (contains_edge_of module_path)
    (List.filter is_definition (fst o)) (relationships_of CONTAINS (snd o)).
Proof.
  induction 1 as [|e1 r1 e2 r2 _ IH1 _ IH2|[es rs] Haux|fp doc
                  |t parent local e He Ht|c b|m imp from ln linked];
    cbn [fst snd] in *.
  - constructor.
  - rewrite List.filter_app, relationships_of_app. by apply Forall2_app.
  - rewrite (aux_no_definitions _ _ Haux).
    rewrite (aux_no_relationships CONTAINS _ _ Haux) by done. constructor.
  - constructor.
  - cbn [List.filter relationships_of]. rewrite is_definition_true.
    2:{ destruct He as (-> & _).
        destruct Ht as [[-> _] | [[-> _] | [-> _]]]; auto. }
    cbn. constructor; [|constructor].
    destruct He as (Het & Hname & _). unfold contains_edge_of. cbn.
    rewrite Hname, Het. split; [reflexivity|]. split; [by exists local|].
    split.
    + intros ->. destruct Ht as [[? _]|[[? _]|[_ Hc]]]; done.
    + intros Hne. destruct Ht as [[_ ->] | [[_ ->] | [-> _]]]; done.
  - constructor.
  - destruct linked; constructor.
Qed.

(** C8, as the code has it. For every source unit that parses: the Function
    entities are exactly the function definitions of the module body, each
    once, so no function defined in a class body is a Function entity; the
    Method entities are exactly the function definitions standing in the
    body of some class definition of the unit, each once, with the id of
    the class before their name; and the CONTAINS edges are one per Class,
    Function and Method entity, in order, each targeting the id of its
    entity, from the module for a class or a function and from the class id
    for a method. *)
Theorem definitions_and_their_containers
    (cleandoc : string -> string) (unparse : expr -> option string)
    (recursion_limit : nat)
    (file_path module_path : string) (tree : Module_ast)
    (es : list EntityInfo) (rs : list RelationshipInfo) :
  parse_file cleandoc unparse recursion_limit file_path module_path (Some tree)
  = Some (es, rs) ->
  map name (entities_of FUNCTION es) ≡ₚ module_function_ids module_path tree
  /\
  map name (entities_of METHOD es)
  ≡ₚ flat_map (class_method_ids module_path) (all_nodes tree) /\
  Forall2 (contains_edge_of module_path)
    (List.filter is_definition es) (relationships_of CONTAINS rs).
Proof.
  intros H.
  pose proof (emission_contains _ _ (parse_file_emission _ _ _ _ _ _ _ H))
    as Hpairs.
  split; [|split]; [| |exact Hpairs].
  - cbn [parse_file] in H.
    apply and_then_Some in H as (e1 & r1 & e2 & r2 & He & H & -> & ->).
    injection He as <- <-. rewrite entities_of_app, map_app. cbn [app].
    assert (map name (entities_of FUNCTION e2)
            = flat_map (visited_function_ids module_path tree) (walk tree))
      as ->.
    { eapply for_each_names; [|exact H].
      intros x es' rs' Hx. by apply visit_definition_names in Hx as [? _]. }
    cbn. rewrite <- visited_function_ids_all_nodes.
    apply Permutation_flat_map, walk_permutation.
  - cbn [parse_file] in H.
    apply and_then_Some in H as (e1 & r1 & e2 & r2 & He & H & -> & ->).
    injection He as <- <-. rewrite entities_of_app, map_app. cbn [app].
    assert (map name (entities_of METHOD e2)
            = flat_map (class_method_ids module_path) (walk tree)) as ->.
    { eapply for_each_names; [|exact H].
      intros x es' rs' Hx. by apply visit_definition_names in Hx as [_ ?]. }
    cbn. apply Permutation_flat_map, walk_permutation.
Qed.

Lemma definitions_and_their_containers_witness :
  exists es rs,
    parse_file (fun s => s) (fun _ => None) 1000 "/repo/pkg/mod.py" "pkg.mod"
      (Some example_tree) = Some (es, rs) /\
    map name (entities_of FUNCTION es) ≡ₚ [] /\
    map name (entities_of METHOD es) ≡ₚ ["pkg.mod.Foo.bar"].
Proof.
  eexists _, _. split; [reflexivity|].
  destruct (definitions_and_their_containers (fun s => s) (fun _ => None) 1000
              "/repo/pkg/mod.py" "pkg.mod" example_tree _ _ eq_refl)
    as (Hf & Hm & _).
  split; [exact Hf|exact Hm].
Defined.

(** C8, as stated, fails: not every entity has a containing parent. In the
    module m that imports os and defines a function f with a parameter x and
    a decorator cache, no relationship of the extraction targets the Import
    entity, the Decorator entity or the Module entity, and no CONTAINS
    relationship targets the Parameter entity. *)
Lemma entities_without_containing_parent :
  exists es rs,
    parse_file (fun s => s) (fun _ => None) 1000 "/repo/m.py" "m"
      (Some import_and_decorator) = Some (es, rs) /\
    (forall id, id ∈ ["m"; "m.import.os"; "m.f.decorator.cache"] ->
       id ∈ map name es /\ forall r, r ∈ rs -> target r <> id) /\
    "m.f.param.x" ∈ map name es /\
    forall r, r ∈ rs -> rel_type r = CONTAINS -> target r <> "m.f.param.x".
Proof.
  eexists _, _. split; [reflexivity|]. split; [|split].
  - intros id Hid. split.
    + apply list_elem_of_In in Hid. apply list_elem_of_In.
      cbn in Hid |- *. intuition (subst; tauto).
    + intros r Hr%list_elem_of_In. apply list_elem_of_In in Hid.
      cbn in Hr, Hid. intuition (subst; discriminate).
  - apply list_elem_of_In. cbn. tauto.
  - intros r Hr%list_elem_of_In. cbn in Hr.
    intuition (subst; discriminate).
Qed.

(** ** Module paths *)

Lemma substring_all (s : string) : substring 0 (String.length s) s = s.
Proof. induction s as [|c s IH]; [reflexivity|]. cbn. by rewrite IH. Qed.

Lemma substring_append_l (a b : string) :
  substring 0 (String.length a) (a +:+ b) = a.
Proof.
  induction a as [|c a IH]; cbn.
  - by destruct b.
  - by rewrite IH.
Qed.

Lemma substring_append_r (a b : string) :
  substring (String.length a) (String.length b) (a +:+ b) = b.
Proof.
  induction a as [|c a IH]; cbn; [apply substring_all|exact IH].
Qed.

Lemma endswith_append (a suffix : string) : endswith suffix (a +:+ suffix) = true.
Proof.
  unfold endswith. rewrite length_append.
  replace (String.length a + String.length suffix - String.length suffix)%nat
    with (String.length a) by lia.
  rewrite substring_append_r, String.eqb_refl, andb_true_r.
  apply Nat.leb_le. lia.
Qed.

Lemma last_snoc_Some {A : Type} (l : list A) (x : A) : last (l ++ [x]) = Some x.
Proof. apply last_snoc. Qed.

Lemma get_module_path_py (dirs : list string) (stem : string) :
  get_module_path (Some (dirs ++ [stem +:+ ".py"]))
  = Some (join "." (if String.eqb stem "__init__" then dirs
                    else dirs ++ [stem])).
Proof.
  unfold get_module_path. rewrite last_snoc_Some, endswith_append.
  rewrite length_append. cbn [String.length].
  replace (String.length stem + 3 - 3)%nat with (String.length stem) by lia.
  rewrite substring_append_l, !removelast_last.
  by destruct (String.eqb stem "__init__").
Qed.

(** X1. [get_module_path] turns the parts of a path below the clone path
    into a dotted module path: the suffix .py of the file name is dropped,
    the directories and the stem are joined with dots, and the stem
    __init__ is left out, so that a package's __init__.py gets the path of
    its directory (the empty path at the top of the repository). *)
Theorem get_module_path_of_python_file (dirs : list string) (stem : string) :
  get_module_path (Some (dirs ++ [stem +:+ ".py"]))
  = Some (join "." (if String.eqb stem "__init__" then dirs
                    else dirs ++ [stem])) /\
  get_module_path (Some (dirs ++ ["__init__.py"])) = Some (join "." dirs) /\
  get_module_path (Some ["__init__.py"]) = Some "".
Proof.
  split; [apply get_module_path_py|]. split.
  - apply (get_module_path_py dirs "__init__").
  - apply (get_module_path_py [] "__init__").
Qed.

(** X2. A module file and the package of the same name have one module
    path: pkg/mod.py and pkg/mod/__init__.py are both given pkg.mod, so
    [get_module_path] is not injective on the files of a repository. *)
Theorem get_module_path_module_and_package (dirs : list string)
    (stem : string) :
  stem <> "__init__" ->
  get_module_path (Some (dirs ++ [stem +:+ ".py"]))
  = get_module_path (Some ((dirs ++ [stem]) ++ ["__init__.py"])) /\
  dirs ++ [stem +:+ ".py"] <> (dirs ++ [stem]) ++ ["__init__.py"].
Proof.
  intros Hne. split.
  - etrans; [apply get_module_path_py|].
    etrans; [|symmetry; apply (get_module_path_py (dirs ++ [stem]) "__init__")].
    destruct (String.eqb_spec stem "__init__"); [done|reflexivity].
  - intros H. apply (f_equal length) in H.
    rewrite !length_app in H. cbn in H. lia.
Qed.

Lemma get_module_path_module_and_package_witness :
  get_module_path (Some (["pkg"] ++ ["mod" +:+ ".py"]))
  = get_module_path (Some ((["pkg"] ++ ["mod"]) ++ ["__init__.py"])) /\
  ["pkg"] ++ ["mod" +:+ ".py"] <> (["pkg"] ++ ["mod"]) ++ ["__init__.py"].
Proof.
  apply (get_module_path_module_and_package ["pkg"] "mod"). discriminate.
Defined.

(** X3. [get_module_path] raises in two cases only: the file is not below
    the clone path, or it is the clone path itself, which has no parts. *)
Theorem get_module_path_raises (relative_parts : option (list string)) :
  get_module_path relative_parts = None
  <-> relative_parts = None \/ relative_parts = Some [].
Proof.
  unfold get_module_path. destruct relative_parts as [parts|]; [|tauto].
  destruct parts as [|p parts _] using rev_ind.
  - cbn. tauto.
  - rewrite last_snoc_Some. split; [discriminate|].
    intros [H|H]; [discriminate|]. injection H as H.
    by destruct parts.
Qed.

(** ** The job loop, for every list of files *)

Section JobLoop.

Context (cleandoc : string -> string) (unparse : expr -> option string)
  (recursion_limit : nat).

(** A file whose indexing fails leaves the graph as it was. *)
Lemma index_file_failure (client_ok : bool) (file : py_file) (g : graph) :
  fst (index_file cleandoc unparse recursion_limit client_ok file g) = None ->
  snd (index_file cleandoc unparse recursion_limit client_ok file g) = g.
Proof. intros _. by rewrite index_file_outcome. Qed.

(** The loop only ever writes [files_processed], and leaves the graph to
    [index_file]. *)
Lemma index_each_fields (files : list (Z * py_file)) (job : IndexingJob)
    (g : graph) :
  let job' := snd (fst (index_each cleandoc unparse recursion_limit
                          files job g)) in
  job_id job' = job_id job /\ status job' = status job /\
  started_at job' = started_at job /\ completed_at job' = completed_at job /\
  total_files job' = total_files job /\ error job' = error job.
Proof.
  revert job g. induction files as [|[i f] files IH]; intros job g; [done|].
  cbn [index_each].
  destruct (index_file cleandoc unparse recursion_limit
              true f g) as [[[r|]|] g'];
    [|done|apply IH].
  exact (IH (set_files_processed (i + 1) job) _).
Qed.

Lemma index_each_graph (files : list (Z * py_file)) (job : IndexingJob)
    (g : graph) :
  snd (index_each cleandoc unparse recursion_limit files job g) = g.
Proof.
  revert job. induction files as [|[i f] files IH]; intros job; [done|].
  cbn [index_each]. rewrite index_file_outcome.
  destruct (extract cleandoc unparse recursion_limit f); [|apply IH].
  destruct (cancelled_while_indexed f); [done|apply IH].
Qed.

(** [files_processed] stays as it was or ends within the positions of the
    files of the loop. *)
Lemma index_each_processed (i : Z) (l : list py_file) (job : IndexingJob)
    (g : graph) :
  let job' :=
    snd (fst (index_each cleandoc unparse recursion_limit
                (enumerate_from i l) job g)) in
  files_processed job' = files_processed job \/
  (i < files_processed job' <= i + Z.of_nat (length l))%Z.
Proof.
  revert i job g. induction l as [|f l IH]; intros i job g; [by left|].
  cbn [enumerate_from index_each length].
  destruct (index_file cleandoc unparse recursion_limit
              true f g) as [[[r|]|] g1].
  - destruct (IH (i + 1)%Z (set_files_processed (i + 1) job) g1) as [H|H];
      right; [rewrite H; cbn|]; lia.
  - by left.
  - destruct (IH (i + 1)%Z job g1) as [H|H]; [by left|right; lia].
Qed.

(** When no file can be indexed the loop changes nothing. *)
Lemma index_each_none (files : list (Z * py_file)) (job : IndexingJob)
    (g : graph) :
  Forall (fun f => forall g',
            fst (index_file cleandoc unparse recursion_limit
                   true (snd f) g') = None) files ->
  index_each cleandoc unparse recursion_limit files job g = (true, job, g).
Proof.
  revert job g. induction files as [|[i f] files IH]; intros job g H;
    [reflexivity|].
  apply Forall_cons in H as [Hf H]. cbn [snd] in Hf.
  cbn [index_each].
  pose proof (Hf g) as Hg. pose proof (index_file_failure _ _ _ Hg) as Hs.
  destruct (index_file cleandoc unparse recursion_limit true f g) as [r g'].
  cbn [fst snd] in Hg, Hs. subst r g'. by apply IH.
Qed.

Lemma enumerate_from_snd {A : Type} (i : Z) (l : list A) :
  map snd (enumerate_from i l) = l.
Proof.
  revert i. induction l as [|x l IH]; intros i; [reflexivity|].
  cbn. by rewrite IH.
Qed.

Lemma index_repository_without_files (env : job_env) (g : graph)
    (files : list py_file) :
  discovery env = inr files ->
  connect env = None ->
  Forall (fun f => forall g',
            fst (index_file cleandoc unparse recursion_limit
                   true f g') = None) files ->
  index_repository cleandoc unparse recursion_limit env g
  = (inr (mk_index_repository_result (new_job_id env) 0
            (Z.of_nat (length files))),
     mk_IndexingJob (new_job_id env) COMPLETED (start_time env)
       (Some (end_time env)) 0 (Z.of_nat (length files)) None,
     g).
Proof.
  intros Hd Hc Hf. unfold index_repository. rewrite Hd, Hc.
  rewrite index_each_none; [reflexivity|].
  apply List.Forall_forall. intros [i f] Hin. cbn [snd].
  apply (proj1 (List.Forall_forall _ _) Hf).
  rewrite <- (enumerate_from_snd 0 files).
  apply List.in_map_iff. by exists (i, f).
Qed.

Lemma index_repository_outcomes (env : job_env) (g : graph) :
  let out := index_repository cleandoc unparse recursion_limit env g in
  let job := snd (fst out) in
  match fst (fst out) with
  | inr r =>
      status job = COMPLETED /\ completed_at job = Some (end_time env) /\
      error job = None /\
      r = mk_index_repository_result (new_job_id env) (files_processed job)
            (total_files job)
  | inl (Error msg) =>
      status job = FAILED /\ completed_at job = Some (end_time env) /\
      exists cause,
        error job = Some cause /\
        msg = "Repository indexing failed: " +:+ cause
  | inl CancelledError =>
      status job = IN_PROGRESS /\ completed_at job = None /\
      error job = None
  end /\
  job_id job = new_job_id env /\
  started_at job = start_time env /\
  (0 <= files_processed job <= total_files job)%Z /\
  snd out = g.
Proof.
  unfold index_repository.
  destruct (discovery env) as [[msg|]|files]; cbn.
  { split; [by eauto|]. split; [done|]. split; [done|]. split; [lia|done]. }
  { split; [done|]. split; [done|]. split; [done|]. split; [lia|done]. }
  destruct (connect env) as [[msg|]|]; cbn.
  { split; [by eauto|]. split; [done|]. split; [done|]. split; [lia|done]. }
  { split; [done|]. split; [done|]. split; [done|]. split; [lia|done]. }
  set (job0 := mk_IndexingJob _ _ _ _ _ _ _).
  pose proof (index_each_fields (enumerate files) job0 g) as Hf.
  pose proof (index_each_processed 0 files job0 g) as Hp.
  pose proof (index_each_graph (enumerate files) job0 g) as Hg.
  unfold enumerate in *.
  destruct (index_each cleandoc unparse recursion_limit
              (enumerate_from 0 files) job0 g)
    as [[[] job] g'];
    cbn in Hf, Hp, Hg |- *; destruct Hf as (Hid & Hst & Hs & Hc & Ht & He).
  - rewrite Hid, Ht, He. split; [done|]. split; [done|]. split; [done|].
    split; [lia|done].
  - split; [done|]. split; [done|]. split; [done|]. split; [lia|done].
Qed.


(** X4. A run of [index_repository] that returns leaves its job COMPLETED,
    and a run that raises [IndexerError] leaves it FAILED with the message
    of the cause; in both cases the completion time is set.  The handlers
    catch [Exception] only: a run cancelled at one of its awaits raises
    [CancelledError] and leaves the job IN_PROGRESS, with no completion
    time and no error.  In every case the job keeps its id and its start
    time, the number of files processed lies between 0 and the total number
    of files, and the graph is the one the run started with. *)
Theorem index_repository_job_invariants (env : job_env) (g : graph) :
  let out := index_repository cleandoc unparse recursion_limit env g in
  let job := snd (fst out) in
  match fst (fst out) with
  | inr r =>
      status job = COMPLETED /\ completed_at job = Some (end_time env) /\
      error job = None /\
      r = mk_index_repository_result (new_job_id env) (files_processed job)
            (total_files job)
  | inl (Error msg) =>
      status job = FAILED /\ completed_at job = Some (end_time env) /\
      exists cause,
        error job = Some cause /\
        msg = "Repository indexing failed: " +:+ cause
  | inl CancelledError =>
      status job = IN_PROGRESS /\ completed_at job = None /\
      error job = None
  end /\
  job_id job = new_job_id env /\
  started_at job = start_time env /\
  (0 <= files_processed job <= total_files job)%Z /\
  snd out = g.
Proof. apply index_repository_outcomes. Qed.

(** X5. As [execute_batch_write] stands, a job that is not cancelled
    processes no file: [index_file] raises for every discovered file,
    whatever it holds, each failure is logged and skipped, and the job ends
    COMPLETED with files_processed = 0 of the files discovered and the
    graph as it was. *)
Theorem index_repository_processes_no_file (env : job_env) (g : graph)
    (files : list py_file) :
  discovery env = inr files ->
  connect env = None ->
  Forall (fun f => cancelled_while_indexed f = false) files ->
  index_repository cleandoc unparse recursion_limit env g
  = (inr (mk_index_repository_result (new_job_id env) 0
            (Z.of_nat (length files))),
     mk_IndexingJob (new_job_id env) COMPLETED (start_time env)
       (Some (end_time env)) 0 (Z.of_nat (length files)) None,
     g).
Proof.
  intros Hd Hc Hn. apply index_repository_without_files; [done..|].
  eapply Forall_impl; [exact Hn|]. cbn. intros f Hf g'.
  rewrite index_file_outcome, Hf. cbn.
  by destruct (extract cleandoc unparse recursion_limit f).
Qed.

(** X6. A job none of whose files can be indexed still ends COMPLETED and
    returns a result, with no file processed and the graph unchanged; only
    a failure of cloning, discovery or the connection makes the job
    FAILED. *)
Theorem index_repository_completes_without_files (env : job_env) (g : graph)
    (files : list py_file) :
  discovery env = inr files ->
  connect env = None ->
  Forall (fun f => forall g',
            fst (index_file cleandoc unparse recursion_limit
                   true f g') = None) files ->
  index_repository cleandoc unparse recursion_limit env g
  = (inr (mk_index_repository_result (new_job_id env) 0
            (Z.of_nat (length files))),
     mk_IndexingJob (new_job_id env) COMPLETED (start_time env)
       (Some (end_time env)) 0 (Z.of_nat (length files)) None,
     g).
Proof. apply index_repository_without_files. Qed.

End JobLoop.

Lemma index_repository_processes_no_file_witness :
  index_repository (fun s => s) (fun _ => None) 1000 two_broken_then_good_env
    empty_graph
  = (inr (mk_index_repository_result "idx_2" 0 3),
     mk_IndexingJob "idx_2" COMPLETED 100 (Some 200%Z) 0 3 None,
     empty_graph).
Proof.
  apply (index_repository_processes_no_file (fun s => s) (fun _ => None) 1000
           two_broken_then_good_env empty_graph
           [broken_file "a"; broken_file "b"; good_file "c"]);
    [reflexivity|reflexivity|].
  by repeat constructor.
Defined.

Lemma index_repository_completes_without_files_witness :
  index_repository (fun s => s) (fun _ => None) 1000 two_broken_env empty_graph
  = (inr (mk_index_repository_result "idx_3" 0 2),
     mk_IndexingJob "idx_3" COMPLETED 100 (Some 200%Z) 0 2 None,
     empty_graph).
Proof.
  apply (index_repository_completes_without_files (fun s => s)
           (fun _ => None) 1000 two_broken_env empty_graph
           [broken_file "a"; broken_file "b"]); [reflexivity|reflexivity|].
  repeat constructor; intros g'; by rewrite index_file_unparsed.
Defined.

(** ** Dictionaries of entities and of query results *)

Lemma dict_get_update (k : string) (d extra : pydict) :
  dict_get k (dict_update d extra)
  = match last_value k extra with
    | Some v => Some v
    | None => dict_get k d
    end.
Proof.
  unfold dict_update. revert d.
  induction extra as [|[k' v] extra IH]; intros d; [reflexivity|].
  cbn [fold_left last_value fst snd]. rewrite IH.
  destruct (last_value k extra) as [w|]; [reflexivity|].
  destruct (String.eqb_spec k' k) as [->|Hne].
  - apply dict_get_set_eq.
  - by apply dict_get_set_ne.
Qed.

(** In a dictionary, whose keys are distinct, the last value assigned under
    a key is the value read under it. *)
Lemma last_value_dict_get (k : string) (d : pydict) :
  NoDup (dict_keys d) -> last_value k d = dict_get k d.
Proof.
  induction d as [|[k' v] d IH]; [reflexivity|].
  cbn [dict_keys map fst]. intros [Hk Hd]%NoDup_cons.
  cbn [last_value dict_get]. rewrite (IH Hd).
  destruct (String.eqb_spec k' k) as [->|Hne]; [|by destruct (dict_get k d)].
  by rewrite dict_get_None_keys.
Qed.

(** X7. [EntityInfo.to_dict] and [RelationshipInfo.to_dict] read key by
    key: a key of the properties gives the property's value, also when it
    is one of the three fixed keys, whose value it replaces; any other key
    gives the fixed field, if it is one.  So a property called name hides
    the entity's qualified name in the dictionary. *)
Theorem to_dict_properties_take_precedence (e : EntityInfo)
    (r : RelationshipInfo) (k : string) :
  NoDup (dict_keys (properties e)) ->
  NoDup (dict_keys (rel_properties r)) ->
  dict_get k (EntityInfo_to_dict e)
  = get_over k (properties e) (entity_fields e) /\
  dict_get k (RelationshipInfo_to_dict r)
  = get_over k (rel_properties r) (relationship_fields r) /\
  NoDup (dict_keys (EntityInfo_to_dict e)) /\
  (forall v, dict_get "name" (properties e) = Some v ->
     dict_get "name" (EntityInfo_to_dict e) = Some v).
Proof.
  intros He Hr.
  assert (Hk : forall k', dict_get k' (EntityInfo_to_dict e)
                          = get_over k' (properties e) (entity_fields e)).
  { intros k'. unfold EntityInfo_to_dict, get_over.
    by rewrite dict_get_update, last_value_dict_get. }
  split; [apply Hk|]. split.
  - unfold RelationshipInfo_to_dict, get_over.
    by rewrite dict_get_update, last_value_dict_get.
  - split; [apply EntityInfo_to_dict_NoDup|].
    intros v Hv. rewrite Hk. unfold get_over. by rewrite Hv.
Qed.

Lemma to_dict_properties_take_precedence_witness :
  dict_get "name" (EntityInfo_to_dict class_entity_example)
  = Some (PyStr "Foo").
Proof.
  destruct (to_dict_properties_take_precedence class_entity_example
              (mk_RelationshipInfo CONTAINS "pkg.mod" "pkg.mod.Foo" [])
              "name") as (_ & _ & _ & H).
  - by_evaluation.
  - by_evaluation.
  - by apply H.
Defined.

Lemma dict_set_fresh (k : string) (v : pyval) (d : pydict) :
  k ∉ dict_keys d -> dict_set k v d = d ++ [(k, v)].
Proof.
  induction d as [|[k' v'] d IH]; [reflexivity|].
  cbn [dict_keys map fst dict_set app]. intros H.
  destruct (String.eqb_spec k' k) as [->|Hne].
  - exfalso. apply H. by left.
  - rewrite IH; [reflexivity|]. intros ?. apply H. by right.
Qed.

Lemma dict_update_fresh (d record : pydict) :
  NoDup (dict_keys (d ++ record)) -> dict_update d record = d ++ record.
Proof.
  unfold dict_update. revert d.
  induction record as [|[k v] record IH]; intros d H.
  - by rewrite app_nil_r.
  - cbn [fold_left fst snd].
    replace (d ++ (k, v) :: record) with ((d ++ [(k, v)]) ++ record) in *
      by (by rewrite <- app_assoc).
    rewrite dict_set_fresh.
    + by apply IH.
    + unfold dict_keys in *. rewrite !map_app in H.
      apply NoDup_app in H as [H _]. apply NoDup_app in H as (_ & H & _).
      intros Hin. apply (H k Hin). by left.
Qed.

(** X8. [parse_cypher_result] returns the records it is given, unchanged
    and in order, when they hold plain values: each record is copied key
    by key into a new dictionary. *)
Theorem parse_cypher_result_copies (result : list pydict) :
  Forall (fun record => NoDup (dict_keys record)) result ->
  parse_cypher_result result = result.
Proof.
  unfold parse_cypher_result. induction 1 as [|record result H _ IH];
    [reflexivity|].
  cbn [map]. rewrite IH. f_equal.
  exact (dict_update_fresh [] record H).
Qed.

Lemma parse_cypher_result_copies_witness :
  parse_cypher_result [[("count", PyInt 3)]; [("e", PyStr "x"); ("n", PyNone)]]
  = [[("count", PyInt 3)]; [("e", PyStr "x"); ("n", PyNone)]].
Proof.
  apply parse_cypher_result_copies.
  repeat constructor; by_evaluation.
Defined.

(** ** Every entity of an extraction *)

Section Appends.

Context (P : EntityInfo -> Prop).

Lemma appends_skip : appends P skip.
Proof. intros es rs [= <- <-]. constructor. Qed.

Lemma appends_raise : appends P raise.
Proof. intros es rs [=]. Qed.

Lemma appends_entity (e : EntityInfo) : P e -> appends P (append_entity e).
Proof. intros He es rs [= <- <-]. by constructor. Qed.

Lemma appends_relationship (r : RelationshipInfo) :
  appends P (append_relationship r).
Proof. intros es rs [= <- <-]. constructor. Qed.

Lemma appends_and_then (a b : parse_step) :
  appends P a -> appends P b -> appends P (a ;; b).
Proof.
  intros Ha Hb es rs H.
  apply and_then_Some in H as (e1 & r1 & e2 & r2 & H1 & H2 & -> & ->).
  apply Forall_app. split; [by eapply Ha|by eapply Hb].
Qed.

Lemma appends_for_each {A : Type} (l : list A) (f : A -> parse_step) :
  (forall x, appends P (f x)) -> appends P (for_each l f).
Proof.
  intros Hf. induction l as [|x l IH]; [apply appends_skip|].
  cbn [for_each]. by apply appends_and_then.
Qed.

End Appends.

Ltac appends_step :=
  first
    [ apply appends_skip
    | apply appends_raise
    | apply appends_relationship
    | apply appends_and_then
    | apply appends_for_each; intros ?
    | apply appends_entity
    | match goal with
      | |- appends _ (if ?b then _ else _) => destruct b
      | |- appends _ (match ?x with Some _ => _ | None => _ end) =>
          destruct x
      | |- appends _ (let '(_, _) := ?p in _) => destruct p
      end ].

Section Shapes.

Context (cleandoc : string -> string) (unparse : expr -> option string)
  (recursion_limit : nat).
Context (module_path : string).

Lemma _add_parameter_below (parent : string) (a : arg) (position : Z) :
  appends below_module (_add_parameter unparse parent a position).
Proof. unfold _add_parameter. repeat appends_step. by repeat split. Qed.

Lemma _add_decorator_below (parent d : string) :
  appends below_module (_add_decorator parent d).
Proof. unfold _add_decorator. repeat appends_step. by repeat split. Qed.

Lemma _add_docstring_below (parent content : string) (ln : Z) :
  appends below_module (_add_docstring parent content ln).
Proof. unfold _add_docstring. repeat appends_step. by repeat split. Qed.

Lemma _parse_function_below (node : stmt) (is_method : bool)
    (parent_class : option string) :
  appends below_module
    (_parse_function cleandoc unparse recursion_limit module_path node is_method
       parent_class).
Proof.
  destruct node; cbn [_parse_function]; try apply appends_raise;
    unfold _parse_function_def;
    repeat first [ apply _add_parameter_below | apply _add_decorator_below
                 | apply _add_docstring_below | appends_step ];
    destruct is_method; by repeat split.
Qed.

Lemma _parse_class_below (node : stmt) :
  appends below_module (_parse_class cleandoc unparse recursion_limit
                          module_path node).
Proof.
  destruct node; cbn [_parse_class]; try apply appends_raise.
  repeat first [ apply _parse_function_below | apply _add_decorator_below
               | apply _add_docstring_below | appends_step ].
  by repeat split.
Qed.

Lemma _parse_import_below (node : stmt) :
  appends below_module (_parse_import module_path node).
Proof.
  destruct node; cbn [_parse_import]; repeat appends_step;
    by repeat split.
Qed.

Lemma visit_below (tree : Module_ast) (node : located) :
  appends below_module (visit cleandoc unparse recursion_limit
                          module_path tree node).
Proof.
  unfold visit. destruct (snd node) eqn:Hn; try apply appends_skip;
    rewrite <- ?Hn;
    first [ apply _parse_class_below | apply _parse_import_below | idtac ];
    (destruct (_is_top_level node tree);
     [apply _parse_function_below|apply appends_skip]).
Qed.

(** Every extraction is the module entity followed by entities that are
    not modules. *)
Lemma parse_file_module_first (file_path : string) (tree : Module_ast)
    (es : list EntityInfo) (rs : list RelationshipInfo) :
  parse_file cleandoc unparse recursion_limit file_path module_path (Some tree)
  = Some (es, rs) ->
  exists rest,
    es = mk_EntityInfo MODULE module_path 1
           [("path", PyStr module_path); ("file_path", PyStr file_path);
            ("docstring",
             PyStr (default "" (get_docstring cleandoc (mod_body tree))))]
         :: rest /\
    Forall below_module rest.
Proof.
  cbn [parse_file]. intros H.
  apply and_then_Some in H as (e1 & r1 & e2 & r2 & He & H & -> & ->).
  injection He as <- <-. exists e2. split; [reflexivity|].
  eapply (appends_for_each below_module); [|exact H].
  intros x. apply visit_below.
Qed.

End Shapes.

Lemma parse_file_property_keys_lemma
    (cleandoc : string -> string) (unparse : expr -> option string)
    (recursion_limit : nat)
    (file_path module_path : string) (tree : option Module_ast)
    (es : list EntityInfo) (rs : list RelationshipInfo) :
  parse_file cleandoc unparse recursion_limit
    file_path module_path tree = Some (es, rs) ->
  Forall keyed_by_type es.
Proof.
  destruct tree as [tree|]; [|done]. intros H.
  apply parse_file_module_first in H as (rest & -> & Hrest).
  constructor; [reflexivity|].
  eapply Forall_impl; [exact Hrest|]. by intros e (Hk & _).
Qed.

(** X9. In every extraction each entity carries exactly the property keys
    of its kind, in the order the parser writes them: path, file_path and
    docstring for the module; name, module_path, docstring and is_abstract
    for a class; and so on as [property_keys] lists them.  A method has the
    keys of a function and is_static, is_classmethod after them.  No entity
    of kind File is ever extracted. *)
Theorem parse_file_property_keys
    (cleandoc : string -> string) (unparse : expr -> option string)
    (recursion_limit : nat)
    (file_path module_path : string) (tree : option Module_ast)
    (es : list EntityInfo) (rs : list RelationshipInfo) :
  parse_file cleandoc unparse recursion_limit
    file_path module_path tree = Some (es, rs) ->
  Forall (fun e => dict_keys (properties e) = property_keys (entity_type e)
                   /\ NoDup (dict_keys (properties e))
                   /\ entity_type e <> FILE) es.
Proof.
  destruct tree as [tree|]; [|done]. intros H.
  apply parse_file_module_first in H as (rest & -> & Hrest).
  constructor.
  - split; [reflexivity|]. split; [by_evaluation|done].
  - eapply Forall_impl; [exact Hrest|]. cbn.
    intros e (Hk & _ & Hf). split; [exact Hk|]. split; [|exact Hf].
    rewrite Hk. destruct (entity_type e); by_evaluation.
Qed.

Lemma parse_file_property_keys_witness :
  exists es rs,
    parse_file (fun s => s) (fun _ => None) 1000 "/repo/pkg/mod.py" "pkg.mod"
      (Some example_tree) = Some (es, rs) /\
    map (fun e => dict_keys (properties e)) es
    = map (fun e => property_keys (entity_type e)) es.
Proof.
  eexists _, _. split; [reflexivity|].
  pose proof (parse_file_property_keys (fun s => s) (fun _ => None) 1000
                "/repo/pkg/mod.py" "pkg.mod" (Some example_tree) _ _ eq_refl)
    as H.
  apply List.map_ext_Forall. eapply Forall_impl; [exact H|].
  by intros e (He & _).
Defined.

(** X10. An extraction holds exactly one Module entity, and it comes
    first: its name is the module path and its line 1; every entity after
    it is of another kind. *)
Theorem parse_file_one_module_entity
    (cleandoc : string -> string) (unparse : expr -> option string)
    (recursion_limit : nat)
    (file_path module_path : string) (tree : option Module_ast)
    (es : list EntityInfo) (rs : list RelationshipInfo) :
  parse_file cleandoc unparse recursion_limit
    file_path module_path tree = Some (es, rs) ->
  exists m rest,
    es = m :: rest /\ entities_of MODULE es = [m] /\
    entity_type m = MODULE /\ name m = module_path /\ line_number m = 1%Z /\
    dict_get "path" (properties m) = Some (PyStr module_path) /\
    dict_get "file_path" (properties m) = Some (PyStr file_path).
Proof.
  destruct tree as [tree|]; [|done]. intros H.
  apply parse_file_module_first in H as (rest & -> & Hrest).
  eexists _, rest. split; [reflexivity|]. split; [|done].
  unfold entities_of. cbn [List.filter]. unfold is_entity_type at 1.
  cbn [entity_type]. rewrite bool_decide_eq_true_2 by done. f_equal.
  apply filter_none. eapply Forall_impl; [exact Hrest|]. cbn.
  intros e (_ & Hm & _). by apply bool_decide_eq_false_2.
Qed.

Lemma parse_file_one_module_entity_witness :
  exists es rs,
    parse_file (fun s => s) (fun _ => None) 1000 "/repo/pkg/mod.py" "pkg.mod"
      (Some example_tree) = Some (es, rs) /\
    map name (entities_of MODULE es) = ["pkg.mod"].
Proof.
  eexists _, _. split; [reflexivity|].
  destruct (parse_file_one_module_entity (fun s => s) (fun _ => None) 1000
              "/repo/pkg/mod.py" "pkg.mod" (Some example_tree) _ _ eq_refl)
    as (m & rest & _ & Hm & _ & Hn & _).
  rewrite Hm. cbn [map]. by rewrite Hn.
Defined.

(** ** When parsing raises *)

Lemma and_then_is_Some (a b : parse_step) :
  is_Some a -> is_Some b -> is_Some (a ;; b).
Proof. intros [[e1 r1] ->] [[e2 r2] ->]. by eexists. Qed.

Lemma for_each_is_Some {A : Type} (l : list A) (f : A -> parse_step) :
  Forall (fun x => is_Some (f x)) l -> is_Some (for_each l f).
Proof.
  induction 1 as [|x l Hx _ IH]; [by eexists|].
  cbn [for_each]. by apply and_then_is_Some.
Qed.

Lemma forallb_Forall {A : Type} (p : A -> bool) (l : list A) :
  forallb p l = true -> Forall (fun x => p x = true) l.
Proof.
  intros H. apply Forall_forall. intros x Hx.
  by apply (proj1 (forallb_forall p l) H), list_elem_of_In.
Qed.

Ltac returns_step :=
  first
    [ apply and_then_is_Some
    | match goal with
      | |- is_Some (if ?b then _ else _) => destruct b
      | |- is_Some (match ?x with Some _ => _ | None => _ end) =>
          destruct x
      end
    | by eexists ].

Section Returns.

Context (cleandoc : string -> string) (unparse : expr -> option string)
  (recursion_limit : nat).
Context (module_path : string).
Hypothesis unparse_returns : forall e, is_Some (unparse e).

Lemma _add_parameter_returns (parent : string) (a : arg) (position : Z) :
  is_Some (_add_parameter unparse parent a position).
Proof.
  unfold _add_parameter. destruct (annotation a) as [ann|]; [|by eexists].
  destruct (unparse_returns ann) as [s ->]. by eexists.
Qed.

(** The lookup of a name returns exactly when the calls around the name
    fit in the frames that are left. *)
Lemma _get_name_from_node_returns (nested : nat) (node : expr) :
  (call_depth node <= nested)%nat ->
  is_Some (_get_name_from_node unparse nested node).
Proof.
  revert nested. induction node as [id|value IH attr|func IH args|c|tag];
    intros nested H; cbn [_get_name_from_node]; try (by eexists).
  cbn [call_depth] in H. destruct nested as [|nested]; [lia|].
  apply IH. lia.
Qed.

Lemma _get_name_from_node_raises (nested : nat) (node : expr) :
  (nested < call_depth node)%nat ->
  _get_name_from_node unparse nested node = None.
Proof.
  revert nested. induction node as [id|value IH attr|func IH args|c|tag];
    intros nested H; cbn [call_depth] in H; try lia.
  cbn [_get_name_from_node]. destruct nested as [|nested]; [done|].
  apply IH. lia.
Qed.

Lemma method_markers_returns (decorator_list : list expr)
    (is_static is_classmethod : bool) :
  Forall (fun d => (call_depth d <=? recursion_limit)%nat = true)
    decorator_list ->
  is_Some (method_markers unparse recursion_limit decorator_list is_static
             is_classmethod).
Proof.
  intros H. revert is_static is_classmethod.
  induction H as [|d l Hd _ IH]; intros is_static is_classmethod;
    [by eexists|].
  cbn [method_markers]. apply Nat.leb_le in Hd.
  destruct (_get_name_from_node_returns _ _ Hd) as [r ->].
  by repeat case_bool_decide.
Qed.

Lemma decorators_return (is_method : bool) (decorator_list : list expr)
    (f : option string -> parse_step) :
  (forall r, is_Some (f r)) ->
  Forall (fun d => (call_depth d <=? recursion_limit)%nat = true)
    decorator_list ->
  is_Some
    (for_each decorator_list
       (fun decorator =>
          match
            _get_name_from_node unparse
              (frames_left recursion_limit is_method) decorator
          with
          | None => raise
          | Some r => f r
          end)).
Proof.
  intros Hf H. apply for_each_is_Some.
  eapply Forall_impl; [exact H|]. cbn. intros d Hd%Nat.leb_le.
  destruct (_get_name_from_node_returns
              (frames_left recursion_limit is_method) d) as [r ->];
    [|apply Hf].
  unfold frames_left. destruct is_method; lia.
Qed.

Lemma _parse_function_returns (node : stmt) (is_method : bool)
    (parent_class : option string) :
  is_function_def node = true ->
  shallow_names recursion_limit node = true ->
  is_Some (_parse_function cleandoc unparse recursion_limit module_path node
             is_method parent_class).
Proof.
  assert (Hdef : forall is_async fname args body decorator_list lineno,
            Forall (fun d => (call_depth d <=? recursion_limit)%nat = true)
              decorator_list ->
            is_Some (_parse_function_def cleandoc unparse recursion_limit
                       module_path is_async fname args body decorator_list
                       lineno is_method parent_class)).
  { intros is_async fname args body decorator_list lineno Hd.
    unfold _parse_function_def.
    assert (Hm : is_Some
              (if is_method
               then method_markers unparse recursion_limit decorator_list
                      false false
               else Some (false, false))).
    { destruct is_method; [by apply method_markers_returns|by eexists]. }
    destruct Hm as [[is_static is_classmethod] ->].
    repeat apply and_then_is_Some; try (by eexists).
    - apply for_each_is_Some, Forall_forall. intros ia _.
      apply _add_parameter_returns.
    - apply (decorators_return is_method decorator_list
               (fun r => match r with
                         | Some decorator_name =>
                             if truthy decorator_name
                                && negb (String.eqb decorator_name
                                           "staticmethod")
                                && negb (String.eqb decorator_name
                                           "classmethod")
                             then _add_decorator _ decorator_name
                             else skip
                         | None => skip
                         end)); [|exact Hd].
      intros [r|]; [|by eexists]. by destruct (_ && _).
    - by destruct (truthy _). }
  destruct node; try discriminate; intros _ Hs; cbn [_parse_function];
    apply Hdef; cbn [shallow_names names_read] in Hs;
    apply andb_prop in Hs as [Hs _]; by apply forallb_Forall.
Qed.

Lemma _parse_class_returns (cname : string) (bases : list expr)
    (body : list stmt) (decorator_list : list expr) (lineno : Z) :
  shallow_names recursion_limit
    (ClassDef cname bases body decorator_list lineno) = true ->
  is_Some (_parse_class cleandoc unparse recursion_limit module_path
             (ClassDef cname bases body decorator_list lineno)).
Proof.
  cbn [shallow_names names_read]. intros [Hn Hb]%andb_prop.
  rewrite forallb_app in Hn. apply andb_prop in Hn as [Hbases Hdecs].
  apply forallb_Forall in Hbases, Hdecs, Hb.
  cbn [_parse_class].
  repeat apply and_then_is_Some; try (by eexists).
  - apply (decorators_return false bases
             (fun r => match r with
                       | Some base_name =>
                           if truthy base_name
                              && negb (String.eqb base_name "ABC")
                           then append_relationship _
                           else skip
                       | None => skip
                       end)); [|exact Hbases].
    intros [r|]; [|by eexists]. by destruct (_ && _).
  - apply (decorators_return false decorator_list
             (fun r => match r with
                       | Some decorator_name =>
                           if truthy decorator_name
                           then _add_decorator _ decorator_name
                           else skip
                       | None => skip
                       end)); [|exact Hdecs].
    intros [r|]; [|by eexists]. by destruct (truthy _).
  - apply for_each_is_Some. eapply Forall_impl; [exact Hb|]. cbn.
    intros item Hitem. destruct (is_function_def item) eqn:Hf;
      [by apply _parse_function_returns|by eexists].
  - by destruct (truthy _).
Qed.

Lemma visit_returns (tree : Module_ast) (node : located) :
  shallow_names recursion_limit (snd node) = true ->
  is_Some (visit cleandoc unparse recursion_limit module_path tree node).
Proof.
  unfold visit. intros Hs. destruct (snd node) eqn:Hn; try (by eexists).
  - by apply _parse_class_returns.
  - destruct (_is_top_level node tree); [|by eexists].
    by apply _parse_function_returns.
  - destruct (_is_top_level node tree); [|by eexists].
    by apply _parse_function_returns.
  - cbn [_parse_import]. apply for_each_is_Some, Forall_forall.
    intros a _. by eexists.
  - cbn [_parse_import]. repeat returns_step.
Qed.

(** The walk stays within the nodes below those it starts from. *)
Lemma walk_queue_shallow (fuel : nat) (todo : list located) :
  Forall (fun n => shallow_names recursion_limit (snd n) = true) todo ->
  Forall (fun n => shallow_names recursion_limit (snd n) = true)
    (walk_queue fuel todo).
Proof.
  revert todo. induction fuel as [|fuel IH]; intros todo H; [constructor|].
  destruct todo as [|node rest]; [constructor|]. cbn [walk_queue].
  apply Forall_cons in H as [Hn Hrest]. constructor; [exact Hn|].
  apply IH, Forall_app. split; [exact Hrest|].
  unfold iter_child_nodes, locate_children.
  apply Forall_forall. intros [p c] Hin.
  apply elem_of_lookup_imap in Hin as (i & c' & [= -> ->] & Hc).
  cbn [snd]. apply list_elem_of_lookup_2 in Hc.
  assert (Hall : forallb (shallow_names recursion_limit)
                   (child_stmts (snd node)) = true).
  { destruct (snd node); cbn [shallow_names child_stmts] in Hn |- *;
      try reflexivity; by apply andb_prop in Hn as [_ Hn]. }
  by apply (proj1 (forallb_forall _ _) Hall), list_elem_of_In.
Qed.

Lemma parse_file_returns_shallow (file_path : string) (tree : Module_ast) :
  calls_nest_within recursion_limit tree = true ->
  is_Some (parse_file cleandoc unparse recursion_limit file_path module_path
             (Some tree)).
Proof.
  intros H. cbn [parse_file]. apply and_then_is_Some; [by eexists|].
  apply for_each_is_Some.
  eapply Forall_impl; [|intros n Hn; apply visit_returns, Hn].
  apply walk_queue_shallow. unfold locate_children.
  apply Forall_forall. intros [p c] Hin.
  apply elem_of_lookup_imap in Hin as (i & c' & [= -> ->] & Hc).
  cbn [snd]. apply list_elem_of_lookup_2 in Hc.
  by apply (proj1 (forallb_forall _ _) H), list_elem_of_In.
Qed.

(** A class of the module one of whose decorators stands inside more calls
    than fit makes the whole parse raise. *)
Lemma parse_file_raises_deep (file_path cname : string) (bases : list expr)
    (body : list stmt) (lineno : Z) (d : expr) :
  (S recursion_limit < call_depth d)%nat ->
  parse_file cleandoc unparse recursion_limit file_path module_path
    (Some (mk_Module [ClassDef cname bases body [d] lineno])) = None.
Proof.
  intros Hd. cbn [parse_file].
  assert (Hc : _parse_class cleandoc unparse recursion_limit module_path
                 (ClassDef cname bases body [d] lineno) = None).
  { cbn [_parse_class for_each].
    rewrite (_get_name_from_node_raises (frames_left recursion_limit false))
      by exact Hd.
    set (b := for_each bases _). clearbody b.
    by destruct b as [[e r]|]. }
  unfold walk. cbn [mod_body locate_children imap].
  assert (Hq : exists n,
            queue_size [([] ++ [0%nat], ClassDef cname bases body [d] lineno)]
            = S n) by (by eexists).
  destruct Hq as [n ->]. cbn [walk_queue for_each].
  unfold visit at 1. cbn [snd]. rewrite Hc. reflexivity.
Qed.

End Returns.

(** X11. [parse_file] raises when the file cannot be read or parsed.  For
    a syntax tree it returns an extraction provided [ast.unparse] returns
    on the annotations it is given and no base or decorator it looks the
    name up for stands inside more calls than [recursion_limit]:
    [_get_name_from_node] calls itself once for every call around a name.
    Past the limit it raises: a class of the module with a decorator inside
    more than [recursion_limit] + 1 calls makes [parse_file] raise, the
    [RecursionError] being turned into [ParsingError] like every
    exception. *)
Theorem parse_file_returns
    (cleandoc : string -> string) (unparse : expr -> option string)
    (recursion_limit : nat)
    (file_path module_path : string) (tree : option Module_ast) :
  (forall e, is_Some (unparse e)) ->
  (is_Some
     (parse_file cleandoc unparse recursion_limit file_path module_path tree)
   -> is_Some tree) /\
  (forall t,
     tree = Some t -> calls_nest_within recursion_limit t = true ->
     is_Some
       (parse_file cleandoc unparse recursion_limit file_path module_path
          tree)) /\
  (forall cname bases body lineno d,
     (S recursion_limit < call_depth d)%nat ->
     parse_file cleandoc unparse recursion_limit file_path module_path
       (Some (mk_Module [ClassDef cname bases body [d] lineno])) = None).
Proof.
  intros Hu. split; [|split].
  - destruct tree; [by eexists|]. by intros [? [=]].
  - intros t -> Ht. by apply parse_file_returns_shallow.
  - intros cname bases body lineno d Hd. by apply parse_file_raises_deep.
Qed.

Lemma parse_file_returns_witness :
  is_Some (parse_file (fun s => s) (fun _ => Some "int") 1000
             "/repo/pkg/mod.py" "pkg.mod" (Some example_tree)).
Proof.
  destruct (parse_file_returns (fun s => s) (fun _ => Some "int") 1000
              "/repo/pkg/mod.py" "pkg.mod" (Some example_tree))
    as (_ & H & _).
  - intros e. by eexists.
  - by apply (H example_tree).
Defined.

(** ** Relationships need both endpoints *)

Lemma aux_emission_rel_properties (o : emitted) :
  aux_emission o -> Forall (fun r => rel_properties r = []) (snd o).
Proof.
  induction 1; cbn in *; try (by repeat constructor).
  by apply Forall_app.
Qed.

Lemma emission_rel_properties (module_path : string) (o : emitted) :
  emission module_path o -> Forall (fun r => rel_properties r = []) (snd o).
Proof.
  induction 1 as [| | o Haux | | | |m imp from ln linked]; cbn in *;
    try (by repeat constructor).
  - by apply Forall_app.
  - by apply aux_emission_rel_properties.
  - destruct linked; by repeat constructor.
Qed.

Lemma extract_rel_properties (cleandoc : string -> string)
    (unparse : expr -> option string)
    (recursion_limit : nat) (file : py_file) (mp : string)
    (es : list EntityInfo) (rs : list RelationshipInfo) :
  extract cleandoc unparse recursion_limit file = Some (mp, es, rs) ->
  Forall (fun r => rel_properties r = []) rs.
Proof.
  unfold extract. destruct (get_module_path _) as [mp'|]; [|done].
  destruct (parse_file _ _ _ _ _ _) as [[es' rs']|] eqn:Hp; [|done].
  intros H. injection H as <- <- <-.
  by apply parse_file_emission, emission_rel_properties in Hp.
Qed.

Lemma relationship_query_plain (r : RelationshipInfo) :
  rel_properties r = [] ->
  relationship_query r = Some (link_statement r).
Proof.
  intros H. unfold relationship_query, RelationshipInfo_to_dict.
  rewrite H. reflexivity.
Qed.

Lemma edge_rows_elem (l : link) (ns : list node) (e : edge) :
  e ∈ edge_rows l ns <->
  edge_type e = ln_type l /\
  edge_src e ∈ matching_ids (ln_source l) ns /\
  edge_dst e ∈ matching_ids (ln_target l) ns.
Proof.
  unfold edge_rows. rewrite list_elem_of_bind. split.
  - intros (i & (j & ->%list_elem_of_singleton & Hj)%list_elem_of_bind & Hi).
    done.
  - intros (Ht & Hi & Hj). exists (edge_src e). split; [|done].
    apply list_elem_of_bind. exists (edge_dst e). split; [|done].
    apply list_elem_of_singleton. destruct e. cbn in *. by subst.
Qed.

(** The dictionary of an entity always holds its kind and a name: the
    statement of an entity can always be built. *)
Lemma entity_query_Some (e : EntityInfo) : is_Some (entity_query e).
Proof.
  unfold entity_query, dict_pop.
  assert (Hfield : forall k, k ∈ ["entity_type"; "name"] ->
            is_Some (dict_get k (EntityInfo_to_dict e))).
  { intros k Hk. unfold EntityInfo_to_dict. rewrite dict_get_update.
    destruct (last_value k (properties e)); [done|].
    apply elem_of_cons in Hk as [->|Hk]; [done|].
    by apply list_elem_of_singleton in Hk as ->. }
  destruct (Hfield "entity_type") as [t ->]; [by left|].
  rewrite dict_get_del_ne by done.
  by destruct (Hfield "name") as [v ->]; [by right; left|].
Qed.

Lemma collect_Some {A B : Type} (f : A -> option B) (l : list A) :
  Forall (fun x => is_Some (f x)) l -> is_Some (collect f l).
Proof.
  induction 1 as [|x l [y Hy] _ [ys IH]]; [done|].
  cbn. by rewrite Hy, IH.
Qed.

(** What a batch does once it runs: the upserts of the entities, then the
    links of the relationships. *)
Lemma built_batch (entities : list EntityInfo)
    (relationships : list RelationshipInfo) (queries : list query)
    (g g' : graph) :
  build_queries entities relationships = Some queries ->
  run_all queries g = Some g' ->
  exists us ls,
    Forall keyed_upsert us /\
    Forall2 (fun e u => exists q, entity_query e = Some q /\
                                  bind_parameters q = Some (Upsert u))
      entities us /\
    Forall2 (fun r l => exists q, relationship_query r = Some q /\
                                  bind_parameters q = Some (Link l))
      relationships ls /\
    g' = mk_graph (run_upserts us (nodes g))
           (run_links ls (run_upserts us (nodes g)) (edges g)).
Proof.
  intros Hq. rewrite run_all_execute_all.
  destruct (collect bind_parameters queries) as [bs|] eqn:Hb; [|done].
  intros [= <-].
  destruct (build_queries_bound _ _ _ _ Hq Hb)
    as (us & ls & -> & Hus & He & Hr).
  exists us, ls. by rewrite execute_all_batch.
Qed.

(** The statement of a relationship, run by itself: no node is created, and
    the edges added are those between the nodes that carry the two
    names. *)
Lemma link_statement_runs (r : RelationshipInfo) (g : graph) :
  exists g',
    run_cypher (link_statement r) g = Some g' /\
    nodes g' = nodes g /\
    (forall e, e ∈ edges g' <-> e ∈ edges g \/ edge_for r g e) /\
    (named (source r) g = [] \/ named (target r) g = [] -> g' = g).
Proof.
  set (l := mk_link (RelationshipType_value (rel_type r))
              (PyStr (source r)) (PyStr (target r))).
  exists (execute (Link l) g). split; [reflexivity|].
  split; [reflexivity|].
  assert (Hrows : forall e, e ∈ edge_rows l (nodes g) <-> edge_for r g e).
  { intros e. by rewrite edge_rows_elem. }
  split.
  - intros e. cbn [execute edges]. unfold link_edges. rewrite <- Hrows.
    split.
    + apply merge_edges_elem.
    + intros [H|H]; [by apply merge_edges_old|by apply merge_edges_new].
  - intros Hnone. cbn [execute]. unfold link_edges.
    assert (edge_rows l (nodes g) = []) as ->; [|by destruct g].
    unfold edge_rows, named in *. cbn [ln_source ln_target l].
    destruct Hnone as [-> | ->]; [reflexivity|].
    by induction (matching_ids (PyStr (source r)) (nodes g)).
Qed.

(** The batch of a file: a statement for every entity, then the statement
    of every relationship. *)
Lemma build_queries_of_extract (cleandoc : string -> string)
    (unparse : expr -> option string)
    (recursion_limit : nat) (file : py_file) (mp : string)
    (ents : list EntityInfo) (rels : list RelationshipInfo) :
  extract cleandoc unparse recursion_limit file = Some (mp, ents, rels) ->
  exists eqs,
    build_queries ents rels = Some (eqs ++ map link_statement rels) /\
    Forall2 (fun e q => entity_query e = Some q) ents eqs.
Proof.
  intros Hex.
  pose proof (extract_rel_properties _ _ _ _ _ _ _ Hex) as Hplain.
  destruct (collect_Some entity_query ents) as [eqs Heqs].
  { apply Forall_forall. intros e _. apply entity_query_Some. }
  assert (Hrqs : collect relationship_query rels
                 = Some (map link_statement rels)).
  { clear -Hplain. induction Hplain as [|r rs Hr _ IH]; [reflexivity|].
    cbn. by rewrite (relationship_query_plain r Hr), IH. }
  exists eqs. split; [|by apply collect_Forall2].
  unfold build_queries. by rewrite Heqs, Hrqs.
Qed.

(** C1, as the code has it. For every relationship extracted from a file,
    the statement [index_file] builds is the MATCH ... MERGE of
    [link_statement], with the source and the target of the relationship as
    its two parameters; the batch is the statements of the entities followed
    by those of the relationships.  Run as Cypher, the statement of a
    relationship creates no node: it adds an edge between every pair of
    nodes that carry the two names and nothing else, so nothing at all when
    one of the two names is carried by no node.  When the whole batch runs,
    the nodes are those the entity statements leave, every relationship is
    merged between every pair of such nodes named like its endpoints, and
    every edge was there before or joins such a pair. *)
Theorem relationship_merge_needs_both_endpoints
    (cleandoc : string -> string) (unparse : expr -> option string)
    (recursion_limit : nat)
    (file : py_file) (mp : string) (ents : list EntityInfo)
    (rels : list RelationshipInfo) :
  extract cleandoc unparse recursion_limit file = Some (mp, ents, rels) ->
  exists eqs,
    build_queries ents rels = Some (eqs ++ map link_statement rels) /\
    Forall2 (fun e q => entity_query e = Some q) ents eqs /\
    (forall r g, r ∈ rels ->
       exists g',
         run_cypher (link_statement r) g = Some g' /\
         nodes g' = nodes g /\
         (forall e, e ∈ edges g' <-> e ∈ edges g \/ edge_for r g e) /\
         (named (source r) g = [] \/ named (target r) g = [] -> g' = g)) /\
    (forall g g',
       run_all (eqs ++ map link_statement rels) g = Some g' ->
       (exists us,
          Forall2 (fun e u => exists q, entity_query e = Some q /\
                                        bind_parameters q = Some (Upsert u))
            ents us /\
          nodes g' = run_upserts us (nodes g)) /\
       (forall r e, r ∈ rels -> edge_for r g' e -> e ∈ edges g') /\
       (forall e, e ∈ edges g' ->
                  e ∈ edges g \/ exists r, r ∈ rels /\ edge_for r g' e)).
Proof.
  intros Hex.
  pose proof (extract_rel_properties _ _ _ _ _ _ _ Hex) as Hplain.
  destruct (build_queries_of_extract _ _ _ _ _ _ _ Hex) as (eqs & Hq & Heqs).
  exists eqs. split; [exact Hq|]. split; [exact Heqs|].
  split; [intros r g _; apply link_statement_runs|].
  intros g g' Hrun.
  destruct (built_batch _ _ _ _ _ Hq Hrun)
    as (us & ls & Hus & Hents & Hrels & ->).
  cbn [nodes edges]. set (ns := run_upserts us (nodes g)).
  assert (Hlink : forall r l, r ∈ rels ->
            (exists q, relationship_query r = Some q /\
                       bind_parameters q = Some (Link l)) ->
            l = mk_link (RelationshipType_value (rel_type r))
                  (PyStr (source r)) (PyStr (target r))).
  { intros r l Hr (q & Hq' & Hbq).
    rewrite relationship_query_plain in Hq'
      by (by apply (proj1 (Forall_forall _ _) Hplain)).
    injection Hq' as <-. by injection Hbq as <-. }
  split; [by exists us|]. split.
  - intros r e Hr (Ht & Hs & Hd).
    apply list_elem_of_lookup in Hr as [k Hk].
    destruct (Forall2_lookup_l _ _ _ _ _ Hrels Hk) as (l & Hl & Hql).
    apply (run_links_new ls ns (edges g) l); [by eapply list_elem_of_lookup_2|].
    rewrite (Hlink r l); [|by eapply list_elem_of_lookup_2|done].
    by apply edge_rows_elem.
  - intros e [He|(l & Hl & He)]%run_links_elem; [by left|]. right.
    apply list_elem_of_lookup in Hl as [k Hk].
    destruct (Forall2_lookup_r _ _ _ _ _ Hrels Hk) as (r & Hr & Hql).
    exists r. split; [by eapply list_elem_of_lookup_2|].
    rewrite (Hlink r l) in He; [|by eapply list_elem_of_lookup_2|done].
    by apply edge_rows_elem in He.
Qed.

Lemma relationship_merge_needs_both_endpoints_witness :
  exists ents eqs,
    extract (fun s => s) (fun _ => None) 1000 import_os_file
    = Some ("m", ents, [mk_RelationshipInfo IMPORTS "m" "os" []]) /\
    build_queries ents [mk_RelationshipInfo IMPORTS "m" "os" []]
    = Some (eqs ++ [link_statement
                      (mk_RelationshipInfo IMPORTS "m" "os" [])]) /\
    length eqs = length ents.
Proof.
  eexists.
  destruct (relationship_merge_needs_both_endpoints (fun s => s)
              (fun _ => None) 1000 import_os_file "m" _ _ eq_refl)
    as (eqs & Hq & He & _).
  exists eqs. split; [reflexivity|]. split; [exact Hq|].
  symmetry. exact (Forall2_length _ _ _ He).
Defined.

(** C1, as stated, fails. A module m that imports os gives the relationship
    IMPORTS from m to the literal name os.  The batch built for the file is
    the two entity statements and one MATCH ... MERGE for the relationship;
    run in the empty graph it leaves the two entity nodes, none of them
    named os, and no edge: no placeholder is created and the relationship
    is dropped.  [index_file] itself raises on the file, as it does on
    every file, and leaves the graph empty. *)
Lemma external_import_is_not_persisted :
  exists ents queries g',
    extract (fun s => s) (fun _ => None) 1000 import_os_file
    = Some ("m", ents, [mk_RelationshipInfo IMPORTS "m" "os" []]) /\
    build_queries ents [mk_RelationshipInfo IMPORTS "m" "os" []]
    = Some queries /\
    map (fun q => cypher_text (fst q)) queries
    = ["MERGE (e:Module {name: $name}) "
       +:+ "SET e += {line_number: $line_number, path: $path, "
       +:+ "file_path: $file_path, docstring: $docstring}";
       "MERGE (e:Import {name: $name}) "
       +:+ "SET e += {line_number: $line_number, "
       +:+ "module_name: $module_name, imported_names: $imported_names, "
       +:+ "is_from_import: $is_from_import}";
       "MATCH (s {name: $source}), (t {name: $target}) "
       +:+ "MERGE (s)-[r:IMPORTS]->(t)"] /\
    run_all queries empty_graph = Some g' /\
    named "m" g' = [0%nat] /\
    named "os" g' = [] /\
    length (nodes g') = 2%nat /\
    edges g' = [] /\
    index_file (fun s => s) (fun _ => None) 1000 true import_os_file empty_graph
    = (None, empty_graph).
Proof.
  eexists _, _, _. split; [reflexivity|]. split; [reflexivity|].
  split; [reflexivity|]. split; [reflexivity|].
  vm_compute. repeat split.
Qed.

(** *** Entities and their merge keys *)

Lemma dict_get_to_dict (e : EntityInfo) (k : string) :
  NoDup (dict_keys (properties e)) ->
  dict_get k (EntityInfo_to_dict e)
  = get_over k (properties e) (entity_fields e).
Proof.
  intros H. unfold EntityInfo_to_dict, get_over.
  by rewrite dict_get_update, last_value_dict_get.
Qed.

Lemma merge_key_keyed (e : EntityInfo) :
  keyed_by_type e ->
  merge_key e = Some (EntityType_value (entity_type e), merge_name e).
Proof.
  intros Hk.
  assert (Hd : NoDup (dict_keys (properties e))).
  { rewrite Hk. destruct (entity_type e); by_evaluation. }
  assert (Ht : "entity_type" ∉ dict_keys (properties e)).
  { rewrite Hk. destruct (entity_type e); by_evaluation. }
  rewrite merge_key_to_dict, !dict_get_to_dict by done.
  unfold get_over, merge_name. rewrite (dict_get_None_keys _ _ Ht).
  cbn. by destruct (dict_get "name" (properties e)).
Qed.

Lemma upsert_merge_key (e : EntityInfo) (q : query) (u : upsert) :
  entity_query e = Some q ->
  bind_parameters q = Some (Upsert u) ->
  merge_key e = Some (up_label u, up_name u).
Proof.
  unfold merge_key. intros -> Hb. destruct q as [[label keys|rtype] params];
    unfold bind_parameters in Hb; cbn [fst snd] in Hb.
  - destruct (dict_get "name" params) as [v|]; [|done].
    destruct (bind_keys keys params) as [kvs|]; [|by destruct v].
    by destruct v; try discriminate; injection Hb as <-.
  - by destruct (dict_get "source" params), (dict_get "target" params).
Qed.

Lemma extract_keyed (cleandoc : string -> string)
    (unparse : expr -> option string)
    (recursion_limit : nat) (file : py_file) (mp : string)
    (es : list EntityInfo) (rs : list RelationshipInfo) :
  extract cleandoc unparse recursion_limit file = Some (mp, es, rs) ->
  get_module_path (relative_parts_of file) = Some mp /\
  parse_file cleandoc unparse recursion_limit (path_of file) mp (tree_of file)
  = Some (es, rs).
Proof.
  unfold extract.
  destruct (get_module_path (relative_parts_of file)) as [mp'|]; [|done].
  destruct (parse_file cleandoc unparse recursion_limit
              (path_of file) mp' (tree_of file))
    as [[es' rs']|] eqn:Hp; [|done].
  intros [= -> -> ->]. by split.
Qed.

Lemma upsert_nodes_lookup (u : upsert) (ns : list node) (i : nat) (n : node) :
  ns !! i = Some n -> upsert_nodes u ns !! i = Some (touch u n).
Proof.
  intros H. unfold upsert_nodes, merge_node. rewrite list_lookup_fmap.
  destruct (existsb (node_matches u) ns).
  - by rewrite H.
  - by rewrite lookup_app_l, H by by eapply lookup_lt_Some.
Qed.

Lemma run_upserts_lookup (us : list upsert) (ns : list node) (i : nat)
    (n : node) :
  Forall keyed_upsert us ->
  ns !! i = Some n ->
  exists n', run_upserts us ns !! i = Some n' /\ same_key n' n.
Proof.
  intros Hus. revert ns n. induction Hus as [|u us Hu _ IH]; intros ns n H.
  - exists n. by split.
  - cbn [run_upserts fold_left].
    destruct (IH _ _ (upsert_nodes_lookup u ns i n H))
      as (n' & Hn' & Hl & Hp).
    exists n'. split; [exact Hn'|].
    destruct (touch_same_key u n Hu) as [Hl' Hp'].
    split; [by rewrite Hl|by rewrite Hp].
Qed.

(** ** What [index_file] leaves in the graph *)

(** X12. [index_file] only adds to the graph.  Whatever the file and
    whether the run succeeds or not, every node of the graph keeps its
    place, its labels and its name property, and every edge is kept; other
    properties may be overwritten. *)
Theorem index_file_keeps_the_graph (cleandoc : string -> string)
    (unparse : expr -> option string)
    (recursion_limit : nat) (client_ok : bool) (file : py_file)
    (g : graph) :
  let g' := snd (index_file cleandoc unparse recursion_limit
                   client_ok file g) in
  (forall i n, nodes g !! i = Some n ->
     exists n', nodes g' !! i = Some n' /\ labels n' = labels n /\
                props n' !! "name" = props n !! "name") /\
  (forall e, e ∈ edges g -> e ∈ edges g') /\
  (length (nodes g) <= length (nodes g'))%nat.
Proof.
  rewrite index_file_outcome. cbn [snd]. split; [|done].
  intros i n Hi. by exists n.
Qed.

(** X13. [index_file] never returns its dictionary.
    [execute_batch_write] asks for the transaction without awaiting it and
    raises for every batch before any statement runs, and the batch of a
    file is never empty, as an extraction starts with the Module entity.
    So [index_file] ends with [IndexerError], or with the cancellation of
    the task, whatever the file, and the graph is left as it was. *)
Theorem index_file_never_returns (cleandoc : string -> string)
    (unparse : expr -> option string)
    (recursion_limit : nat) (client_ok : bool) (file : py_file)
    (g : graph) :
  (forall queries, execute_batch_write queries g = (None, g)) /\
  (forall mp es rs,
     extract cleandoc unparse recursion_limit file = Some (mp, es, rs) ->
     exists q queries, build_queries es rs = Some (q :: queries)) /\
  snd (index_file cleandoc unparse recursion_limit client_ok file g) = g /\
  (forall r,
     fst (index_file cleandoc unparse recursion_limit client_ok file g)
     <> Some (Indexed r)) /\
  (cancelled_while_indexed file = false \/
   extract cleandoc unparse recursion_limit file = None <->
   index_file cleandoc unparse recursion_limit client_ok file g = (None, g)).
Proof.
  split; [done|]. split.
  { intros mp es rs Hx.
    destruct (build_queries_of_extract _ _ _ _ _ _ _ Hx) as (eqs & Hq & He).
    apply extract_has_module in Hx. destruct He as [|e q es eqs]; [done|].
    by exists q, (eqs ++ map link_statement rs). }
  rewrite index_file_outcome. cbn [fst snd]. split; [done|]. split.
  - intros r. destruct (extract cleandoc unparse recursion_limit file); [|done].
    by destruct (cancelled_while_indexed file).
  - destruct (extract cleandoc unparse recursion_limit
                file) as [x|]; [|by split; auto].
    destruct (cancelled_while_indexed file); split.
    + by intros [?|?].
    + done.
    + done.
    + by left.
Qed.

(** ** The index status *)

Lemma get_index_status_counting (g : graph) (job : option IndexingJob) :
  get_index_status (counting_database g) job
  = inr (mk_IndexStatus (0 <? Z.of_nat (length (nodes g)))%Z
           (match job with
            | Some j => completed_at j
            | None => None
            end)
           (Z.of_nat (length (nodes g))) (Z.of_nat (length (edges g)))
           (match job with
            | Some j =>
                if bool_decide (status j = IN_PROGRESS) then Some j else None
            | None => None
            end)).
Proof. reflexivity. Qed.

(** X14. Once [index_repository] has returned or raised [IndexerError],
    the index status shows no running job, and its last-indexed time is the
    time the job ended, also when the job failed.  After a run that was
    cancelled the job is still shown as the running job, with no
    last-indexed time.  In every case the counts are those of the graph
    before the run, and whether the repository counts as indexed only
    depends on that graph holding a node. *)
Theorem get_index_status_after_job (cleandoc : string -> string)
    (unparse : expr -> option string)
    (recursion_limit : nat) (env : job_env) (g : graph) :
  let out := index_repository cleandoc unparse recursion_limit env g in
  let job := snd (fst out) in
  get_index_status (counting_database (snd out)) (Some job)
  = inr (mk_IndexStatus (0 <? Z.of_nat (length (nodes g)))%Z
           (match fst (fst out) with
            | inl CancelledError => None
            | _ => Some (end_time env)
            end)
           (Z.of_nat (length (nodes g))) (Z.of_nat (length (edges g)))
           (match fst (fst out) with
            | inl CancelledError => Some job
            | _ => None
            end)).
Proof.
  intros out job. rewrite get_index_status_counting.
  destruct (index_repository_outcomes cleandoc unparse recursion_limit env g)
    as (Hcase & _ & _ & _ & Hg).
  fold out in Hcase, Hg. fold job in Hcase. rewrite Hg.
  destruct (fst (fst out)) as [[msg|]|r].
  - destruct Hcase as (Hs & -> & _). rewrite Hs. reflexivity.
  - destruct Hcase as (Hs & -> & _). rewrite Hs. reflexivity.
  - destruct Hcase as (Hs & -> & _). rewrite Hs. reflexivity.
Qed.

(** X15. [index_file] never changes what the index status reports: after
    it the status is the one before it, and a repository whose graph is
    empty still does not count as indexed, whatever file was given. *)
Theorem get_index_status_after_index_file (cleandoc : string -> string)
    (unparse : expr -> option string)
    (recursion_limit : nat) (client_ok : bool) (file : py_file)
    (g : graph) (job : option IndexingJob) :
  get_index_status
    (counting_database (snd (index_file cleandoc unparse recursion_limit
                               client_ok file g)))
    job
  = get_index_status (counting_database g) job /\
  (nodes g = [] ->
   exists st,
     get_index_status
       (counting_database
          (snd (index_file cleandoc unparse recursion_limit client_ok file g)))
       job = inr st /\
     is_indexed st = false /\ total_entities st = 0%Z).
Proof.
  rewrite index_file_outcome. cbn [snd]. split; [reflexivity|].
  intros Hn. rewrite get_index_status_counting, Hn. by eexists.
Qed.

(** ** The dictionaries of [parse_python_ast] and [extract_entities] *)

Lemma dict_keys_update (d extra : pydict) :
  NoDup (dict_keys extra) ->
  dict_keys (dict_update d extra)
  = dict_keys d
    ++ List.filter (fun k => negb (bool_decide (k ∈ dict_keys d)))
         (dict_keys extra).
Proof.
  unfold dict_update. revert d.
  induction extra as [|[k v] extra IH]; intros d Hd.
  - cbn. by rewrite app_nil_r.
  - cbn [dict_keys map fst] in Hd. apply NoDup_cons in Hd as [Hk Hd].
    cbn [fold_left fst snd]. rewrite (IH _ Hd), dict_keys_set.
    cbn [dict_keys map fst List.filter].
    case_bool_decide as Hin; cbn [negb]; [reflexivity|].
    rewrite <- app_assoc. cbn [app]. f_equal. f_equal.
    apply List.filter_ext_in. intros k' Hk'. f_equal.
    apply bool_decide_ext. rewrite elem_of_app, list_elem_of_singleton.
    split; [|tauto]. intros [?| ->]; [done|].
    exfalso. apply Hk. by apply list_elem_of_In.
Qed.

Lemma entity_dict_to_dict (e : EntityInfo) :
  keyed_by_type e -> entity_dict e (EntityInfo_to_dict e).
Proof.
  intros Hk.
  assert (Hd : NoDup (dict_keys (properties e))).
  { rewrite Hk. destruct (entity_type e); by_evaluation. }
  assert (Ht : "entity_type" ∉ dict_keys (properties e)).
  { rewrite Hk. destruct (entity_type e); by_evaluation. }
  assert (Hl : "line_number" ∉ dict_keys (properties e)).
  { rewrite Hk. destruct (entity_type e); by_evaluation. }
  split; [reflexivity|]. split; [|split; [|split; [|split]]].
  - unfold EntityInfo_to_dict. rewrite dict_keys_update by done.
    rewrite Hk. by destruct (entity_type e).
  - rewrite dict_get_to_dict by done. unfold get_over.
    by rewrite (dict_get_None_keys _ _ Ht).
  - rewrite dict_get_to_dict by done. unfold get_over.
    by rewrite (dict_get_None_keys _ _ Hl).
  - rewrite dict_get_to_dict by done. unfold get_over, merge_name.
    by destruct (dict_get "name" (properties e)).
  - intros k v Hv. rewrite dict_get_to_dict by done. unfold get_over.
    by rewrite Hv.
Qed.

Lemma entity_dicts (es : list EntityInfo) :
  Forall keyed_by_type es ->
  Forall2 entity_dict es (map EntityInfo_to_dict es).
Proof.
  induction 1 as [|e es He _ IH]; constructor; [|exact IH].
  by apply entity_dict_to_dict.
Qed.

Lemma relationship_dicts (rs : list RelationshipInfo) :
  Forall (fun r => rel_properties r = []) rs ->
  Forall2 relationship_dict rs (map RelationshipInfo_to_dict rs).
Proof.
  induction 1 as [|r rs Hr _ IH]; constructor; [|exact IH].
  unfold relationship_dict, RelationshipInfo_to_dict. by rewrite Hr.
Qed.

(** X16. The dictionaries [parse_python_ast] and [extract_entities] return
    are those of the parser's entities and relationships, one each and in
    order.  An entity's dictionary has the keys entity_type, name and
    line_number followed by its property keys; entity_type is the value of
    its kind; name is its name property when it has one (the bare name of a
    class, function, method, parameter or decorator) and its qualified
    name otherwise.  A relationship's dictionary has exactly the keys
    rel_type, source and target.  Without a module path argument the code
    is parsed as module temp. *)
Theorem extraction_dictionaries
    (cleandoc : string -> string) (unparse : expr -> option string)
    (recursion_limit : nat) :
  (forall temp_file tree module_path eds rds,
     parse_python_ast cleandoc unparse recursion_limit
       temp_file tree module_path
     = Some (eds, rds) ->
     exists es rs,
       parse_file cleandoc unparse recursion_limit
         temp_file (default "temp" module_path)
         tree = Some (es, rs) /\
       Forall2 entity_dict es eds /\ Forall2 relationship_dict rs rds) /\
  (forall file res,
     extract_entities cleandoc unparse recursion_limit file = Some res ->
     exists es rs,
       extract cleandoc unparse recursion_limit file
       = Some (extracted_module_path res, es, rs) /\
       extracted_file_path res = path_of file /\
       Forall2 entity_dict es (extracted_entities res)).
Proof.
  split.
  - intros temp_file tree module_path eds rds. unfold parse_python_ast.
    destruct (parse_file _ _ _ _ _ _) as [[es rs]|] eqn:Hp; [|done].
    intros [= <- <-]. exists es, rs. split; [reflexivity|]. split.
    + by eapply entity_dicts, parse_file_property_keys_lemma.
    + apply relationship_dicts.
      by apply parse_file_emission, emission_rel_properties in Hp.
  - intros file res. unfold extract_entities, extract.
    destruct (get_module_path _) as [mp|]; [|done].
    destruct (parse_file _ _ _ _ _ _) as [[es rs]|] eqn:Hp; [|done].
    intros [= <-]. exists es, rs. cbn. split; [reflexivity|].
    split; [reflexivity|].
    by eapply entity_dicts, parse_file_property_keys_lemma.
Qed.

Lemma extraction_dictionaries_witness :
  exists eds rds,
    parse_python_ast (fun s => s) (fun _ => None) 1000 "/tmp/tmp1.py"
      (Some example_tree) None = Some (eds, rds) /\
    map (dict_get "name") eds
    = [Some (PyStr "temp"); Some (PyStr "Foo"); Some (PyStr "bar");
       Some (PyStr "self"); Some (PyStr "x");
       Some (PyStr "temp.Foo.bar.docstring")] /\
    length rds = 6%nat.
Proof.
  eexists _, _. split; [reflexivity|].
  destruct (extraction_dictionaries (fun s => s) (fun _ => None) 1000) as [H _].
  destruct (H "/tmp/tmp1.py" (Some example_tree) None _ _ eq_refl)
    as (es & rs & [= <- <-] & _ & _).
  split; reflexivity.
Defined.

(** ** The queries the builder writes *)

Lemma all_chars_app (p : ascii -> bool) (a b : string) :
  all_chars p (a +:+ b) = all_chars p a && all_chars p b.
Proof.
  induction a as [|c a IH]; [reflexivity|]. cbn. by rewrite IH, andb_assoc.
Qed.

(** A keyword none of whose characters is a [p] character cannot reach
    into a non-empty stretch of [p] characters. *)
Lemma prefix_separated (p : ascii -> bool) (k a d b : string) :
  d <> "" -> all_chars p d = true ->
  all_chars (fun c => negb (p c)) k = true ->
  String.prefix k (a +:+ d +:+ b) = String.prefix k a.
Proof.
  intros Hd Hp. revert k. induction a as [|x a IH]; intros k Hk.
  - destruct k as [|c k]; [by destruct d|].
    destruct d as [|y d]; [done|]. cbn in Hk, Hp |- *.
    apply andb_prop in Hk as [Hc _]. apply andb_prop in Hp as [Hy _].
    destruct (ascii_dec c y) as [->|]; [|done].
    by rewrite Hy in Hc.
  - destruct k as [|c k]; [reflexivity|]. cbn in Hk |- *.
    apply andb_prop in Hk as [_ Hk].
    destruct (ascii_dec c x); [by apply IH|reflexivity].
Qed.

Lemma contains_separated (p : ascii -> bool) (k a d b : string) :
  k <> "" -> d <> "" -> all_chars p d = true ->
  all_chars (fun c => negb (p c)) k = true ->
  contains k (a +:+ d +:+ b) = contains k a || contains k b.
Proof.
  intros Hk Hd Hp Hf.
  assert (Hskip : forall d', all_chars p d' = true ->
            contains k (d' +:+ b) = contains k b).
  { induction d' as [|y d' IH]; [reflexivity|]. intros Hy.
    cbn in Hy. apply andb_prop in Hy as [Hy Hd'].
    change (String y d' +:+ b) with (String y (d' +:+ b)).
    cbn [contains]. rewrite (IH Hd').
    destruct k as [|c k]; [done|]. cbn in Hf |- *.
    apply andb_prop in Hf as [Hc _].
    destruct (ascii_dec c y) as [->|]; [|done].
    by rewrite Hy in Hc. }
  induction a as [|x a IH].
  - change ("" +:+ d +:+ b) with (d +:+ b). rewrite (Hskip d Hp).
    by destruct k.
  - change (String x a +:+ d +:+ b) with (String x (a +:+ d +:+ b)).
    cbn [contains]. rewrite IH.
    change (String x (a +:+ d +:+ b)) with (String x a +:+ d +:+ b).
    rewrite (prefix_separated p) by done.
    by rewrite orb_assoc.
Qed.

Lemma existsb_orb {A : Type} (f g : A -> bool) (l : list A) :
  existsb (fun x => f x || g x) l = existsb f l || existsb g l.
Proof.
  induction l as [|x l IH]; [reflexivity|]. cbn. rewrite IH.
  destruct (f x), (g x), (existsb f l); reflexivity.
Qed.

Lemma upper_sign_or_digit (d : string) :
  all_chars sign_or_digit d = true ->
  written_in_ascii d = true /\ upper_letters d = d.
Proof.
  unfold written_in_ascii.
  induction d as [|c d IH]; [done|]. cbn [all_chars upper_letters].
  intros [Hc Hd]%andb_prop. destruct (IH Hd) as [-> ->].
  rewrite andb_true_r.
  assert (is_ascii c = true /\ upper_ascii c = c) as [-> ->]; [|done].
  revert Hc. unfold sign_or_digit.
  destruct c as [[] [] [] [] [] [] [] []]; by vm_compute.
Qed.

(** A query with a printed integer in it is accepted exactly when what
    comes before and what comes after are. *)
Lemma validate_query_separated (a d b : string) :
  d <> "" -> all_chars sign_or_digit d = true ->
  validate_query (a +:+ d +:+ b) = validate_query a && validate_query b.
Proof.
  intros Hd Hp. unfold validate_query.
  destruct (upper_sign_or_digit d Hp) as [Ha Hu].
  assert (Hs : starts_in_ascii (d +:+ b)).
  { destruct d as [|c d]; [done|]. by apply andb_prop in Ha as [Ha _]. }
  rewrite (upper_app_ascii _ _ Hs), (upper_written_in_ascii_app _ _ Ha), Hu.
  rewrite <- negb_orb, <- existsb_orb.
  f_equal. unfold dangerous_keywords. cbn [existsb].
  by rewrite !(contains_separated sign_or_digit) by done.
Qed.

Lemma pretty_N_go_sign_or_digit (x : N) (s : string) :
  s <> "" -> all_chars sign_or_digit s = true ->
  pretty_N_go x s <> "" /\ all_chars sign_or_digit (pretty_N_go x s) = true.
Proof.
  revert s. induction (N.lt_wf_0 x) as [x _ IH]; intros s Hs Hp.
  destruct (decide (x = 0)%N) as [->|Hx]; [by rewrite pretty_N_go_0|].
  rewrite pretty_N_go_step by lia. apply IH.
  - apply N.div_lt; lia.
  - done.
  - cbn [all_chars]. rewrite Hp, andb_true_r.
    unfold pretty_N_char. by repeat case_match.
Qed.

Lemma pretty_N_sign_or_digit (x : N) :
  pretty x <> "" /\ all_chars sign_or_digit (pretty x) = true.
Proof.
  unfold pretty, pretty_N. destruct (decide (x = 0)%N) as [->|Hx]; [done|].
  rewrite pretty_N_go_step by lia.
  apply pretty_N_go_sign_or_digit; [done|].
  cbn [all_chars]. rewrite andb_true_r.
  unfold pretty_N_char. by repeat case_match.
Qed.

Lemma pretty_Z_sign_or_digit (z : Z) :
  pretty z <> "" /\ all_chars sign_or_digit (pretty z) = true.
Proof.
  destruct z as [|x|x]; [done|apply pretty_N_sign_or_digit|].
  destruct (pretty_N_sign_or_digit (Npos x)) as [_ H].
  change (pretty (Z.neg x)) with ("-" +:+ pretty (N.pos x)).
  split; [done|]. by rewrite all_chars_app, H.
Qed.

(** X17. Every query the builder writes passes the check applied to
    free-form queries, whatever it is called on: none mentions a mutation
    keyword.  The string searched for never enters the text, which is the
    same for every such string; it is passed as the one parameter. *)
Theorem builder_queries_are_read_only (c : builder_call) :
  validate_query (fst (build c)) = true /\
  (forall s, fst (build (searching s c)) = fst (build c)) /\
  exists key, snd (build c) = [(key, PyStr (searched c))].
Proof.
  split; [|split].
  - destruct c as [name [t|]| | |name d|name t dir| | | | |]; cbn [build];
      try reflexivity.
    + by destruct t.
    + unfold trace_imports, join. cbn [fst].
      destruct (pretty_Z_sign_or_digit d) as [Hd Hp].
      rewrite !append_assoc.
      match goal with
      | |- validate_query ?q = true =>
          change q with
            ((nl +:+ "            MATCH path = (m:Module {name: $name})"
                 +:+ "-[:IMPORTS*1..")
             +:+ pretty d
             +:+ ("]->(imported)" +:+ nl +:+ "            RETURN path"
                  +:+ nl +:+ "            LIMIT 50" +:+ nl +:+ "        "))
      end.
      by rewrite validate_query_separated.
    + unfold find_related.
      destruct (String.eqb dir "outgoing"); [by destruct t|].
      destruct (String.eqb dir "incoming"); by destruct t.
  - by destruct c.
  - destruct c; by eexists.
Qed.

(** ** Type strings given to the search methods *)

Lemma find_all_false {A : Type} (f : A -> bool) (l : list A) :
  (forall x, f x = false) -> List.find f l = None.
Proof.
  intros H. induction l as [|x l IH]; [reflexivity|]. cbn. by rewrite H.
Qed.

Lemma EntityType_of_value_Some (t : EntityType) :
  EntityType_of_value (EntityType_value t) = Some t.
Proof. by destruct t. Qed.

Lemma EntityType_of_value_None (s : string) :
  (forall t, EntityType_value t <> s) -> EntityType_of_value s = None.
Proof.
  intros H. unfold EntityType_of_value.
  apply find_all_false. intros t. apply String.eqb_neq, H.
Qed.

Lemma RelationshipType_of_value_Some (t : RelationshipType) :
  RelationshipType_of_value (RelationshipType_value t) = Some t.
Proof. by destruct t. Qed.

Lemma RelationshipType_of_value_None (s : string) :
  (forall t, RelationshipType_value t <> s) ->
  RelationshipType_of_value s = None.
Proof.
  intros H. unfold RelationshipType_of_value.
  apply find_all_false. intros t. apply String.eqb_neq, H.
Qed.

(** X18. The search methods take the kind of entity or relationship as a
    string and look it up by its exact value.  With the value of a kind,
    [find_entity] reads with the query filtered on that kind, and with no
    string or the empty string with the unfiltered query.  With any other
    string, a lower-case class for one, [find_entity] and [find_related]
    raise after fetching the client and read nothing; [find_related] does
    so for the empty string too. *)
Theorem search_methods_look_kinds_up_by_value (db : read_database)
    (name : string) :
  rdb_connect db = None ->
  (forall t,
     snd (GraphQueryTools.find_entity db name (Some (EntityType_value t)))
     = [ClientCall;
        ReadCall (fst (find_entity_by_name name (Some t)))
          [("name", PyStr name)]]) /\
  (forall s, s = None \/ s = Some "" ->
     snd (GraphQueryTools.find_entity db name s)
     = [ClientCall;
        ReadCall (fst (find_entity_by_name name None))
          [("name", PyStr name)]]) /\
  (forall s, s <> "" -> (forall t, EntityType_value t <> s) ->
     GraphQueryTools.find_entity db name (Some s)
     = (inl (NotAValid "EntityType" s), [ClientCall])) /\
  (forall t direction,
     snd (GraphQueryTools.find_related db name (RelationshipType_value t)
            direction)
     = [ClientCall;
        ReadCall (fst (find_related name t direction))
          [("name", PyStr name)]]) /\
  (forall s direction, (forall t, RelationshipType_value t <> s) ->
     GraphQueryTools.find_related db name s direction
     = (inl (NotAValid "RelationshipType" s), [ClientCall])).
Proof.
  intros Hc. unfold GraphQueryTools.find_entity, GraphQueryTools.find_related.
  rewrite Hc. repeat split.
  - intros t. rewrite EntityType_of_value_Some.
    assert (truthy (EntityType_value t) = true) as -> by by destruct t.
    cbn [find_entity_by_name fst snd].
    by destruct (rdb_read db _ _).
  - intros s [-> | ->]; cbn [truthy negb String.eqb find_entity_by_name];
      by destruct (rdb_read db _ _).
  - intros s Hs Ht. rewrite (EntityType_of_value_None s Ht).
    unfold truthy. by rewrite (proj2 (String.eqb_neq s "") Hs).
  - intros t direction. rewrite RelationshipType_of_value_Some.
    unfold find_related. cbn [fst snd].
    by destruct (rdb_read db _ _).
  - intros s direction Ht. by rewrite (RelationshipType_of_value_None s Ht).
Qed.

Lemma search_methods_look_kinds_up_by_value_witness :
  GraphQueryTools.find_entity silent_database "Foo" (Some "class")
  = (inl (NotAValid "EntityType" "class"), [ClientCall]).
Proof.
  destruct (search_methods_look_kinds_up_by_value silent_database "Foo"
              eq_refl) as (_ & _ & H & _).
  apply H; [done|]. by intros [].
Defined.

(** X19. The check on free-form queries does not look for CREATE or
    MERGE: putting CREATE ( or MERGE ( in front of a query never changes
    the verdict, so a statement that creates nodes is accepted whenever
    the rest of it is. *)
Theorem validate_query_ignores_create_and_merge (q : string) :
  validate_query ("CREATE (" +:+ q) = validate_query q /\
  validate_query ("MERGE (" +:+ q) = validate_query q /\
  validate_query "CREATE (n:Module {name: $name})" = true.
Proof.
  unfold validate_query.
  rewrite !upper_written_in_ascii_app by reflexivity. repeat split.
Qed.

(** ** Discovery of the files to index *)

Lemma dir_induction (P : dir -> Prop) :
  (forall files subdirs,
     Forall (fun sub => P (snd sub)) subdirs -> P (mk_dir files subdirs)) ->
  forall d, P d.
Proof.
  intros H. fix IH 1. intros [files subdirs]. apply H.
  induction subdirs as [|sub subdirs IHs]; constructor; [apply IH|exact IHs].
Qed.

Lemma substring_split (s : string) (i : nat) :
  (i <= String.length s)%nat ->
  s = substring 0 i s +:+ substring i (String.length s - i) s.
Proof.
  revert i. induction s as [|c s IH]; intros [|i] Hi; cbn in Hi |- *;
    try lia; try reflexivity.
  - by rewrite substring_all.
  - f_equal. apply IH. lia.
Qed.

Lemma endswith_spec (suffix s : string) :
  endswith suffix s = true <-> exists a, s = a +:+ suffix.
Proof.
  split.
  - unfold endswith. intros [Hle Heq]%andb_prop.
    apply Nat.leb_le in Hle. apply String.eqb_eq in Heq.
    exists (substring 0 (String.length s - String.length suffix) s).
    pose proof (substring_split s (String.length s - String.length suffix))
      as H.
    replace (String.length s - (String.length s - String.length suffix))%nat
      with (String.length suffix) in H by lia.
    rewrite Heq in H. apply H. lia.
  - intros [a ->]. apply endswith_append.
Qed.

Lemma walk_python_files_spec (exclude_dirs : list string) (d : dir)
    (root path : list string) :
  path ∈ walk_python_files exclude_dirs root d
  <-> exists dirs file,
        path = root ++ dirs ++ [file] /\ file_in d (dirs ++ [file]) /\
        endswith ".py" file = true /\
        Forall (fun name => name ∉ exclude_dirs) dirs.
Proof.
  revert root path. induction d as [files subdirs IH] using dir_induction.
  intros root path. cbn [walk_python_files].
  rewrite elem_of_app, list_elem_of_fmap. split.
  - intros [(file & -> & Hf)|Hsub].
    + apply list_elem_of_In, List.filter_In in Hf as [Hf Hpy].
      exists [], file. split; [done|]. split; [|by split].
      apply file_here. by apply list_elem_of_In.
    + apply list_elem_of_In, List.in_flat_map in Hsub
        as ([name d] & Hin & Hp). cbn [fst snd] in Hp.
      case_bool_decide as Hex; [done|].
      pose proof (proj1 (List.Forall_forall _ _) IH _ Hin) as Hd.
      cbn [snd] in Hd.
      apply list_elem_of_In, Hd in Hp
        as (dirs & file & -> & Hfile & Hpy & Hdirs).
      exists (name :: dirs), file. split; [by rewrite <- app_assoc|].
      split; [|by split; [|constructor]].
      apply file_below with d; [by apply list_elem_of_In|done].
  - intros (dirs & file & -> & Hfile & Hpy & Hdirs).
    destruct dirs as [|name dirs]; cbn [app] in Hfile.
    + left. exists file. split; [done|].
      inversion Hfile as [? ? ? Hf|? ? ? ? ? ? Hnil]; subst.
      * by apply list_elem_of_In, List.filter_In; split;
          [apply list_elem_of_In|].
      * inversion Hnil.
    + right. inversion Hfile as [? ? ? Hf Heq|? ? ? d ? Hin Hd]; subst.
      { by destruct dirs. }
      apply Forall_cons in Hdirs as [Hname Hdirs].
      apply list_elem_of_In, List.in_flat_map. exists (name, d).
      split; [by apply list_elem_of_In|]. cbn [fst snd].
      rewrite bool_decide_eq_false_2 by done.
      apply list_elem_of_In.
      assert (Hind : In (name, d) subdirs) by by apply list_elem_of_In.
      apply (proj1 (List.Forall_forall _ _) IH _ Hind).
      exists dirs, file. by rewrite <- app_assoc.
Qed.

(** X20. [discover_python_files] returns exactly the files of the clone
    directory whose name ends in .py and none of whose directories, below
    the clone path, has an excluded name.  Only the names of directories
    are tested: a file called tests.py is found, and so is everything when
    the clone directory itself has an excluded name.  Passing an empty
    exclusion list gives the default exclusions. *)
Theorem discover_python_files_spec (clone : dir)
    (exclude_dirs : list string) (path : list string) :
  (exists found,
     discover_python_files (Some clone) (Some exclude_dirs) = Some found /\
     (path ∈ found
      <-> exists dirs file,
            path = dirs ++ [file] /\ file_in clone path /\
            endswith ".py" file = true /\
            Forall (fun name =>
                      name ∉ match exclude_dirs with
                             | [] => default_exclude_dirs
                             | _ => exclude_dirs
                             end) dirs)) /\
  discover_python_files (Some clone) (Some [])
  = discover_python_files (Some clone) None /\
  discover_python_files None (Some exclude_dirs) = None.
Proof.
  split; [|by split].
  eexists. split; [reflexivity|].
  rewrite walk_python_files_spec. cbn [app].
  destruct exclude_dirs as [|x l]; split;
    intros (dirs & file & -> & H); by exists dirs, file.
Qed.

(** X21. Every file [discover_python_files] returns has a module path:
    [get_module_path] does not raise on it, and gives the directories and
    the file's stem joined by dots, without the stem for an __init__.py. *)
Theorem discovered_files_have_module_paths (clone : dir)
    (exclude_dirs : option (list string)) (found : list (list string))
    (path : list string) :
  discover_python_files (Some clone) exclude_dirs = Some found ->
  path ∈ found ->
  exists dirs stem,
    path = dirs ++ [stem +:+ ".py"] /\
    get_module_path (Some path)
    = Some (join "." (if String.eqb stem "__init__" then dirs
                      else dirs ++ [stem])).
Proof.
  unfold discover_python_files. intros [= <-] Hp.
  apply walk_python_files_spec in Hp as (dirs & file & -> & _ & Hpy & _).
  apply endswith_spec in Hpy as [stem ->].
  exists dirs, stem. split; [reflexivity|]. apply get_module_path_py.
Qed.

Lemma discovered_files_have_module_paths_witness :
  exists found,
    discover_python_files (Some example_repository) None = Some found /\
    found = [["setup.py"]; ["pkg"; "__init__.py"]; ["pkg"; "tests.py"]] /\
    map (fun p => get_module_path (Some p)) found
    = [Some "setup"; Some "pkg"; Some "pkg.tests"].
Proof.
  eexists. split; [reflexivity|]. split; [reflexivity|].
  destruct (discovered_files_have_module_paths example_repository None _
              ["pkg"; "__init__.py"] eq_refl) as (dirs & stem & _ & _).
  { apply list_elem_of_In. vm_compute. tauto. }
  reflexivity.
Defined.

(** ** Helpers *)

Lemma length_substring_0 (j : nat) (s : string) :
  String.length (substring 0 j s) = Nat.min j (String.length s).
Proof.
  revert j. induction s as [|c s IH]; intros [|j]; cbn; try reflexivity.
  by rewrite IH.
Qed.

Lemma length_slice_to (stop : Z) (text : string) :
  Z.of_nat (String.length (slice_to stop text))
  = (if (0 <=? stop)%Z then Z.min stop (Z.of_nat (String.length text))
     else Z.max 0 (Z.of_nat (String.length text) + stop))%Z.
Proof.
  unfold slice_to. destruct (Z.leb_spec 0 stop); rewrite length_substring_0; lia.
Qed.

(** X22. [truncate_text] returns the text itself when it is at most
    [max_length] long.  A longer text is cut so that, with the suffix, the
    result is exactly [max_length] long, provided the suffix is no longer
    than [max_length]; when the suffix is longer, the cut counts from the
    end of the text and the result is longer than [max_length].  So the
    result fits [max_length] exactly when the text or the suffix does, as
    it does for the default 500 and three dots. *)
Theorem truncate_text_length (text : string) (max_length : Z)
    (suffix : string) :
  let n := Z.of_nat (String.length text) in
  let k := Z.of_nat (String.length suffix) in
  let result := truncate_text text max_length suffix in
  ((n <= max_length)%Z -> result = text) /\
  ((max_length < n)%Z -> (k <= max_length)%Z ->
     result = substring 0 (Z.to_nat (max_length - k)) text +:+ suffix /\
     Z.of_nat (String.length result) = max_length) /\
  ((Z.of_nat (String.length result) <= max_length)%Z
   <-> (n <= max_length)%Z \/ (k <= max_length)%Z) /\
  (String.length (truncate_text text 500 "...") <= 500)%nat.
Proof.
  intros n k result.
  assert (Hlen : Z.of_nat (String.length result)
                 = (if (n <=? max_length)%Z then n
                    else if (0 <=? max_length - k)%Z
                         then Z.min (max_length - k) n + k
                         else Z.max 0 (n + (max_length - k)) + k)%Z).
  { subst result. unfold truncate_text. fold n.
    destruct (Z.leb_spec n max_length); [reflexivity|].
    rewrite length_append, Nat2Z.inj_add, length_slice_to. fold n k.
    by destruct (0 <=? max_length - k)%Z. }
  split; [|split; [|split]].
  - intros H. subst result. unfold truncate_text. fold n.
    by rewrite (proj2 (Z.leb_le _ _) H).
  - intros Hn Hk. split.
    + subst result. unfold truncate_text, slice_to. fold n k.
      rewrite (proj2 (Z.leb_gt _ _) Hn).
      by rewrite (proj2 (Z.leb_le 0 (max_length - k)) ltac:(lia)).
    + rewrite Hlen. rewrite (proj2 (Z.leb_gt _ _) Hn).
      rewrite (proj2 (Z.leb_le 0 (max_length - k)) ltac:(lia)). lia.
  - rewrite Hlen. destruct (Z.leb_spec n max_length); [lia|].
    destruct (Z.leb_spec 0 (max_length - k)); lia.
  - pose proof (length_append
                  (slice_to (500 - Z.of_nat (String.length "...")) text)
                  "...") as Ha.
    pose proof (length_slice_to (500 - Z.of_nat (String.length "...")) text)
      as Hs.
    unfold truncate_text.
    destruct (Z.leb_spec (Z.of_nat (String.length text)) 500); [lia|].
    cbn [String.length] in *. rewrite Ha.
    change (0 <=? 500 - Z.of_nat 3)%Z with true in Hs. cbv iota in Hs. lia.
Qed.

(** ** Retries *)

Section Retries.

Context {T E D : Type} (mul : D -> D -> D).
Context (max_retries : Z) (delay backoff : D) (func : nat -> @outcome T E).

Lemma retry_loop_decisive (k r attempt : nat) (d : D) (last : option E)
    (result : @retry_result T E) :
  (Z.of_nat (attempt + k) <= max_retries)%Z ->
  (forall i, (i < k)%nat -> exists e, func (attempt + i) = Raises e true) ->
  (exists v, func (attempt + k) = Returns v /\ result = Returned v) \/
  (exists e, func (attempt + k) = Raises e false /\ result = Raised e) ->
  retry_loop mul max_retries backoff func (k + S r) attempt d last
  = mk_retry_run result (backoff_delays mul backoff k d) (S k).
Proof.
  revert attempt d last. induction k as [|k IH]; intros attempt d last Hk Hf Hd.
  - rewrite Nat.add_0_r in Hd. cbn [Nat.add retry_loop backoff_delays].
    by destruct Hd as [(v & -> & ->)|(e & -> & ->)].
  - cbn [Nat.add retry_loop backoff_delays].
    destruct (Hf 0%nat ltac:(lia)) as [e He]. rewrite Nat.add_0_r in He.
    rewrite He. rewrite (proj2 (Z.ltb_lt _ _)) by lia.
    rewrite (IH (S attempt) (mul d backoff) (Some e)).
    + reflexivity.
    + lia.
    + intros i Hi. destruct (Hf (S i) ltac:(lia)) as [e' He'].
      exists e'. by rewrite <- He', Nat.add_succ_r.
    + by rewrite Nat.add_succ_r in Hd.
Qed.

Lemma retry_loop_S (remaining attempt : nat) (d : D) (last : option E) :
  retry_loop mul max_retries backoff func (S remaining) attempt d last
  = match func attempt with
    | Returns value => mk_retry_run (Returned value) [] 1
    | Raises e false => mk_retry_run (Raised e) [] 1
    | Raises e true =>
        if (Z.of_nat attempt <? max_retries)%Z
        then
          let rest :=
            retry_loop mul max_retries backoff func remaining (S attempt)
              (mul d backoff) (Some e) in
          mk_retry_run (run_result rest) (d :: run_sleeps rest)
            (S (run_calls rest))
        else
          let rest :=
            retry_loop mul max_retries backoff func remaining (S attempt) d
              (Some e) in
          mk_retry_run (run_result rest) (run_sleeps rest)
            (S (run_calls rest))
    end.
Proof. reflexivity. Qed.

Lemma retry_loop_exhausted (err : nat -> E) (j attempt : nat) (d : D)
    (last : option E) :
  Z.of_nat (attempt + j) = max_retries ->
  (forall i, (i <= j)%nat ->
     func (attempt + i) = Raises (err (attempt + i)%nat) true) ->
  retry_loop mul max_retries backoff func (S j) attempt d last
  = mk_retry_run (Raised (err (attempt + j)%nat))
      (backoff_delays mul backoff j d) (S j).
Proof.
  revert attempt d last. induction j as [|j IH]; intros attempt d last Hm Hf.
  - pose proof (Hf 0%nat ltac:(lia)) as He. rewrite Nat.add_0_r in *.
    cbn [retry_loop backoff_delays]. rewrite He.
    by rewrite (proj2 (Z.ltb_ge _ _)) by lia.
  - pose proof (Hf 0%nat ltac:(lia)) as He. rewrite Nat.add_0_r in He.
    rewrite retry_loop_S. cbn [backoff_delays]. rewrite He.
    rewrite (proj2 (Z.ltb_lt _ _)) by lia. cbv zeta.
    rewrite (IH (S attempt) (mul d backoff) (Some (err attempt))).
    + by rewrite Nat.add_succ_r.
    + lia.
    + intros i Hi. rewrite Nat.add_succ_l, <- Nat.add_succ_r.
      apply Hf. lia.
Qed.

Lemma retry_loop_bounds (remaining attempt : nat) (d : D)
    (last : option E) :
  let run := retry_loop mul max_retries backoff func remaining attempt d
               last in
  (run_calls run <= remaining)%nat /\
  (length (run_sleeps run) <= run_calls run)%nat /\
  (Z.of_nat (length (run_sleeps run))
   <= Z.max 0 (max_retries - Z.of_nat attempt))%Z /\
  run_sleeps run = backoff_delays mul backoff (length (run_sleeps run)) d.
Proof.
  revert attempt d last.
  induction remaining as [|remaining IH]; intros attempt d last;
    cbn [retry_loop].
  - cbn. repeat split; lia.
  - destruct (func attempt) as [v|e [|]]; try (cbn; repeat split; lia).
    destruct (Z.ltb_spec (Z.of_nat attempt) max_retries).
    + destruct (IH (S attempt) (mul d backoff) (Some e))
        as (H1 & H2 & H3 & H4).
      cbn [run_calls run_sleeps length backoff_delays].
      repeat split; [lia|lia|lia|]. by rewrite <- H4.
    + destruct (IH (S attempt) d (Some e)) as (H1 & H2 & H3 & H4).
      cbn [run_calls run_sleeps].
      assert (length (run_sleeps
                (retry_loop mul max_retries backoff func remaining
                   (S attempt) d (Some e))) = 0)%nat as H0 by lia.
      repeat split; [lia|lia|lia|exact H4].
Qed.

End Retries.

(** X23. A call wrapped by [async_retry] is tried again after each
    exception of the retried kinds, sleeping the delay and then
    multiplying it by the backoff, until one attempt returns or raises an
    exception of another kind; that value is returned, or that exception
    raised, at once.  An attempt number [k], counted from 0, that is
    reached takes k + 1 calls and k sleeps. *)
Theorem async_retry_stops_at_first_decisive_call
    {T E D : Type} (mul : D -> D -> D) (max_retries : Z) (delay backoff : D)
    (func : nat -> @outcome T E) (k : nat) :
  (Z.of_nat k <= max_retries)%Z ->
  (forall i, (i < k)%nat -> exists e, func i = Raises e true) ->
  (forall v, func k = Returns v ->
     async_retry mul max_retries delay backoff func
     = mk_retry_run (Returned v) (backoff_delays mul backoff k delay)
         (S k)) /\
  (forall e, func k = Raises e false ->
     async_retry mul max_retries delay backoff func
     = mk_retry_run (Raised e) (backoff_delays mul backoff k delay) (S k)).
Proof.
  intros Hk Hf. unfold async_retry.
  replace (Z.to_nat (max_retries + 1))
    with (k + S (Z.to_nat max_retries - k))%nat by lia.
  split; intros x Hx; apply retry_loop_decisive; try done; eauto.
Qed.

Lemma async_retry_stops_at_first_decisive_call_witness :
  async_retry Z.mul 2 1%Z 2%Z fails_twice
  = mk_retry_run (Returned 7%nat) [1%Z; 2%Z] 3.
Proof.
  destruct (async_retry_stops_at_first_decisive_call Z.mul 2 1%Z 2%Z
              fails_twice 2) as [H _].
  - lia.
  - intros [|[|i]] Hi; [by eexists..|lia].
  - by apply H.
Defined.

(** X24. When every attempt raises an exception of the retried kinds,
    [async_retry] calls the function [max_retries] + 1 times, sleeps
    between the calls and not after the last, and raises the exception of
    the last call.  With a negative [max_retries] the function is never
    called, and the wrapper raises with no exception to raise. *)
Theorem async_retry_gives_up
    {T E D : Type} (mul : D -> D -> D) (max_retries : Z) (delay backoff : D)
    (func : nat -> @outcome T E) (err : nat -> E) :
  (forall i, (Z.of_nat i <= max_retries)%Z -> func i = Raises (err i) true) ->
  ((0 <= max_retries)%Z ->
   async_retry mul max_retries delay backoff func
   = mk_retry_run (Raised (err (Z.to_nat max_retries)))
       (backoff_delays mul backoff (Z.to_nat max_retries) delay)
       (S (Z.to_nat max_retries))) /\
  ((max_retries < 0)%Z ->
   async_retry mul max_retries delay backoff func
   = mk_retry_run RaisesNone [] 0).
Proof.
  intros Hf. unfold async_retry. split; intros Hm.
  - replace (Z.to_nat (max_retries + 1)) with (S (Z.to_nat max_retries))
      by lia.
    apply (retry_loop_exhausted mul max_retries backoff func err
             (Z.to_nat max_retries) 0); [lia|].
    intros i Hi. apply Hf. lia.
  - by replace (Z.to_nat (max_retries + 1)) with 0%nat by lia.
Qed.

Lemma async_retry_gives_up_witness :
  async_retry Z.mul 2 1%Z 2%Z always_fails
  = mk_retry_run (Raised "timeout 2") [1%Z; 2%Z] 3.
Proof.
  destruct (async_retry_gives_up Z.mul 2 1%Z 2%Z always_fails
              (fun i => "timeout " +:+ pretty i)) as [H _].
  - done.
  - by apply H.
Defined.

(** X25. Whatever the wrapped function does, [async_retry] calls it at
    most [max_retries] + 1 times and sleeps at most [max_retries] times,
    never more often than it calls; the delays it sleeps are the first of
    the sequence that starts at [delay] and multiplies by [backoff]. *)
Theorem async_retry_bounds
    {T E D : Type} (mul : D -> D -> D) (max_retries : Z) (delay backoff : D)
    (func : nat -> @outcome T E) :
  let run := async_retry mul max_retries delay backoff func in
  (run_calls run <= Z.to_nat (max_retries + 1))%nat /\
  (length (run_sleeps run) <= run_calls run)%nat /\
  (length (run_sleeps run) <= Z.to_nat max_retries)%nat /\
  run_sleeps run
  = backoff_delays mul backoff (length (run_sleeps run)) delay.
Proof.
  intros run.
  destruct (retry_loop_bounds mul max_retries backoff func
              (Z.to_nat (max_retries + 1)) 0 delay None)
    as (H1 & H2 & H3 & H4).
  fold (async_retry mul max_retries delay backoff func) in H1, H2, H3, H4.
  fold run in H1, H2, H3, H4. repeat split; [exact H1|exact H2|lia|exact H4].
Qed.

(** ** Classes, wherever they are defined *)

Section Classes.

Context (cleandoc : string -> string) (unparse : expr -> option string)
  (recursion_limit : nat).
Context (module_path : string).

Let not_a_class (e : EntityInfo) : Prop := entity_type e <> CLASS.

Lemma _parse_function_no_class (node : stmt) (is_method : bool)
    (parent_class : option string) :
  appends not_a_class
    (_parse_function cleandoc unparse recursion_limit module_path node is_method
       parent_class).
Proof.
  destruct node; cbn [_parse_function]; try apply appends_raise;
    unfold _parse_function_def, _add_parameter, _add_decorator,
      _add_docstring;
    repeat first
      [ appends_step
      | match goal with
        | |- appends _ (match option_map _ ?x with _ => _ end) =>
            destruct x; cbn [option_map]
        | |- appends _ (match (match ?x with _ => _ end) with _ => _ end) =>
            destruct x
        end ];
    by destruct is_method.
Qed.

Lemma visit_class_names (tree : Module_ast) (x : located)
    (es : list EntityInfo) (rs : list RelationshipInfo) :
  visit cleandoc unparse recursion_limit module_path tree x = Some (es, rs) ->
  map name (entities_of CLASS es) = class_ids module_path x.
Proof.
  assert (Hnone : forall step es' rs',
            appends not_a_class step -> step = Some (es', rs') ->
            map name (entities_of CLASS es') = []).
  { intros step es' rs' Hs H. apply Hs in H. unfold entities_of.
    rewrite filter_none; [reflexivity|].
    eapply Forall_impl; [exact H|]. cbn. intros e He.
    by apply bool_decide_eq_false_2. }
  revert es rs. unfold visit, class_ids. destruct x as [p s]. cbn [snd].
  intros es rs.
  destruct s; try (by apply Hnone; apply appends_skip).
  - cbn [_parse_class]. intros H.
    apply and_then_Some in H as (e1 & r1 & e2 & r2 & He & H & -> & ->).
    injection He as <- <-. rewrite entities_of_app, map_app.
    match type of H with
    | ?step = _ => assert (Ha : appends not_a_class step)
    end.
    { unfold _add_decorator, _add_docstring.
      repeat first [ apply _parse_function_no_class | appends_step ];
        done. }
    rewrite (Hnone _ _ _ Ha H). unfold entities_of. cbn [List.filter]. unfold is_entity_type at 1.
    cbn [entity_type]. by rewrite bool_decide_eq_true_2.
  - apply Hnone. destruct (_is_top_level _ _);
      [apply _parse_function_no_class|apply appends_skip].
  - apply Hnone. destruct (_is_top_level _ _);
      [apply _parse_function_no_class|apply appends_skip].
  - apply Hnone. cbn [_parse_import]. repeat appends_step; done.
  - apply Hnone. cbn [_parse_import]. repeat appends_step; done.
Qed.

End Classes.

(** X26. Every class definition of a file gives one Class entity, named by
    the module path and the class name, wherever it stands: in the module
    body, in another class, or inside a function or a branch.  There is no
    other Class entity. *)
Theorem parse_file_classes_anywhere
    (cleandoc : string -> string) (unparse : expr -> option string)
    (recursion_limit : nat)
    (file_path module_path : string) (tree : Module_ast)
    (es : list EntityInfo) (rs : list RelationshipInfo) :
  parse_file cleandoc unparse recursion_limit file_path module_path (Some tree)
  = Some (es, rs) ->
  map name (entities_of CLASS es)
  ≡ₚ flat_map (class_ids module_path) (all_nodes tree).
Proof.
  cbn [parse_file]. intros H.
  apply and_then_Some in H as (e1 & r1 & e2 & r2 & He & H & -> & ->).
  injection He as <- <-. rewrite entities_of_app, map_app. cbn [app].
  assert (map name (entities_of CLASS e2)
          = flat_map (class_ids module_path) (walk tree)) as ->.
  { eapply for_each_names; [|exact H].
    intros x es' rs'. apply visit_class_names. }
  cbn. apply Permutation_flat_map, walk_permutation.
Qed.

Lemma parse_file_classes_anywhere_witness :
  exists es rs,
    parse_file (fun s => s) (fun _ => None) 1000 "/repo/m.py" "m"
      (Some nested_definitions) = Some (es, rs) /\
    map name (entities_of CLASS es) ≡ₚ ["m.Inner"] /\
    map name es = ["m"; "m.f"; "m.Inner"].
Proof.
  eexists _, _. split; [reflexivity|]. split; [|reflexivity].
  exact (parse_file_classes_anywhere (fun s => s) (fun _ => None) 1000
           "/repo/m.py" "m" nested_definitions _ _ eq_refl).
Defined.

(** ** Relationships start at entities *)

Lemma anchors_skip (known : list string) : anchors known skip.
Proof. intros o [= <-] r Hr. by apply elem_of_nil in Hr. Qed.

Lemma anchors_raise (known : list string) : anchors known raise.
Proof. intros o [=]. Qed.

Lemma anchors_entity (known : list string) (e : EntityInfo) :
  anchors known (append_entity e).
Proof. intros o [= <-] r Hr. by apply elem_of_nil in Hr. Qed.

Lemma anchors_relationship (known : list string) (r : RelationshipInfo) :
  source r ∈ known ->
  (ends_at_entity (rel_type r) -> target r ∈ known) ->
  anchors known (append_relationship r).
Proof.
  intros Hs Ht o [= <-] r' Hr. apply list_elem_of_singleton in Hr as ->.
  cbn [fst map]. rewrite app_nil_r. by split.
Qed.

Lemma anchored_more (known known' : list string) (es es' : list EntityInfo)
    (rs : list RelationshipInfo) :
  (forall x, x ∈ known ++ map name es -> x ∈ known' ++ map name es') ->
  anchored known (es, rs) -> anchored known' (es', rs).
Proof.
  intros Hsub H r Hr. destruct (H r Hr) as [Hs Ht]. split; [by apply Hsub|].
  intros Hk. by apply Hsub, Ht.
Qed.

Lemma anchors_and_then (known : list string) (a b : parse_step) :
  anchors known a -> anchors known b -> anchors known (a ;; b).
Proof.
  intros Ha Hb [es rs] H.
  apply and_then_Some in H as (e1 & r1 & e2 & r2 & H1 & H2 & -> & ->).
  intros r Hr. cbn [snd] in Hr. apply elem_of_app in Hr as [Hr|Hr].
  - apply (anchored_more known known e1 (e1 ++ e2) r1); [|by apply Ha|done].
    intros x. rewrite map_app, !elem_of_app. tauto.
  - apply (anchored_more known known e2 (e1 ++ e2) r2); [|by apply Hb|done].
    intros x. rewrite map_app, !elem_of_app. tauto.
Qed.

(** What follows the appending of an entity may start and end at it. *)
Lemma anchors_entity_then (known : list string) (e : EntityInfo)
    (b : parse_step) :
  anchors (name e :: known) b -> anchors known (append_entity e ;; b).
Proof.
  intros Hb [es rs] H.
  apply and_then_Some in H as (e1 & r1 & e2 & r2 & H1 & H2 & -> & ->).
  injection H1 as <- <-. cbn [app].
  apply (anchored_more (name e :: known) known e2 (e :: e2) r2);
    [|by apply Hb].
  intros x. rewrite !elem_of_app. cbn [map]. rewrite !elem_of_cons. tauto.
Qed.

Lemma anchors_for_each {A : Type} (known : list string) (l : list A)
    (f : A -> parse_step) :
  (forall x, anchors known (f x)) -> anchors known (for_each l f).
Proof.
  intros Hf. induction l as [|x l IH]; [apply anchors_skip|].
  cbn [for_each]. by apply anchors_and_then.
Qed.

Ltac known_name :=
  cbn [source target rel_type name];
  solve [ repeat first [ apply list_elem_of_here
                       | apply list_elem_of_further ] ].

Ltac anchors_step :=
  first
    [ apply anchors_skip
    | apply anchors_raise
    | apply anchors_entity_then
    | apply anchors_and_then
    | apply anchors_for_each; intros ?
    | apply anchors_entity
    | apply anchors_relationship;
      [ known_name
      | first [ intros _; known_name
              | intros [H|[H|H]]; discriminate H ] ]
    | match goal with
      | |- anchors _ (if ?b then _ else _) => destruct b
      | |- anchors _ (match ?x with Some _ => _ | None => _ end) =>
          destruct x
      end ].

Section Anchors.

Context (cleandoc : string -> string) (unparse : expr -> option string)
  (recursion_limit : nat).
Context (module_path : string).

Lemma _add_parameter_anchors (known : list string) (parent : string)
    (a : arg) (position : Z) :
  parent ∈ known ->
  anchors known (_add_parameter unparse parent a position).
Proof.
  intros Hp. unfold _add_parameter.
  destruct (annotation a) as [ann|]; [destruct (unparse ann)|];
    cbn [option_map]; try apply anchors_raise;
    (apply anchors_entity_then, anchors_relationship;
     [by apply list_elem_of_further|intros _; apply list_elem_of_here]).
Qed.

Lemma _add_decorator_anchors (known : list string) (parent d : string) :
  parent ∈ known -> anchors known (_add_decorator parent d).
Proof.
  intros Hp. unfold _add_decorator.
  apply anchors_entity_then, anchors_relationship;
    [by apply list_elem_of_further|].
  intros [H|[H|H]]; discriminate H.
Qed.

Lemma _add_docstring_anchors (known : list string)
    (parent content : string) (ln : Z) :
  parent ∈ known -> anchors known (_add_docstring parent content ln).
Proof.
  intros Hp. unfold _add_docstring.
  apply anchors_entity_then, anchors_relationship;
    [by apply list_elem_of_further|intros _; apply list_elem_of_here].
Qed.

Lemma _parse_function_anchors (known : list string) (node : stmt)
    (is_method : bool) (parent_class : option string) :
  (if is_method then format_optional parent_class else module_path)
  ∈ known ->
  anchors known
    (_parse_function cleandoc unparse recursion_limit module_path node is_method
       parent_class).
Proof.
  intros Hp.
  destruct node; cbn [_parse_function]; try apply anchors_raise;
    unfold _parse_function_def;
    (match goal with
     | |- anchors _ (match ?m with Some _ => _ | None => _ end) =>
         destruct m as [[is_static is_classmethod]|];
         [|apply anchors_raise]
     end);
    (apply anchors_entity_then, anchors_and_then;
     [apply anchors_relationship;
      [by apply list_elem_of_further|intros _; apply list_elem_of_here]|]);
    repeat first
      [ apply _add_parameter_anchors; apply list_elem_of_here
      | apply _add_decorator_anchors; apply list_elem_of_here
      | apply _add_docstring_anchors; apply list_elem_of_here
      | anchors_step ].
Qed.

Lemma _parse_class_anchors (known : list string) (node : stmt) :
  module_path ∈ known ->
  anchors known (_parse_class cleandoc unparse recursion_limit
                   module_path node).
Proof.
  intros Hp. destruct node; cbn [_parse_class]; try apply anchors_raise.
  apply anchors_entity_then, anchors_and_then;
    [apply anchors_relationship;
     [by apply list_elem_of_further|intros _; apply list_elem_of_here]|].
  repeat first
    [ apply _parse_function_anchors; apply list_elem_of_here
    | apply _add_decorator_anchors; apply list_elem_of_here
    | apply _add_docstring_anchors; apply list_elem_of_here
    | anchors_step ].
Qed.

Lemma _parse_import_anchors (known : list string) (node : stmt) :
  module_path ∈ known ->
  anchors known (_parse_import module_path node).
Proof.
  intros Hp. destruct node; cbn [_parse_import]; try apply anchors_skip.
  - apply anchors_for_each. intros a.
    apply anchors_entity_then, anchors_relationship;
      [by apply list_elem_of_further|].
    intros [H|[H|H]]; discriminate H.
  - apply anchors_entity_then. destruct (truthy _); [|apply anchors_skip].
    apply anchors_relationship; [by apply list_elem_of_further|].
    intros [H|[H|H]]; discriminate H.
Qed.

Lemma visit_anchors (known : list string) (tree : Module_ast)
    (node : located) :
  module_path ∈ known ->
  anchors known (visit cleandoc unparse recursion_limit module_path tree node).
Proof.
  intros Hp. unfold visit.
  destruct (snd node) eqn:Hn; try apply anchors_skip; rewrite <- ?Hn.
  - by apply _parse_class_anchors.
  - destruct (_is_top_level node tree); [|apply anchors_skip].
    by apply _parse_function_anchors.
  - destruct (_is_top_level node tree); [|apply anchors_skip].
    by apply _parse_function_anchors.
  - by apply _parse_import_anchors.
  - by apply _parse_import_anchors.
Qed.

End Anchors.

(** X27. In every extraction each relationship starts at an entity of the
    same extraction: its source is the qualified name of one of the
    entities.  A CONTAINS, HAS_PARAMETER or DOCUMENTED_BY relationship
    also ends at one; the other kinds end at a bare name. *)
Theorem parse_file_relationships_start_at_entities
    (cleandoc : string -> string) (unparse : expr -> option string)
    (recursion_limit : nat)
    (file_path module_path : string) (tree : option Module_ast)
    (es : list EntityInfo) (rs : list RelationshipInfo) :
  parse_file cleandoc unparse recursion_limit
    file_path module_path tree = Some (es, rs) ->
  forall r, r ∈ rs ->
    source r ∈ map name es /\
    (ends_at_entity (rel_type r) -> target r ∈ map name es).
Proof.
  destruct tree as [tree|]; [|done]. cbn [parse_file]. intros H.
  assert (Ha : anchored [] (es, rs)).
  { revert H. apply anchors_entity_then, anchors_for_each.
    intros x. apply visit_anchors, list_elem_of_here. }
  exact Ha.
Qed.

Lemma parse_file_relationships_start_at_entities_witness :
  exists es rs,
    parse_file (fun s => s) (fun _ => None) 1000 "/repo/pkg/mod.py" "pkg.mod"
      (Some example_tree) = Some (es, rs) /\
    map source rs
    = ["pkg.mod"; "pkg.mod.Foo"; "pkg.mod.Foo"; "pkg.mod.Foo.bar";
       "pkg.mod.Foo.bar"; "pkg.mod.Foo.bar"] /\
    Forall (fun r => source r ∈ map name es) rs.
Proof.
  eexists _, _. split; [reflexivity|]. split; [reflexivity|].
  apply Forall_forall. intros r Hr.
  by apply (parse_file_relationships_start_at_entities (fun s => s)
              (fun _ => None) 1000 "/repo/pkg/mod.py" "pkg.mod"
              (Some example_tree) _ _ eq_refl r).
Defined.

(** ** Parameters *)

Section Parameters.

Context (cleandoc : string -> string) (unparse : expr -> option string)
  (recursion_limit : nat).
Context (module_path : string).

Let not_a_parameter (e : EntityInfo) : Prop := entity_type e <> PARAMETER.

Lemma for_each_parameters (owner : string) (i : Z) (args : list arg)
    (es : list EntityInfo) (rs : list RelationshipInfo) :
  for_each (enumerate_from i args)
    (fun ia => _add_parameter unparse owner (snd ia) (fst ia))
  = Some (es, rs) ->
  map parameter_view es = map (parameter_at owner) (enumerate_from i args) /\
  Forall (fun e => entity_type e = PARAMETER) es.
Proof.
  revert i es rs. induction args as [|a args IH]; intros i es rs H.
  - injection H as <- <-. by split.
  - cbn [enumerate_from for_each] in H.
    apply and_then_Some in H as (e1 & r1 & e2 & r2 & Ha & H & -> & ->).
    apply IH in H as [Hv Ht]. cbn [fst snd] in Ha.
    unfold _add_parameter in Ha.
    destruct (match annotation a with
              | Some ann => option_map PyStr (unparse ann)
              | None => Some PyNone
              end) as [ta|]; [|done].
    injection Ha as <- <-. cbn [app map enumerate_from].
    split; [by rewrite Hv|by constructor].
Qed.

Lemma filter_not_parameter (step : parse_step) (es : list EntityInfo)
    (rs : list RelationshipInfo) :
  appends not_a_parameter step -> step = Some (es, rs) ->
  entities_of PARAMETER es = [].
Proof.
  intros Hs H. apply Hs in H. apply filter_none.
  eapply Forall_impl; [exact H|]. cbn. intros e He.
  by apply bool_decide_eq_false_2.
Qed.

Lemma _parse_function_parameters (node : stmt) (is_method : bool)
    (parent_class : option string) (fname : string)
    (es : list EntityInfo) (rs : list RelationshipInfo) :
  _parse_function cleandoc unparse recursion_limit
    module_path node is_method parent_class
  = Some (es, rs) ->
  function_name node = Some fname ->
  map parameter_view (entities_of PARAMETER es)
  = map (parameter_at
           ((if is_method then format_optional parent_class
             else module_path) +:+ "." +:+ fname))
      (enumerate (function_args node)).
Proof.
  intros H Hn.
  assert (Hdef : forall is_async args body decorator_list lineno,
            _parse_function_def cleandoc unparse recursion_limit
              module_path is_async fname
              args body decorator_list lineno is_method parent_class
            = Some (es, rs) ->
            map parameter_view (entities_of PARAMETER es)
            = map (parameter_at
                     ((if is_method then format_optional parent_class
                       else module_path) +:+ "." +:+ fname))
                (enumerate args)).
  { clear H Hn. intros is_async args body decorator_list lineno H.
    unfold _parse_function_def in H. split_markers H.
    apply and_then_Some in H as (e1 & r1 & e2 & r2 & H1 & H & -> & ->).
    apply and_then_Some in H as (e3 & r3 & e4 & r4 & H3 & H & -> & ->).
    apply and_then_Some in H as (e5 & r5 & e6 & r6 & H5 & H & -> & ->).
    injection H1 as <- <-. injection H3 as <- <-.
    assert (Hp : (if is_method then format_optional parent_class +:+ "." +:+ fname
                  else module_path +:+ "." +:+ fname)
                 = (if is_method then format_optional parent_class
                    else module_path) +:+ "." +:+ fname)
      by by destruct is_method.
    rewrite Hp in H5. apply for_each_parameters in H5 as [Hv Ht].
    rewrite !entities_of_app.
    rewrite (entities_of_cons_other PARAMETER) by by destruct is_method.
    cbn [entities_of List.filter app].
    match type of H with
    | ?step = _ => assert (Ha : appends not_a_parameter step)
    end.
    { unfold _add_decorator, _add_docstring. repeat appends_step; done. }
    rewrite (filter_not_parameter _ _ _ Ha H), app_nil_r.
    fold (entities_of PARAMETER e5). unfold entities_of.
    rewrite filter_all; [exact Hv|].
    eapply Forall_impl; [exact Ht|]. cbn. intros e He.
    by apply bool_decide_eq_true_2. }
  destruct node; try discriminate; cbn [_parse_function] in H;
    cbn [function_name] in Hn; injection Hn as ->; by eapply Hdef.
Qed.

End Parameters.

Lemma length_enumerate_from {A : Type} (i : Z) (l : list A) :
  length (enumerate_from i l) = length l.
Proof.
  revert i. induction l as [|x l IH]; intros i; [reflexivity|].
  cbn. by rewrite IH.
Qed.

(** X28. A function or method gives one Parameter entity for each entry
    of [node.args.args], the parameters that can be passed by position or by
    keyword (self among them when it is declared so), in the order of that
    list: the entity of the entry at index i, counted from 0, is named
    owner.param.name, where owner is the qualified name of the function,
    and carries the bare name and the position i.  Positional-only,
    keyword-only and starred parameters are not in that list and get no
    entity, and a position counts the entries of the list only. *)
Theorem parameters_are_numbered_in_order
    (cleandoc : string -> string) (unparse : expr -> option string)
    (recursion_limit : nat)
    (module_path : string) (node : stmt) (is_method : bool)
    (parent_class : option string) (fname : string)
    (es : list EntityInfo) (rs : list RelationshipInfo) :
  _parse_function cleandoc unparse recursion_limit
    module_path node is_method parent_class
  = Some (es, rs) ->
  function_name node = Some fname ->
  let owner :=
    (if is_method then format_optional parent_class else module_path)
    +:+ "." +:+ fname in
  map parameter_view (entities_of PARAMETER es)
  = map (parameter_at owner) (enumerate (function_args node)) /\
  length (entities_of PARAMETER es) = length (function_args node) /\
  map (fun e => dict_get "position" (properties e))
    (entities_of PARAMETER es)
  = map (fun i => Some (PyInt (Z.of_nat i)))
      (seq 0 (length (function_args node))).
Proof.
  intros H Hn owner.
  pose proof (_parse_function_parameters _ _ _ _ _ _ _ _ _ _ H Hn) as Hv.
  fold owner in Hv. split; [exact Hv|].
  assert (Hpos : forall i l,
            map (fun v : string * option pyval * option pyval => snd v)
              (map (parameter_at owner) (enumerate_from (Z.of_nat i) l))
            = map (fun i => Some (PyInt (Z.of_nat i))) (seq i (length l))).
  { intros i l. revert i. induction l as [|a l IH]; intros i; [reflexivity|].
    cbn [enumerate_from map length seq]. f_equal.
    rewrite <- IH. by rewrite Nat2Z.inj_succ, Z.add_1_r. }
  split.
  - apply (f_equal length) in Hv. rewrite !length_map in Hv.
    rewrite Hv. apply length_enumerate_from.
  - rewrite <- (Hpos 0%nat). unfold enumerate in Hv.
    change (Z.of_nat 0) with 0%Z. rewrite <- Hv, map_map. reflexivity.
Qed.

Lemma parameters_are_numbered_in_order_witness :
  exists es rs,
    _parse_function (fun s => s) (fun _ => Some "Request") 1000 "m"
      three_parameters true (Some "m.Api") = Some (es, rs) /\
    map parameter_view (entities_of PARAMETER es)
    = [("m.Api.get.param.self", Some (PyStr "self"), Some (PyInt 0));
       ("m.Api.get.param.request", Some (PyStr "request"), Some (PyInt 1));
       ("m.Api.get.param.limit", Some (PyStr "limit"), Some (PyInt 2))].
Proof.
  eexists _, _. split; [reflexivity|].
  destruct (parameters_are_numbered_in_order (fun s => s)
              (fun _ => Some "Request") 1000 "m" three_parameters true
              (Some "m.Api") "get" _ _ eq_refl eq_refl) as [H _].
  exact H.
Defined.
